(** * Bitmask reconstruction for blob-autotile sheets

    A shallow embedding of [scripts/verify-gm-blob.py] and the properties
    of its mask-reconstruction pipeline: region differ, gap-based threshold
    discovery, bit composition and validation against the canonical
    47-mask set.

    Modelling conventions.
    - Python [int] is [Z]; indices, coordinates and counters are [Z] too,
      so that a negative list index keeps its Python meaning.
    - Python [float] is modelled by exact rationals [Q].  Every region
      total is a sum of integers far below 2^53, hence exact in binary64;
      the division by the pixel count, the difference of two scores and
      the midpoint of two scores round.  Rounding matters to the gap scan
      in one way: two gaps that are equal as rationals can differ in
      binary64, and the program then settles on another of the equal gaps
      than the exact scan does.  The threshold finder is therefore given
      a second time, over binary64 (module [Binary64]); over [Q] the
      theorem on the threshold as a midpoint names a largest gap without
      saying which of several equal ones it is, and only the lemmas on
      the exact scan itself say that it stops at the first.
    - A raised exception is a value of [result]; the diagnostic [print]
      calls are modelled by the expressions they evaluate, because those
      expressions can raise.
    - The pixels of a decoded image are a total function from pixel
      coordinates to RGBA tuples, and [analyze_sheet] works on it: this
      is the analysis of an image that covers the 12 x 4 grid of 16 x 16
      cells.  The size of the image and the [IndexError] of a pixel
      access outside it are modelled by [picture] and [analyze_picture],
      the same analysis with every pixel access checked; on a picture
      that covers the grid it is [analyze_sheet] of its pixels.
    - [set] is [gset Z], [Counter] and the [duplicated] dict are
      [gmap Z Z]. *)

From stdpp Require Import gmap list sorting.
From Stdlib Require Import QArith ZArith Lia Lqa Permutation Sorted.
From Stdlib Require PrimFloat FloatAxioms SpecFloat.

Local Open Scope Z_scope.

(** ** Exceptions *)

Inductive exn : Set := ValueError | IndexError | TypeError | KeyError.

Inductive result (A : Type) : Type :=
| Ok (a : A)
| Raise (e : exn).
Arguments Ok {A} a.
Arguments Raise {A} e.

Definition bind {A B} (m : result A) (k : A -> result B) : result B :=
  match m with
  | Ok a => k a
  | Raise e => Raise e
  end.

Notation "'let!' x ':=' m 'in' k" := (bind m (fun x => k))
  (at level 10, x pattern, m at level 100, k at level 200).

Fixpoint foldM {A S} (f : S -> A -> result S) (l : list A) (s : S) : result S :=
  match l with
  | [] => Ok s
  | a :: l' => let! s' := f s a in foldM f l' s'
  end.

Fixpoint mapM {A B} (f : A -> result B) (l : list A) : result (list B) :=
  match l with
  | [] => Ok []
  | a :: l' => let! b := f a in let! bs := mapM f l' in Ok (b :: bs)
  end.

(** ** Python built-ins used by the script *)

(** [range(a, b)] *)
Definition range (a b : Z) : list Z :=
  map (fun k => a + Z.of_nat k) (seq 0 (Z.to_nat (b - a))).

Definition len {A} (l : list A) : Z := Z.of_nat (length l).

(** [l[i]], with Python's negative indices and its [IndexError]. *)
Definition getitem {A} (l : list A) (i : Z) : result A :=
  let j := if i <? 0 then len l + i else i in
  if j <? 0 then Raise IndexError
  else match l !! Z.to_nat j with
       | Some x => Ok x
       | None => Raise IndexError
       end.

(** [sorted]: a stable sort that, like Python's, only asks [<]. *)
Fixpoint insert_sorted {A} (lt : A -> A -> bool) (x : A) (l : list A) : list A :=
  match l with
  | [] => [x]
  | y :: l' => if lt y x then y :: insert_sorted lt x l' else x :: y :: l'
  end.

Definition sorted_by {A} (lt : A -> A -> bool) (l : list A) : list A :=
  foldr (insert_sorted lt) [] l.

(** [a < b] on floats. *)
Definition Qltb (a b : Q) : bool := (Qnum a * QDen b <? Qnum b * QDen a)%Z.

Definition sorted (l : list Q) : list Q := sorted_by Qltb l.

(** [min] and [max] of a list; [ValueError] on the empty one. *)
Definition py_min (l : list Q) : result Q :=
  match l with
  | [] => Raise ValueError
  | x :: l' => Ok (foldl (fun m y => if Qltb y m then y else m) x l')
  end.

Definition py_max (l : list Q) : result Q :=
  match l with
  | [] => Raise ValueError
  | x :: l' => Ok (foldl (fun m y => if Qltb m y then y else m) x l')
  end.

(** ** Constants and pixels *)

Definition TILE : Z := 16.
Definition HALF : Z := 8.
Definition COLS : Z := 12.
Definition ROWS : Z := 4.

Definition rgb : Type := Z * Z * Z.
Definition rgba : Type := Z * Z * Z * Z.

Definition alpha (p : rgba) : Z := let '(_, _, _, a) := p in a.
Definition rgb_of (p : rgba) : rgb := let '(r, g, b, _) := p in (r, g, b).

(** The pixel access object of the decoded image. *)
Definition image : Type := Z -> Z -> rgba.

Section Sheet.

Variable pixels : image.

(** [get_cell]: the 256 pixels of a cell, row by row. *)
Definition get_cell (col row : Z) : list rgba :=
  let x0 := col * TILE in
  let y0 := row * TILE in
  flat_map (fun dy => map (fun dx => pixels (x0 + dx) (y0 + dy)) (range 0 TILE))
           (range 0 TILE).

(** [all(p[3] < 128 for p in cell)] *)
Definition transparent (cell : list rgba) : bool :=
  forallb (fun p => alpha p <? 128) cell.

(** The nested loops [for row in range(ROWS): for col in range(COLS)]. *)
Definition cell_coords : list (Z * Z) :=
  flat_map (fun row => map (fun col => (col, row)) (range 0 COLS)) (range 0 ROWS).

(** Lines 50-55: the last fully transparent cell met by the scan. *)
Definition find_unused : option (Z * Z) :=
  foldl (fun unused '(col, row) =>
           if transparent (get_cell col row) then Some (col, row) else unused)
        None cell_coords.

End Sheet.

(** [pixel_diff]: squared colour distance of two RGB tuples. *)
Definition pixel_diff (p1 p2 : rgb) : Z :=
  let '(r1, g1, b1) := p1 in
  let '(r2, g2, b2) := p2 in
  (r1 - r2) ^ 2 + (g1 - g2) ^ 2 + (b1 - b2) ^ 2.

(** ** Region differ *)

(** The body shared by the inner loops of [quadrant_diff] and
    [sub_region_diff]: one pixel added to [(total, count)]. *)
Definition diff_pixel (ref_rgb : list rgb) (cell_pixels : list rgba)
    (idx : Z) (acc : Q * Z) : result (Q * Z) :=
  let '(total, count) := acc in
  let! p := getitem cell_pixels idx in
  let '(r, g, b, a) := p in
  if a <? 128 then Ok ((total + 10000)%Q, count + 1)
  else
    let! q := getitem ref_rgb idx in
    Ok ((total + inject_Z (pixel_diff (r, g, b) q))%Q, count + 1).

(** The two nested [for] loops over a rectangle of the cell. *)
Definition region_loop (ref_rgb : list rgb) (cell_pixels : list rgba)
    (x_start y_start x_size y_size : Z) : result (Q * Z) :=
  foldM (fun acc dy =>
           foldM (fun acc dx =>
                    let px := x_start + dx in
                    let py := y_start + dy in
                    let idx := py * TILE + px in
                    diff_pixel ref_rgb cell_pixels idx acc)
                 (range 0 x_size) acc)
        (range 0 y_size) (0%Q, 0).

(** [total / count if count > 0 else 0] *)
Definition mean_of (acc : Q * Z) : Q :=
  let '(total, count) := acc in
  if 0 <? count then (total / inject_Z count)%Q else 0%Q.

Definition quadrant_diff (ref_rgb : list rgb) (cell_pixels : list rgba)
    (qx qy : Z) : result Q :=
  let! acc := region_loop ref_rgb cell_pixels qx qy HALF HALF in
  Ok (mean_of acc).

Definition sub_region_diff (ref_rgb : list rgb) (cell_pixels : list rgba)
    (x_start y_start x_size y_size : Z) : result Q :=
  let! acc := region_loop ref_rgb cell_pixels x_start y_start x_size y_size in
  Ok (mean_of acc).

(** ** Per-cell records *)

Definition quad : Type := Q * Q * Q * Q.

Definition quad_list (t : quad) : list Q :=
  let '(a, b, c, d) := t in [a; b; c; d].

(** One dict of [results].  [mask] is [None] between the first pass and
    the classification; the keys "edges" and "corners" are absent until
    the second pass adds them. *)
Record entry : Type := mk_entry {
  col : Z;
  row : Z;
  mask : option Z;
  qdiffs : quad;
  edges : option quad;
  corners : option quad
}.

(** [entry["mask"] == -1] *)
Definition is_unused (e : entry) : bool :=
  match mask e with
  | Some m => m =? -1
  | None => false
  end.

(** ** First pass: quadrant differences (lines 86-107) *)

Definition first_pass (pixels : image) (ref_rgb : list rgb)
    : result (list entry * list Q) :=
  foldM (fun '(results, all_qdiffs) '(c, r) =>
           let cell := get_cell pixels c r in
           if transparent cell then
             Ok (results ++ [mk_entry c r (Some (-1)) (0, 0, 0, 0)%Q None None],
                 all_qdiffs)
           else
             let! nw_diff := quadrant_diff ref_rgb cell 0 0 in
             let! ne_diff := quadrant_diff ref_rgb cell HALF 0 in
             let! sw_diff := quadrant_diff ref_rgb cell 0 HALF in
             let! se_diff := quadrant_diff ref_rgb cell HALF HALF in
             Ok (results ++ [mk_entry c r None (nw_diff, ne_diff, sw_diff, se_diff)
                                      None None],
                 all_qdiffs ++ [nw_diff; ne_diff; sw_diff; se_diff]))
        (cell_coords) ([], []).

(** ** Gap scan

    The loop of lines 115-121, repeated verbatim at lines 210-216:
    [gap_idx] is the first index whose gap to its predecessor is the
    largest, or [0] when no gap is positive. *)
Definition gap_scan (sorted_d : list Q) : result (Q * Z) :=
  foldM (fun '(max_gap, gap_idx) i =>
           let! hi := getitem sorted_d i in
           let! lo := getitem sorted_d (i - 1) in
           let gap := (hi - lo)%Q in
           if Qltb max_gap gap then Ok (gap, i) else Ok (max_gap, gap_idx))
        (range 1 (len sorted_d)) (0%Q, 0).

(** Lines 112-128: the threshold of the quadrant pass and the two
    diagnostic lines that follow it. *)
Definition auto_threshold (all_qdiffs : list Q) : result Q :=
  let sorted_diffs := sorted (List.filter (Qltb 0) all_qdiffs) in
  let! (threshold, gap_idx) :=
    match sorted_diffs with
    | _ :: _ =>
        let! (_, gap_idx) := gap_scan sorted_diffs in
        if 0 <? gap_idx then
          let! lo := getitem sorted_diffs (gap_idx - 1) in
          let! hi := getitem sorted_diffs gap_idx in
          Ok (((lo + hi) / 2)%Q, gap_idx)
        else
          let! d0 := getitem sorted_diffs 0 in
          Ok ((d0 / 2)%Q, gap_idx)
    | [] =>
        (* [gap_idx] stays unbound here; line 127 raises before any use *)
        Ok (100%Q, 0)
    end in
  (* line 127 *)
  let! _ := py_min sorted_diffs in
  let! _ := py_max sorted_diffs in
  (* line 128 *)
  let! _ := getitem sorted_diffs (gap_idx - 1) in
  let! _ := getitem sorted_diffs gap_idx in
  Ok threshold.

(** ** Second pass: the eight regions of every used cell (lines 178-197) *)

Definition cell_regions (ref_rgb : list rgb) (cell : list rgba)
    : result (quad * quad) :=
  (* Cardinal edges (middle section, avoiding corners) *)
  let! n_diff := sub_region_diff ref_rgb cell 3 0 10 3 in
  let! s_diff := sub_region_diff ref_rgb cell 3 13 10 3 in
  let! w_diff := sub_region_diff ref_rgb cell 0 3 3 10 in
  let! e_diff := sub_region_diff ref_rgb cell 13 3 3 10 in
  (* Corner 4x4 regions *)
  let! nw_diff := sub_region_diff ref_rgb cell 0 0 4 4 in
  let! ne_diff := sub_region_diff ref_rgb cell 12 0 4 4 in
  let! sw_diff := sub_region_diff ref_rgb cell 0 12 4 4 in
  let! se_diff := sub_region_diff ref_rgb cell 12 12 4 4 in
  Ok ((n_diff, w_diff, e_diff, s_diff), (nw_diff, ne_diff, sw_diff, se_diff)).

Definition second_pass (pixels : image) (ref_rgb : list rgb)
    (results : list entry) : result (list entry) :=
  mapM (fun e =>
          if is_unused e then Ok e
          else
            let cell := get_cell pixels (col e) (row e) in
            let! (es, cs) := cell_regions ref_rgb cell in
            Ok (mk_entry (col e) (row e) (mask e) (qdiffs e) (Some es) (Some cs)))
       results.

(** ** Pools (lines 200-206) *)

(** [entry["corners"]] of an entry that has the key "edges": both keys
    are written together (lines 196-197); a lone "edges" would make the
    lookup of "corners" fail. *)
Definition gather_step (acc : list Q * list Q) (e : entry) : result (list Q * list Q) :=
  let '(all_edge_diffs, all_corner_diffs) := acc in
  if is_unused e then Ok (all_edge_diffs, all_corner_diffs)
  else match edges e with
       | None => Ok (all_edge_diffs, all_corner_diffs)
       | Some es =>
           match corners e with
           | Some cs =>
               Ok (all_edge_diffs ++ quad_list es, all_corner_diffs ++ quad_list cs)
           | None => Raise KeyError
           end
       end.

Definition gather (results : list entry) : result (list Q * list Q) :=
  foldM gather_step results ([], []).

(** ** Threshold discovery (lines 208-222) *)

Definition find_threshold (diffs : list Q) : result Q :=
  let sorted_d := sorted diffs in
  let! (_, gap_idx) := gap_scan sorted_d in
  let! thresh :=
    if 0 <? gap_idx then
      let! lo := getitem sorted_d (gap_idx - 1) in
      let! hi := getitem sorted_d gap_idx in
      Ok ((lo + hi) / 2)%Q
    else
      match sorted_d with
      | _ :: _ => let! top := getitem sorted_d (-1) in Ok (top / 2)%Q
      | [] => Ok 100%Q
      end in
  (* line 221: the f-string indexes the sorted pool while printing *)
  let! _ := getitem sorted_d (gap_idx - 1) in
  let! _ := getitem sorted_d gap_idx in
  Ok thresh.

(** ** Mask classifier (lines 228-251) *)

Definition classify_mask (es cs : quad) (edge_thresh corner_thresh : Q) : Z :=
  let '(n_diff, w_diff, e_diff, s_diff) := es in
  let '(nw_diff, ne_diff, sw_diff, se_diff) := cs in
  (* Cardinal: edge is primary (neighbor present) if diff is small *)
  let n := Qltb n_diff edge_thresh in
  let w := Qltb w_diff edge_thresh in
  let e := Qltb e_diff edge_thresh in
  let s := Qltb s_diff edge_thresh in
  let mask := 0 in
  let mask := if n then Z.lor mask 1 else mask in
  let mask := if w then Z.lor mask 2 else mask in
  let mask := if e then Z.lor mask 4 else mask in
  let mask := if s then Z.lor mask 8 else mask in
  (* Diagonal: corner is primary only if both adjacent cardinals are present *)
  let mask := if n && w && Qltb nw_diff corner_thresh then Z.lor mask 16 else mask in
  let mask := if n && e && Qltb ne_diff corner_thresh then Z.lor mask 32 else mask in
  let mask := if s && w && Qltb sw_diff corner_thresh then Z.lor mask 64 else mask in
  let mask := if s && e && Qltb se_diff corner_thresh then Z.lor mask 128 else mask in
  mask.

Definition classify (edge_thresh corner_thresh : Q) (results : list entry)
    : result (list entry) :=
  mapM (fun e =>
          if is_unused e then Ok e
          else match edges e with
               | None => Ok e
               | Some es =>
                   match corners e with
                   | Some cs =>
                       Ok (mk_entry (col e) (row e)
                             (Some (classify_mask es cs edge_thresh corner_thresh))
                             (qdiffs e) (edges e) (corners e))
                   | None => Raise KeyError
                   end
               end)
       results.

(** ** Printed grid (lines 259-268) *)

(** [entry["mask"]] used as a number: [None] cannot be compared. *)
Definition int_mask (e : entry) : result Z :=
  match mask e with
  | Some m => Ok m
  | None => Raise TypeError
  end.

(** One printed slot: [None] is the placeholder, [Some m] an active entry. *)
Definition print_grid (results : list entry) : result (list (list (option Z))) :=
  mapM (fun r =>
          mapM (fun c =>
                  let! e := getitem results (r * COLS + c) in
                  let! m := int_mask e in
                  Ok (if m <? 0 then None else Some m))
               (range 0 COLS))
       (range 0 ROWS).

(** ** Validator (lines 271-300) *)

Definition expected_47 : gset Z :=
  list_to_set
    [0; 1; 2; 3; 4; 5; 6; 7; 8; 9; 10; 11; 12; 13; 14; 15;
     19; 23; 27; 31; 37; 39; 45; 47; 55; 63; 74; 75; 78; 79; 91;
     95; 111; 127; 140; 141; 142; 143; 159; 173; 175; 191; 206;
     207; 223; 239; 255].

(** [[r["mask"] for r in results if r["mask"] >= 0]] *)
Definition used_masks (results : list entry) : result (list Z) :=
  foldM (fun masks e =>
           let! m := int_mask e in
           Ok (if 0 <=? m then masks ++ [m] else masks))
        results [].

(** [Counter(masks)] *)
Definition Counter (masks : list Z) : gmap Z Z :=
  foldl (fun counts m => <[m := default 0 (counts !! m) + 1]> counts) ∅ masks.

Record validation : Type := mk_validation {
  unique : Z;
  missing : gset Z;
  extra : gset Z;
  duplicated : gmap Z Z;
  perfect : bool;
  mapping : option (list (Z * Z * Z))
}.

(** [sorted(results, key=lambda e: e["mask"])], then the entries with a
    non-negative mask as [mask, col, row]. *)
Definition emit_mapping (results : list entry) : result (list (Z * Z * Z)) :=
  let! keyed := mapM (fun e => let! m := int_mask e in Ok (m, e)) results in
  let ordered := sorted_by (fun a b => fst a <? fst b) keyed in
  Ok (map (fun '(m, e) => (m, col e, row e))
          (List.filter (fun '(m, _) => 0 <=? m) ordered)).

Definition validate (results : list entry) : result validation :=
  let! masks := used_masks results in
  let mask_counts := Counter masks in
  let present : gset Z := list_to_set masks in
  let missing := expected_47 ∖ present in
  let extra := present ∖ expected_47 in
  let duplicated := filter (fun '(m, c) => 1 < c ∧ 0 <= m) mask_counts in
  let perfect :=
    bool_decide (missing = ∅) && bool_decide (extra = ∅)
    && bool_decide (duplicated = ∅) in
  let! mapping :=
    if perfect then let! t := emit_mapping results in Ok (Some t)
    else Ok None in
  Ok (mk_validation (Z.of_nat (size present)) missing extra duplicated
                    perfect mapping).

(** ** The whole analysis *)

(** What [analyze_sheet] prints, as data. *)
Record report : Type := mk_report {
  unused : option (Z * Z);
  threshold : Q;
  edge_thresh : Q;
  corner_thresh : Q;
  grid : list (list (option Z));
  validated : validation
}.

Definition analyze_sheet (pixels : image) : result (list entry * report) :=
  let unused := find_unused pixels in
  (* Reference: mask 255 = solid fill at (1, 0) *)
  let ref_cell := get_cell pixels 1 0 in
  let ref_rgb := map rgb_of ref_cell in
  let! (results, all_qdiffs) := first_pass pixels ref_rgb in
  let! threshold := auto_threshold all_qdiffs in
  let! results := second_pass pixels ref_rgb results in
  let! (all_edge_diffs, all_corner_diffs) := gather results in
  let! edge_thresh := find_threshold all_edge_diffs in
  let! corner_thresh := find_threshold all_corner_diffs in
  let! results := classify edge_thresh corner_thresh results in
  let! grid := print_grid results in
  let! v := validate results in
  Ok (results, mk_report unused threshold edge_thresh corner_thresh grid v).

(** ** Concrete sheets *)

Definition solid : rgba := (100, 150, 200, 255).
Definition clear : rgba := (0, 0, 0, 0).

Definition in_cell (c r x y : Z) : bool :=
  (c * TILE <=? x) && (x <? (c + 1) * TILE) && (r * TILE <=? y) && (y <? (r + 1) * TILE).

(** Scenario B: the reference cell alone, every other cell transparent. *)
Definition sheet_B : image :=
  fun x y => if in_cell 1 0 x y then solid else clear.

(** Scenario A: cell (0,0) repeats the reference except on its North strip. *)
Definition sheet_A : image :=
  fun x y =>
    if in_cell 1 0 x y then solid
    else if in_cell 0 0 x y then
      if (3 <=? x) && (x <? 13) && (y <? 3) then (250, 20, 20, 255) else solid
    else clear.

(** A sheet without any visible pixel. *)
Definition sheet_clear : image := fun _ _ => clear.

(** A sheet whose reference cell is transparent. *)
Definition sheet_T : image :=
  fun x y => if in_cell 0 0 x y then (10, 10, 10, 255) else clear.

(** ** The region differ as the specification words it *)

Inductive region : Set :=
| North | South | West | East
| NorthWest | NorthEast | SouthWest | SouthEast.

Definition strip_thick : Z := 3.
Definition strip_long : Z := 10.
Definition corner_side : Z := 4.

(** [(x, y, width, height)] of a region inside the cell: edge strips are
    3 thick and 10 long, centred on their edge; corner blocks are 4 x 4. *)
Definition region_box (r : region) : Z * Z * Z * Z :=
  let centred := (TILE - strip_long) / 2 in
  match r with
  | North => (centred, 0, strip_long, strip_thick)
  | South => (centred, TILE - strip_thick, strip_long, strip_thick)
  | West => (0, centred, strip_thick, strip_long)
  | East => (TILE - strip_thick, centred, strip_thick, strip_long)
  | NorthWest => (0, 0, corner_side, corner_side)
  | NorthEast => (TILE - corner_side, 0, corner_side, corner_side)
  | SouthWest => (0, TILE - corner_side, corner_side, corner_side)
  | SouthEast => (TILE - corner_side, TILE - corner_side, corner_side, corner_side)
  end.

(** Local offsets of the pixels of a rectangle, row by row. *)
Definition rect_offsets (rect : Z * Z * Z * Z) : list Z :=
  let '(x, y, w, h) := rect in
  flat_map (fun py => map (fun px => py * TILE + px) (range x (x + w)))
           (range y (y + h)).

(** The squared Euclidean distance between two colours, as the
    specification words it: the squared differences of the three channels,
    added up. *)
Definition squared_distance (p q : rgb) : Z :=
  let '(r, g, b) := p in
  let '(r', g', b') := q in
  (r - r') * (r - r') + (g - g') * (g - g') + (b - b') * (b - b').

(** The score of one pixel against the reference at the same offset. *)
Definition pixel_score (ref_rgb : list rgb) (cell : list rgba) (idx : Z) : Q :=
  let p := cell !!! Z.to_nat idx in
  if alpha p <? 128 then 10000%Q
  else inject_Z (pixel_diff (rgb_of p) (ref_rgb !!! Z.to_nat idx)).

Definition Qsum (l : list Q) : Q := foldl Qplus 0%Q l.

Definition mean (l : list Q) : Q := (Qsum l / inject_Z (len l))%Q.

Definition region_score (ref_rgb : list rgb) (cell : list rgba) (r : region) : Q :=
  mean (map (pixel_score ref_rgb cell) (rect_offsets (region_box r))).

(** The rectangles [cell_regions] asks for, in call order. *)
Definition requested_regions : list (Z * Z * Z * Z) :=
  [(3, 0, 10, 3); (3, 13, 10, 3); (0, 3, 3, 10); (13, 3, 3, 10);
   (0, 0, 4, 4); (12, 0, 4, 4); (0, 12, 4, 4); (12, 12, 4, 4)].

(** ** Closed forms of the passes

    Inside a 256-pixel cell no index leaves the buffer, so every pass has
    a pure closed form; the lemmas below relate the passes to them. *)

(** Offsets as the loops of the script enumerate them. *)
Definition loop_offsets (x_start y_start x_size y_size : Z) : list Z :=
  flat_map (fun dy => map (fun dx => (y_start + dy) * TILE + (x_start + dx))
                          (range 0 x_size))
           (range 0 y_size).

(** One loop iteration of the differ as a pure step. *)
Definition add_score (ref_rgb : list rgb) (cell : list rgba) (acc : Q * Z) (idx : Z) : Q * Z :=
  ((fst acc + pixel_score ref_rgb cell idx)%Q, snd acc + 1).

Definition ref_of (pixels : image) : list rgb := map rgb_of (get_cell pixels 1 0).

Definition quadrant_score (ref_rgb : list rgb) (cell : list rgba) (qx qy : Z) : Q :=
  mean (map (pixel_score ref_rgb cell) (loop_offsets qx qy HALF HALF)).

Definition quadrant_scores (pixels : image) (cr : Z * Z) : quad :=
  let cell := get_cell pixels cr.1 cr.2 in
  (quadrant_score (ref_of pixels) cell 0 0, quadrant_score (ref_of pixels) cell HALF 0,
   quadrant_score (ref_of pixels) cell 0 HALF, quadrant_score (ref_of pixels) cell HALF HALF).

Definition edge_scores (ref_rgb : list rgb) (cell : list rgba) : quad :=
  (region_score ref_rgb cell North, region_score ref_rgb cell West,
   region_score ref_rgb cell East, region_score ref_rgb cell South).

Definition corner_scores (ref_rgb : list rgb) (cell : list rgba) : quad :=
  (region_score ref_rgb cell NorthWest, region_score ref_rgb cell NorthEast,
   region_score ref_rgb cell SouthWest, region_score ref_rgb cell SouthEast).

(** The entry of a cell after the first pass, ... *)
Definition first_entry (pixels : image) (cr : Z * Z) : entry :=
  if transparent (get_cell pixels cr.1 cr.2)
  then mk_entry cr.1 cr.2 (Some (-1)) (0, 0, 0, 0)%Q None None
  else mk_entry cr.1 cr.2 None (quadrant_scores pixels cr) None None.

(** ... after the second pass, ... *)
Definition scored_entry (pixels : image) (cr : Z * Z) : entry :=
  let cell := get_cell pixels cr.1 cr.2 in
  if transparent cell
  then mk_entry cr.1 cr.2 (Some (-1)) (0, 0, 0, 0)%Q None None
  else mk_entry cr.1 cr.2 None (quadrant_scores pixels cr)
                (Some (edge_scores (ref_of pixels) cell))
                (Some (corner_scores (ref_of pixels) cell)).

(** ... and after classification. *)
Definition final_entry (pixels : image) (edge_thresh corner_thresh : Q)
    (cr : Z * Z) : entry :=
  let cell := get_cell pixels cr.1 cr.2 in
  if transparent cell
  then mk_entry cr.1 cr.2 (Some (-1)) (0, 0, 0, 0)%Q None None
  else mk_entry cr.1 cr.2
                (Some (classify_mask (edge_scores (ref_of pixels) cell)
                                     (corner_scores (ref_of pixels) cell)
                                     edge_thresh corner_thresh))
                (quadrant_scores pixels cr)
                (Some (edge_scores (ref_of pixels) cell))
                (Some (corner_scores (ref_of pixels) cell)).

(** The cells that are not fully transparent, in scan order. *)
Definition used_cells (pixels : image) : list (Z * Z) :=
  List.filter (fun cr => negb (transparent (get_cell pixels cr.1 cr.2))) cell_coords.

Definition quadrant_pool (pixels : image) : list Q :=
  flat_map (fun cr => quad_list (quadrant_scores pixels cr)) (used_cells pixels).

Definition edge_pool (pixels : image) : list Q :=
  flat_map (fun cr => quad_list (edge_scores (ref_of pixels) (get_cell pixels cr.1 cr.2)))
           (used_cells pixels).

Definition corner_pool (pixels : image) : list Q :=
  flat_map (fun cr => quad_list (corner_scores (ref_of pixels) (get_cell pixels cr.1 cr.2)))
           (used_cells pixels).

(** ** Vocabulary for the threshold properties *)

(** [l[i]] inside the bounds of [l]. *)
Definition item (l : list Q) (i : Z) : Q := nth (Z.to_nat i) l 0%Q.

(** The gap between [l[i-1]] and [l[i]]. *)
Definition gap (l : list Q) (i : Z) : Q := (item l i - item l (i - 1))%Q.

(** [g] is the first index of [l] whose gap is the largest one. *)
Definition first_largest_gap (l : list Q) (g : Z) : Prop :=
  1 <= g < len l /\
  (0 < gap l g)%Q /\
  (forall j, 1 <= j < len l -> (gap l j <= gap l g)%Q) /\
  (forall j, 1 <= j < g -> (gap l j < gap l g)%Q).


(** No two neighbours of [l] are apart. *)
Definition no_positive_gap (l : list Q) : Prop :=
  forall j, 1 <= j < len l -> (gap l j <= 0)%Q.

(** The state of the scan after the indices below [n]. *)
Definition scan_inv (l : list Q) (n : Z) (st : Q * Z) : Prop :=
  let '(max_gap, gap_idx) := st in
  (gap_idx = 0 /\ max_gap = 0%Q /\ forall j, 1 <= j < n -> (gap l j <= 0)%Q)
  \/ (1 <= gap_idx < n /\ max_gap = gap l gap_idx /\ (0 < gap l gap_idx)%Q /\
      (forall j, 1 <= j < n -> (gap l j <= gap l gap_idx)%Q) /\
      (forall j, 1 <= j < gap_idx -> (gap l j < gap l gap_idx)%Q)).

(** ** Vocabulary for the validator properties *)

(** The mask of a classified cell, [-1] for a transparent one. *)
Definition final_mask (pixels : image) (edge_thresh corner_thresh : Q)
    (cr : Z * Z) : Z :=
  let cell := get_cell pixels cr.1 cr.2 in
  if transparent cell then -1
  else classify_mask (edge_scores (ref_of pixels) cell)
                     (corner_scores (ref_of pixels) cell) edge_thresh corner_thresh.

(** The masks the validator looks at: the non-negative ones, in order. *)
Definition observed (results : list entry) : list Z :=
  List.filter (fun m => 0 <=? m) (omap mask results).

(** The [mask, col, row] triples of the entries with a non-negative mask. *)
Definition triples (results : list entry) : list (Z * Z * Z) :=
  omap (fun e => match mask e with
                 | Some m => if 0 <=? m then Some (m, col e, row e) else None
                 | None => None
                 end) results.

(** How many cells show the mask [m]. *)
Definition occurrences (m : Z) (masks : list Z) : Z :=
  len (List.filter (Z.eqb m) masks).

(** Ascending by mask, the first component of a triple. *)
Definition mask_le (a b : Z * Z * Z) : Prop := a.1.1 <= b.1.1.

(** ** Vocabulary for the classifier properties *)

(** Bit [b] (a power of two) is set in [m]. *)
Definition has_bit (m b : Z) : Prop := Z.land m b = b.

(** The structural rule: a diagonal bit needs both flanking cardinals. *)
Definition diagonal_rule (m : Z) : Prop :=
  (has_bit m 16 -> has_bit m 1 /\ has_bit m 2) /\
  (has_bit m 32 -> has_bit m 1 /\ has_bit m 4) /\
  (has_bit m 64 -> has_bit m 8 /\ has_bit m 2) /\
  (has_bit m 128 -> has_bit m 8 /\ has_bit m 4).

(** ** Vocabulary for the scenarios *)

(** [all(p[3] >= 128 for p in cell)]: no pixel is transparent. *)
Definition opaque (cell : list rgba) : bool :=
  forallb (fun p => 128 <=? alpha p) cell.

(** [cell] repeats [ref_cell] at every offset outside the rectangle. *)
Definition same_outside (rect : Z * Z * Z * Z) (ref_cell cell : list rgba) : bool :=
  forallb (fun idx =>
             bool_decide (idx ∈ rect_offsets rect)
             || bool_decide (cell !! Z.to_nat idx = ref_cell !! Z.to_nat idx))
          (range 0 (TILE * TILE)).

(** The entry that [results] holds for the cell [(c, r)]. *)
Definition entry_at (results : list entry) (c r : Z) : option entry :=
  results !! Z.to_nat (r * COLS + c).

(** A sheet-sized list of classified entries: the 47 canonical masks, in
    no particular order, followed by one unused cell. *)
Definition planted : list entry :=
  map (fun '((c, r), m) => mk_entry c r (Some m) (0, 0, 0, 0)%Q None None)
      (zip cell_coords (elements expected_47 ++ [-1])).

(** Scenario B as a predicate: an opaque reference cell, every other cell
    fully transparent. *)
Definition scenario_B (pixels : image) : bool :=
  opaque (get_cell pixels 1 0)
  && forallb (fun cr => bool_decide (cr = (1, 0))
                        || transparent (get_cell pixels cr.1 cr.2))
             cell_coords.

(** * Further sheets and vocabulary *)

(** A sheet whose cell (0,0) repeats the reference except for one pixel
    in its middle, outside every edge strip and corner block. *)
Definition sheet_C : image :=
  fun x y =>
    if in_cell 1 0 x y then solid
    else if in_cell 0 0 x y then
      if (x =? 8) && (y =? 8) then (250, 20, 20, 255) else solid
    else clear.

(** The canonical masks in ascending order, as the script lists them. *)
Definition canonical_masks : list Z :=
  [0; 1; 2; 3; 4; 5; 6; 7; 8; 9; 10; 11; 12; 13; 14; 15;
   19; 23; 27; 31; 37; 39; 45; 47; 55; 63; 74; 75; 78; 79; 91;
   95; 111; 127; 140; 141; 142; 143; 159; 173; 175; 191; 206;
   207; 223; 239; 255].

(** ** Rendered sheets *)

(** Bit [b] is missing from the neighbour mask [m]. *)
Definition lacks (m b : Z) : bool := negb (Z.land m b =? b).

(** A blob tile painted for the neighbour mask [m]: a 4-pixel border band
    takes a foreign colour on each side whose cardinal neighbour is
    missing, a 4 x 4 corner block where the diagonal neighbour is
    missing; everything else repeats the solid fill. *)
Definition paint (m dx dy : Z) : rgba :=
  if (dy <? 4) && lacks m 1 || (dx <? 4) && lacks m 2
     || (12 <=? dx) && lacks m 4 || (12 <=? dy) && lacks m 8
     || (dx <? 4) && (dy <? 4) && lacks m 16
     || (12 <=? dx) && (dy <? 4) && lacks m 32
     || (dx <? 4) && (12 <=? dy) && lacks m 64
     || (12 <=? dx) && (12 <=? dy) && lacks m 128
  then (250, 20, 20, 255) else solid.

(** The sheet that shows [layout], one mask per cell in scan order; a
    negative mask leaves the cell transparent. *)
Definition render (layout : list Z) : image :=
  fun x y =>
    match layout !! Z.to_nat (y / TILE * COLS + x / TILE) with
    | Some m => if m <? 0 then clear else paint m (x mod TILE) (y mod TILE)
    | None => clear
    end.

(** The canonical masks in ascending order with 255 moved to the
    reference position, and the spare cell last. *)
Definition layout_1 : list Z :=
  [0; 255; 1; 2; 3; 4; 5; 6; 7; 8; 9; 10; 11; 12; 13; 14; 15;
   19; 23; 27; 31; 37; 39; 45; 47; 55; 63; 74; 75; 78; 79; 91;
   95; 111; 127; 140; 141; 142; 143; 159; 173; 175; 191; 206;
   207; 223; 239; -1].

(** The 256 pixels of the tile painted for [m]; a negative mask gives the
    transparent spare tile. *)
Definition tile (m : Z) : list rgba :=
  flat_map (fun dy => map (fun dx => if m <? 0 then clear else paint m dx dy)
                          (range 0 TILE))
           (range 0 TILE).

(** The mask that [layout] plants in the cell [cr]. *)
Definition planted_at (layout : list Z) (cr : Z * Z) : Z :=
  default (-1) (layout !! Z.to_nat (cr.2 * COLS + cr.1)).

(** ** The threshold finder in binary64 (lines 208-222)

    [find_threshold] once more, on the floats the program computes with:
    the same sort, scan and midpoint, with the subtraction, comparison,
    addition and division of IEEE binary64. *)
Module Binary64.

Import PrimFloat.
Local Open Scope float_scope.

Definition sorted (l : list float) : list float := sorted_by ltb l.

Definition gap_scan (sorted_d : list float) : result (float * Z) :=
  foldM (fun '(max_gap, gap_idx) i =>
           let! hi := getitem sorted_d i in
           let! lo := getitem sorted_d (i - 1)%Z in
           let gap := hi - lo in
           if max_gap <? gap then Ok (gap, i) else Ok (max_gap, gap_idx))
        (range 1 (len sorted_d)) (0, 0%Z).

Definition find_threshold (diffs : list float) : result float :=
  let sorted_d := sorted diffs in
  let! (_, gap_idx) := gap_scan sorted_d in
  let! thresh :=
    if (0 <? gap_idx)%Z then
      let! lo := getitem sorted_d (gap_idx - 1)%Z in
      let! hi := getitem sorted_d gap_idx in
      Ok ((lo + hi) / 2)
    else
      match sorted_d with
      | _ :: _ => let! top := getitem sorted_d (-1)%Z in Ok (top / 2)
      | [] => Ok 100
      end in
  (* line 221: the f-string indexes the sorted pool while printing *)
  let! _ := getitem sorted_d (gap_idx - 1)%Z in
  let! _ := getitem sorted_d gap_idx in
  Ok thresh.


(** [l[i]] of an index in range, and the gap between [l[i-1]] and [l[i]]
    as the scan computes it. *)
Definition item (l : list float) (i : Z) : float := nth (Z.to_nat i) l 0.

Definition gap (l : list float) (i : Z) : float := item l i - item l (i - 1)%Z.



End Binary64.

(** ** The decoded picture and its bounds (lines 36-47) *)

(** [img.size] and the pixel access object [img.load()]. *)
Record picture : Type := mk_picture {
  width : Z;
  height : Z;
  access : image
}.

(** [pixels[x, y]]: a negative coordinate counts from the far side, and a
    position outside the picture raises [IndexError]. *)
Definition pixel_at (img : picture) (x y : Z) : result rgba :=
  let x := if x <? 0 then width img + x else x in
  let y := if y <? 0 then height img + y else y in
  if (0 <=? x) && (x <? width img) && (0 <=? y) && (y <? height img)
  then Ok (access img x y)
  else Raise IndexError.

(** [get_cell] (lines 41-47), reading the picture pixel by pixel. *)
Definition get_cell_at (img : picture) (col row : Z) : result (list rgba) :=
  let x0 := col * TILE in
  let y0 := row * TILE in
  foldM (fun result dy =>
           foldM (fun result dx =>
                    let! p := pixel_at img (x0 + dx) (y0 + dy) in
                    Ok (result ++ [p]))
                 (range 0 TILE) result)
        (range 0 TILE) [].

(** Lines 50-55 *)
Definition find_unused_at (img : picture) : result (option (Z * Z)) :=
  foldM (fun unused '(col, row) =>
           let! cell := get_cell_at img col row in
           Ok (if transparent cell then Some (col, row) else unused))
        cell_coords None.

(** Lines 86-107 *)
Definition first_pass_at (img : picture) (ref_rgb : list rgb)
    : result (list entry * list Q) :=
  foldM (fun '(results, all_qdiffs) '(c, r) =>
           let! cell := get_cell_at img c r in
           if transparent cell then
             Ok (results ++ [mk_entry c r (Some (-1)) (0, 0, 0, 0)%Q None None],
                 all_qdiffs)
           else
             let! nw_diff := quadrant_diff ref_rgb cell 0 0 in
             let! ne_diff := quadrant_diff ref_rgb cell HALF 0 in
             let! sw_diff := quadrant_diff ref_rgb cell 0 HALF in
             let! se_diff := quadrant_diff ref_rgb cell HALF HALF in
             Ok (results ++ [mk_entry c r None (nw_diff, ne_diff, sw_diff, se_diff)
                                      None None],
                 all_qdiffs ++ [nw_diff; ne_diff; sw_diff; se_diff]))
        cell_coords ([], []).

(** Lines 178-197 *)
Definition second_pass_at (img : picture) (ref_rgb : list rgb)
    (results : list entry) : result (list entry) :=
  mapM (fun e =>
          if is_unused e then Ok e
          else
            let! cell := get_cell_at img (col e) (row e) in
            let! (es, cs) := cell_regions ref_rgb cell in
            Ok (mk_entry (col e) (row e) (mask e) (qdiffs e) (Some es) (Some cs)))
       results.

(** [analyze_sheet] on a decoded picture of any size: the body of
    [analyze_sheet] above, with every [get_cell] reading the picture. *)
Definition analyze_picture (img : picture) : result (list entry * report) :=
  let! unused := find_unused_at img in
  (* Reference: mask 255 = solid fill at (1, 0) *)
  let! ref_cell := get_cell_at img 1 0 in
  let ref_rgb := map rgb_of ref_cell in
  let! (results, all_qdiffs) := first_pass_at img ref_rgb in
  let! threshold := auto_threshold all_qdiffs in
  let! results := second_pass_at img ref_rgb results in
  let! (all_edge_diffs, all_corner_diffs) := gather results in
  let! edge_thresh := find_threshold all_edge_diffs in
  let! corner_thresh := find_threshold all_corner_diffs in
  let! results := classify edge_thresh corner_thresh results in
  let! grid := print_grid results in
  let! v := validate results in
  Ok (results, mk_report unused threshold edge_thresh corner_thresh grid v).

(** The picture holds the whole 12 x 4 grid. *)
Definition covers_grid (img : picture) : bool :=
  (COLS * TILE <=? width img) && (ROWS * TILE <=? height img).

(** ** The command line (lines 305-309) *)

(** How a run over several sheets ends: every sheet done, or stopped at
    the sheet with the given index, which could not be opened or whose
    analysis raised. *)
Inductive outcome : Type :=
| Done
| OpenFailed (index : Z)
| AnalysisFailed (index : Z) (e : exn).

Section Main.

(** Sheet paths, the default path, and [Image.open(path).convert("RGBA")],
    which gives no picture when it raises. *)
Variable path : Type.
Variable default_sheet : path.
Variable load : path -> option picture.

(** [for s in sheets: analyze_sheet(s)], from the sheet with index [i] on:
    the reports printed in full, and how the loop ends.  Nothing catches
    an exception, so the first one ends the run. *)
Fixpoint run_sheets (i : Z) (sheets : list path) : list report * outcome :=
  match sheets with
  | [] => ([], Done)
  | s :: rest =>
      match load s with
      | None => ([], OpenFailed i)
      | Some img =>
          match analyze_picture img with
          | Raise e => ([], AnalysisFailed i e)
          | Ok (_, rep) =>
              let '(reports, out) := run_sheets (i + 1) rest in
              (rep :: reports, out)
          end
      end
  end.

(** [sheets = sys.argv[1:] or [default]] *)
Definition main (argv : list path) : list report * outcome :=
  let sheets := match argv with [] => [default_sheet] | _ :: _ => argv end in
  run_sheets 0 sheets.

End Main.

Arguments run_sheets {path} load i sheets.
Arguments main {path} default_sheet load argv.

(** A picture of [sheet_A] of the full size, and one cut to 48 rows. *)
Definition picture_A : picture := mk_picture 192 64 sheet_A.
Definition picture_low : picture := mk_picture 192 48 sheet_A.

(** * Properties *)

(** ** The exception monad and the built-ins *)

Lemma bind_Ok {A B} (m : result A) (k : A -> result B) (b : B) :
  bind m k = Ok b -> exists a, m = Ok a /\ k a = Ok b.
Proof. destruct m as [a|e]; simpl; [eauto | discriminate]. Qed.

Lemma foldM_app {A S} (f : S -> A -> result S) (l1 l2 : list A) (s : S) :
  foldM f (l1 ++ l2) s = bind (foldM f l1 s) (foldM f l2).
Proof.
  revert s; induction l1 as [|a l1 IH]; intros s; simpl; [reflexivity|].
  destruct (f s a); simpl; auto.
Qed.

Lemma Qltb_lt (a b : Q) : Qltb a b = true <-> (a < b)%Q.
Proof. unfold Qltb, Qlt. apply Z.ltb_lt. Qed.

Lemma Qltb_ge (a b : Q) : Qltb a b = false <-> (b <= a)%Q.
Proof. unfold Qltb, Qle. rewrite Z.ltb_ge. reflexivity. Qed.

Lemma length_range (a b : Z) : length (range a b) = Z.to_nat (b - a).
Proof. unfold range. rewrite length_map, length_seq. reflexivity. Qed.

Lemma elem_of_range (a b i : Z) : i ∈ range a b <-> a <= i < b.
Proof.
  unfold range. rewrite list_elem_of_fmap. split.
  - intros (k & -> & Hk). apply elem_of_seq in Hk. lia.
  - intros Hi. exists (Z.to_nat (i - a)). split; [lia|].
    apply elem_of_seq. lia.
Qed.

Lemma range_snoc (a b : Z) : a <= b -> range a (b + 1) = range a b ++ [b].
Proof.
  intros Hab. unfold range.
  replace (Z.to_nat (b + 1 - a)) with (S (Z.to_nat (b - a))) by lia.
  rewrite seq_S, map_app. simpl. do 2 f_equal. lia.
Qed.

Lemma range_nil (a b : Z) : b <= a -> range a b = [].
Proof. intros ?. unfold range. replace (Z.to_nat (b - a)) with 0%nat by lia. reflexivity. Qed.

Lemma range_lookup (a b : Z) (k : nat) :
  (k < Z.to_nat (b - a))%nat -> range a b !! k = Some (a + Z.of_nat k).
Proof.
  intros Hk. unfold range. rewrite list_lookup_fmap, lookup_seq_lt by exact Hk.
  reflexivity.
Qed.

(** Inside its bounds [l[i]] is the list lookup. *)
Lemma getitem_lookup {A} (l : list A) (i : Z) (x : A) :
  0 <= i -> l !! Z.to_nat i = Some x -> getitem l i = Ok x.
Proof.
  intros Hi Hx. unfold getitem.
  destruct (Z.ltb_spec i 0) as [E|E]; [lia|].
  destruct (Z.ltb_spec i 0) as [E'|E']; [lia|]. rewrite Hx. reflexivity.
Qed.

Lemma getitem_Ok {A} (l : list A) (i : Z) :
  0 <= i < len l -> exists x, getitem l i = Ok x /\ l !! Z.to_nat i = Some x.
Proof.
  intros Hi. unfold len in Hi.
  destruct (lookup_lt_is_Some_2 l (Z.to_nat i)) as [x Hx]; [lia|].
  exists x. split; [apply getitem_lookup; [lia|exact Hx] | exact Hx].
Qed.

(** ** Region differ *)

Lemma foldM_pure {A S} (f : S -> A -> result S) (g : S -> A -> S) (l : list A) :
  (forall s a, a ∈ l -> f s a = Ok (g s a)) ->
  forall s, foldM f l s = Ok (foldl g s l).
Proof.
  induction l as [|a l IH]; intros Hf s; simpl; [reflexivity|].
  rewrite Hf by constructor. simpl. apply IH.
  intros s' a' Ha'. apply Hf. now constructor.
Qed.

Lemma foldl_flat_map {A B S} (f : S -> B -> S) (g : A -> list B) (l : list A) (s : S) :
  foldl f s (flat_map g l) = foldl (fun s a => foldl f s (g a)) s l.
Proof.
  revert s; induction l as [|a l IH]; intros s; simpl; [reflexivity|].
  rewrite foldl_app. apply IH.
Qed.

Lemma foldl_map {A B S} (f : S -> B -> S) (h : A -> B) (l : list A) (s : S) :
  foldl f s (map h l) = foldl (fun s a => f s (h a)) s l.
Proof. revert s; induction l as [|a l IH]; intros s; simpl; auto. Qed.

Lemma foldl_ext_in {A S} (f g : S -> A -> S) (l : list A) :
  (forall s a, a ∈ l -> f s a = g s a) -> forall s, foldl f s l = foldl g s l.
Proof.
  induction l as [|a l IH]; intros Hfg s; simpl; [reflexivity|].
  rewrite Hfg by constructor. apply IH. intros s' a' Ha'. apply Hfg. now constructor.
Qed.

Lemma elem_of_loop_offsets (x0 y0 xs ys idx : Z) :
  idx ∈ loop_offsets x0 y0 xs ys ->
  exists dx dy, 0 <= dx < xs /\ 0 <= dy < ys /\ idx = (y0 + dy) * TILE + (x0 + dx).
Proof.
  unfold loop_offsets. rewrite list_elem_of_In, in_flat_map.
  intros (dy & Hdy & Hin). apply in_map_iff in Hin as (dx & <- & Hdx).
  apply list_elem_of_In, elem_of_range in Hdy, Hdx. exists dx, dy. lia.
Qed.

Lemma diff_pixel_score (ref_rgb : list rgb) (cell : list rgba) (idx : Z) (total : Q) (count : Z) :
  0 <= idx < len cell -> idx < len ref_rgb ->
  diff_pixel ref_rgb cell idx (total, count)
  = Ok ((total + pixel_score ref_rgb cell idx)%Q, count + 1).
Proof.
  intros Hc Hr. unfold diff_pixel, pixel_score.
  destruct (getitem_Ok cell idx Hc) as (p & -> & Hp).
  destruct (getitem_Ok ref_rgb idx ltac:(lia)) as (q & Hq & Hq').
  simpl. rewrite (list_lookup_total_correct _ _ _ Hp).
  rewrite (list_lookup_total_correct _ _ _ Hq').
  destruct p as [[[r g] b] a]. simpl.
  destruct (a <? 128); [reflexivity|]. rewrite Hq. reflexivity.
Qed.

Lemma foldl_add_score (ref_rgb : list rgb) (cell : list rgba) (l : list Z) (total : Q) (count : Z) :
  foldl (add_score ref_rgb cell) (total, count) l
  = (foldl Qplus total (map (pixel_score ref_rgb cell) l), count + len l).
Proof.
  revert total count; induction l as [|i l IH]; intros total count.
  - simpl. f_equal. unfold len. simpl. lia.
  - simpl. unfold add_score at 2. simpl. rewrite IH. f_equal. unfold len. simpl. lia.
Qed.

(** Inside the cell the double loop adds up the pixel scores of the
    rectangle and counts its pixels. *)
Lemma region_loop_sum (ref_rgb : list rgb) (cell : list rgba) (x0 y0 xs ys : Z) :
  len cell = 256 -> len ref_rgb = 256 ->
  0 <= x0 -> 0 <= y0 -> x0 + xs <= TILE -> y0 + ys <= TILE ->
  region_loop ref_rgb cell x0 y0 xs ys
  = Ok (Qsum (map (pixel_score ref_rgb cell) (loop_offsets x0 y0 xs ys)),
        len (loop_offsets x0 y0 xs ys)).
Proof.
  intros Hc Hr Hx Hy Hxs Hys. unfold region_loop, TILE in *.
  rewrite (foldM_pure _
    (fun acc dy => foldl (fun acc dx =>
       add_score ref_rgb cell acc ((y0 + dy) * 16 + (x0 + dx))) acc (range 0 xs))).
  - f_equal. unfold loop_offsets, Qsum, TILE.
    rewrite <- (Z.add_0_l (len _)), <- foldl_add_score, foldl_flat_map.
    apply foldl_ext_in. intros acc dy _. now rewrite foldl_map.
  - intros acc dy Hdy. apply elem_of_range in Hdy.
    apply foldM_pure. intros [t c] dx Hdx. apply elem_of_range in Hdx.
    apply diff_pixel_score; lia.
Qed.

Lemma len_get_cell (pixels : image) (c r : Z) : len (get_cell pixels c r) = 256.
Proof. reflexivity. Qed.

Lemma len_ref_of (pixels : image) : len (ref_of pixels) = 256.
Proof. reflexivity. Qed.

Lemma quadrant_diff_score (ref_rgb : list rgb) (cell : list rgba) (qx qy : Z) :
  len cell = 256 -> len ref_rgb = 256 ->
  qx = 0 \/ qx = HALF -> qy = 0 \/ qy = HALF ->
  quadrant_diff ref_rgb cell qx qy = Ok (quadrant_score ref_rgb cell qx qy).
Proof.
  intros Hc Hr Hx Hy. unfold quadrant_diff, quadrant_score.
  rewrite region_loop_sum by (unfold TILE, HALF in *; lia).
  reflexivity.
Qed.

Lemma sub_region_diff_score (ref_rgb : list rgb) (cell : list rgba) (r : region)
    (x y w h : Z) :
  len cell = 256 -> len ref_rgb = 256 -> region_box r = (x, y, w, h) ->
  sub_region_diff ref_rgb cell x y w h = Ok (region_score ref_rgb cell r).
Proof.
  intros Hc Hr Hbox. unfold region_score, sub_region_diff. rewrite Hbox.
  destruct r; injection Hbox as <- <- <- <-;
    (rewrite region_loop_sum by (unfold TILE; vm_compute; intuition discriminate));
    reflexivity.
Qed.

Lemma cell_regions_scores (ref_rgb : list rgb) (cell : list rgba) :
  len cell = 256 -> len ref_rgb = 256 ->
  cell_regions ref_rgb cell = Ok (edge_scores ref_rgb cell, corner_scores ref_rgb cell).
Proof.
  intros Hc Hr. unfold cell_regions.
  rewrite (sub_region_diff_score ref_rgb cell North) by auto.
  rewrite (sub_region_diff_score ref_rgb cell South) by auto.
  rewrite (sub_region_diff_score ref_rgb cell West) by auto.
  rewrite (sub_region_diff_score ref_rgb cell East) by auto.
  rewrite (sub_region_diff_score ref_rgb cell NorthWest) by auto.
  rewrite (sub_region_diff_score ref_rgb cell NorthEast) by auto.
  rewrite (sub_region_diff_score ref_rgb cell SouthWest) by auto.
  rewrite (sub_region_diff_score ref_rgb cell SouthEast) by auto.
  reflexivity.
Qed.

(** ** The passes in closed form *)

Arguments get_cell : simpl never.
Arguments transparent : simpl never.
Arguments region_score : simpl never.
Arguments quadrant_score : simpl never.

Lemma mapM_pure {A B} (f : A -> result B) (g : A -> B) (l : list A) :
  (forall a, a ∈ l -> f a = Ok (g a)) -> mapM f l = Ok (map g l).
Proof.
  induction l as [|a l IH]; intros Hf; simpl; [reflexivity|].
  rewrite Hf by constructor. simpl. rewrite IH; [reflexivity|].
  intros a' Ha'. apply Hf. now constructor.
Qed.

Lemma foldM_collect {A B C} (f : list B * list C -> A -> result (list B * list C))
    (g : A -> B) (h : A -> list C) (l : list A) :
  (forall bs cs a, f (bs, cs) a = Ok (bs ++ [g a], cs ++ h a)) ->
  forall bs cs, foldM f l (bs, cs) = Ok (bs ++ map g l, cs ++ flat_map h l).
Proof.
  intros Hf. induction l as [|a l IH]; intros bs cs; simpl.
  - now rewrite !app_nil_r.
  - rewrite Hf. simpl. rewrite IH, <- !app_assoc. reflexivity.
Qed.

Lemma flat_map_filter {A B} (p : A -> bool) (h : A -> list B) (l : list A) :
  flat_map h (List.filter p l) = flat_map (fun a => if p a then h a else []) l.
Proof.
  induction l as [|a l IH]; simpl; [reflexivity|].
  destruct (p a); simpl; now rewrite IH.
Qed.

Lemma first_pass_eq (pixels : image) :
  first_pass pixels (ref_of pixels)
  = Ok (map (first_entry pixels) cell_coords, quadrant_pool pixels).
Proof.
  unfold first_pass, quadrant_pool, used_cells. rewrite flat_map_filter.
  apply (foldM_collect _ (first_entry pixels)
           (fun cr => if negb (transparent (get_cell pixels cr.1 cr.2))
                      then quad_list (quadrant_scores pixels cr) else [])).
  intros bs cs [c r]. unfold first_entry. simpl fst. simpl snd.
  destruct (transparent (get_cell pixels c r)); simpl negb; cbv iota.
  - now rewrite app_nil_r.
  - pose proof (len_get_cell pixels c r) as Hc.
    pose proof (len_ref_of pixels) as Hr.
    rewrite !quadrant_diff_score by auto. reflexivity.
Qed.

Lemma second_pass_eq (pixels : image) :
  second_pass pixels (ref_of pixels) (map (first_entry pixels) cell_coords)
  = Ok (map (scored_entry pixels) cell_coords).
Proof.
  unfold second_pass.
  rewrite (mapM_pure _ (fun e =>
    if is_unused e then e
    else mk_entry (col e) (row e) (mask e) (qdiffs e)
           (Some (edge_scores (ref_of pixels) (get_cell pixels (col e) (row e))))
           (Some (corner_scores (ref_of pixels) (get_cell pixels (col e) (row e)))))).
  - f_equal. rewrite map_map. apply map_ext. intros [c r].
    unfold first_entry, scored_entry. simpl fst. simpl snd.
    destruct (transparent (get_cell pixels c r)); reflexivity.
  - intros e _. destruct (is_unused e); [reflexivity|].
    rewrite cell_regions_scores by apply len_get_cell || apply len_ref_of.
    reflexivity.
Qed.

Lemma gather_acc (pixels : image) (l : list (Z * Z)) (es cs : list Q) :
  foldM gather_step (map (scored_entry pixels) l) (es, cs)
  = Ok (es ++ flat_map (fun cr =>
                 if negb (transparent (get_cell pixels cr.1 cr.2))
                 then quad_list (edge_scores (ref_of pixels) (get_cell pixels cr.1 cr.2))
                 else []) l,
        cs ++ flat_map (fun cr =>
                 if negb (transparent (get_cell pixels cr.1 cr.2))
                 then quad_list (corner_scores (ref_of pixels) (get_cell pixels cr.1 cr.2))
                 else []) l).
Proof.
  revert es cs. induction l as [|[c r] l IH]; intros es cs.
  - simpl. now rewrite !app_nil_r.
  - rewrite map_cons. cbn [foldM flat_map fst snd].
    remember (map (scored_entry pixels) l) as rest eqn:Hrest.
    unfold gather_step at 1, scored_entry. cbn [fst snd].
    destruct (transparent (get_cell pixels c r));
      cbn [is_unused mask edges corners negb bind]; subst rest.
    + change (-1 =? -1) with true. cbv iota. cbn [bind]. apply IH.
    + rewrite IH, <- !app_assoc. reflexivity.
Qed.

Lemma gather_eq (pixels : image) :
  gather (map (scored_entry pixels) cell_coords)
  = Ok (edge_pool pixels, corner_pool pixels).
Proof.
  unfold gather, edge_pool, corner_pool, used_cells. rewrite !flat_map_filter.
  apply (gather_acc pixels cell_coords [] []).
Qed.

Lemma classify_eq (pixels : image) (et ct : Q) :
  classify et ct (map (scored_entry pixels) cell_coords)
  = Ok (map (final_entry pixels et ct) cell_coords).
Proof.
  unfold classify.
  rewrite (mapM_pure _ (fun e =>
    if is_unused e then e
    else match edges e, corners e with
         | Some es, Some cs =>
             mk_entry (col e) (row e) (Some (classify_mask es cs et ct))
                      (qdiffs e) (edges e) (corners e)
         | _, _ => e
         end)).
  - f_equal. rewrite map_map. apply map_ext. intros [c r].
    unfold scored_entry, final_entry. simpl fst. simpl snd.
    destruct (transparent (get_cell pixels c r)); reflexivity.
  - intros e He. apply list_elem_of_fmap in He as (cr & -> & _).
    unfold scored_entry. destruct (transparent (get_cell pixels cr.1 cr.2)); reflexivity.
Qed.

(** ** Gap scan and threshold discovery *)

Lemma getitem_item (l : list Q) (i : Z) :
  0 <= i < len l -> getitem l i = Ok (item l i).
Proof.
  intros Hi. unfold item. destruct (getitem_Ok l i Hi) as (x & -> & Hx).
  f_equal. symmetry. now apply nth_lookup_Some.
Qed.

Lemma gap_scan_prefix (l : list Q) (k : nat) :
  1 + Z.of_nat k <= Z.max 1 (len l) ->
  exists st,
    foldM (fun '(max_gap, gap_idx) i =>
             let! hi := getitem l i in
             let! lo := getitem l (i - 1) in
             let gap := (hi - lo)%Q in
             if Qltb max_gap gap then Ok (gap, i) else Ok (max_gap, gap_idx))
          (range 1 (1 + Z.of_nat k)) (0%Q, 0) = Ok st
    /\ scan_inv l (1 + Z.of_nat k) st.
Proof.
  induction k as [|k IH]; intros Hk.
  - exists (0%Q, 0). split; [reflexivity|]. left. repeat split; intros; lia.
  - destruct IH as ([mg g] & Hrun & Hinv); [lia|].
    replace (1 + Z.of_nat (S k)) with ((1 + Z.of_nat k) + 1) by lia.
    rewrite range_snoc by lia. rewrite foldM_app, Hrun. cbn [bind foldM].
    set (n := 1 + Z.of_nat k) in *.
    rewrite (getitem_item l n), (getitem_item l (n - 1)) by lia. cbn [bind].
    fold (gap l n).
    destruct (Qltb mg (gap l n)) eqn:E; eexists; (split; [reflexivity|]).
    + apply Qltb_lt in E. right. repeat split; try lia.
      * destruct Hinv as [(-> & -> & H0) | (Hg & -> & Hpos & _)]; lra.
      * intros j Hj. destruct (Z.eq_dec j n) as [-> | Hne]; [lra|].
        destruct Hinv as [(-> & -> & H0) | (Hg & -> & Hpos & Hall & _)].
        -- specialize (H0 j ltac:(lia)). lra.
        -- specialize (Hall j ltac:(lia)). lra.
      * intros j Hj.
        destruct Hinv as [(-> & -> & H0) | (Hg & -> & Hpos & Hall & _)].
        -- specialize (H0 j ltac:(lia)). lra.
        -- specialize (Hall j ltac:(lia)). lra.
    + apply Qltb_ge in E.
      destruct Hinv as [(-> & -> & H0) | (Hg & -> & Hpos & Hall & Hfirst)].
      * left. repeat split; try lia. intros j Hj.
        destruct (Z.eq_dec j n) as [-> | Hne]; [lra | apply H0; lia].
      * right. repeat split; try lia; auto. intros j Hj.
        destruct (Z.eq_dec j n) as [-> | Hne]; [lra | apply Hall; lia].
Qed.

(** The scan never fails; it ends on the first largest gap, or on index 0
    with [max_gap = 0] when no gap is positive. *)
Lemma gap_scan_spec (l : list Q) :
  exists max_gap gap_idx,
    gap_scan l = Ok (max_gap, gap_idx) /\
    ((gap_idx = 0 /\ no_positive_gap l) \/ first_largest_gap l gap_idx).
Proof.
  destruct (gap_scan_prefix l (Z.to_nat (len l - 1))) as ([mg g] & Hrun & Hinv); [lia|].
  exists mg, g. unfold gap_scan.
  destruct (Z.le_gt_cases (len l) 1) as [Hshort | Hlong].
  - rewrite range_nil in * by lia.
    injection Hrun as <- <-. split; [reflexivity|]. left. split; [reflexivity|].
    intros j Hj. lia.
  - replace (1 + Z.of_nat (Z.to_nat (len l - 1))) with (len l) in * by lia.
    split; [exact Hrun|].
    destruct Hinv as [(-> & _ & H0) | (Hg & _ & Hpos & Hall & Hfirst)].
    + left. split; [reflexivity | exact H0].
    + right. repeat split; auto; lia.
Qed.

(** ** [sorted] *)

Lemma insert_sorted_perm {A} (lt : A -> A -> bool) (x : A) (l : list A) :
  Permutation (x :: l) (insert_sorted lt x l).
Proof.
  induction l as [|y l IH]; simpl; [reflexivity|].
  destruct (lt y x); [|reflexivity].
  rewrite perm_swap. now constructor.
Qed.

Lemma sorted_by_perm {A} (lt : A -> A -> bool) (l : list A) :
  Permutation l (sorted_by lt l).
Proof.
  induction l as [|x l IH]; simpl; [reflexivity|].
  rewrite <- insert_sorted_perm. now constructor.
Qed.

Section SortedBy.

Context {A : Type} (lt : A -> A -> bool) (R : A -> A -> Prop).
Hypothesis R_trans : forall x y z, R x y -> R y z -> R x z.
Hypothesis lt_R : forall x y, lt x y = true -> R x y.
Hypothesis nlt_R : forall x y, lt x y = false -> R y x.

Lemma insert_sorted_sorted (x : A) (l : list A) :
  StronglySorted R l -> StronglySorted R (insert_sorted lt x l).
Proof.
  induction 1 as [|y l Hl IH Hy]; simpl.
  - repeat constructor.
  - destruct (lt y x) eqn:E.
    + constructor; [exact IH|].
      rewrite <- insert_sorted_perm. constructor; [now apply lt_R | exact Hy].
    + apply nlt_R in E. constructor; [now constructor|].
      constructor; [exact E|].
      eapply Forall_impl; [exact Hy|]. intros z Hz. now apply R_trans with y.
Qed.

Lemma sorted_by_sorted (l : list A) : StronglySorted R (sorted_by lt l).
Proof.
  induction l as [|x l IH]; simpl; [constructor|].
  now apply insert_sorted_sorted.
Qed.

End SortedBy.

Lemma sorted_perm (l : list Q) : Permutation l (sorted l).
Proof. apply sorted_by_perm. Qed.

Lemma sorted_ascending (l : list Q) : StronglySorted Qle (sorted l).
Proof.
  apply sorted_by_sorted.
  - intros x y z. apply Qle_trans.
  - intros x y H. apply Qltb_lt in H. now apply Qlt_le_weak.
  - intros x y H. now apply Qltb_ge in H.
Qed.

Lemma len_sorted (l : list Q) : len (sorted l) = len l.
Proof. unfold len. now rewrite <- (Permutation_length (sorted_perm l)). Qed.

Lemma sorted_nil_inv (l : list Q) : sorted l = [] -> l = [].
Proof.
  intros H. apply Permutation_nil. rewrite <- H. symmetry. apply sorted_perm.
Qed.

(** ** [find_threshold] *)

Lemma getitem_minus_one (l : list Q) :
  0 < len l -> getitem l (-1) = Ok (item l (len l - 1)).
Proof.
  intros Hl. rewrite <- (getitem_item l (len l - 1)) by lia.
  unfold getitem. simpl (-1 <? 0).
  replace (len l + -1) with (len l - 1) by lia.
  destruct (Z.ltb_spec (len l - 1) 0); [lia|]. reflexivity.
Qed.

(** The three outcomes of threshold discovery. *)
Lemma find_threshold_spec (diffs : list Q) :
  (diffs = [] /\ find_threshold diffs = Raise IndexError)
  \/ (diffs <> [] /\ no_positive_gap (sorted diffs) /\
      find_threshold diffs
      = Ok (item (sorted diffs) (len (sorted diffs) - 1) / 2)%Q)
  \/ (exists g, first_largest_gap (sorted diffs) g /\
        find_threshold diffs
        = Ok ((item (sorted diffs) (g - 1) + item (sorted diffs) g) / 2)%Q).
Proof.
  destruct diffs as [|d diffs'] eqn:Ed; [left; split; reflexivity|].
  rewrite <- Ed. right.
  assert (Hlen : 0 < len (sorted diffs))
    by (rewrite len_sorted, Ed; unfold len; simpl; lia).
  unfold find_threshold.
  destruct (gap_scan_spec (sorted diffs)) as (mg & g & -> & [(-> & H0) | Hg]).
  - left. split; [rewrite Ed; discriminate|]. split; [exact H0|].
    cbn [bind]. change (0 <? 0) with false. cbv iota. change (0 - 1) with (-1).
    rewrite getitem_minus_one by exact Hlen.
    rewrite getitem_item by lia.
    destruct (sorted diffs) as [|s0 ss]; [unfold len in Hlen; simpl in Hlen; lia|].
    reflexivity.
  - right. exists g. split; [exact Hg|].
    destruct Hg as (Hrange & _). cbn [bind].
    destruct (Z.ltb_spec 0 g); [|lia].
    rewrite !(getitem_item (sorted diffs) (g - 1)) by lia.
    rewrite !(getitem_item (sorted diffs) g) by lia. reflexivity.
Qed.

Lemma find_threshold_total (diffs : list Q) :
  diffs <> [] -> exists t, find_threshold diffs = Ok t.
Proof.
  intros Hne.
  destruct (find_threshold_spec diffs) as [(-> & _) | [(_ & _ & ->) | (g & _ & ->)]];
    [congruence | eauto | eauto].
Qed.

(** ** The quadrant threshold and its diagnostics *)

Lemma py_min_Ok (l : list Q) : l <> [] -> exists m, py_min l = Ok m.
Proof. destruct l; [congruence | simpl; eauto]. Qed.

Lemma py_max_Ok (l : list Q) : l <> [] -> exists m, py_max l = Ok m.
Proof. destruct l; [congruence | simpl; eauto]. Qed.

(** The quadrant pass stops with [ValueError] exactly when no quadrant
    difference is positive. *)
Lemma auto_threshold_spec (all_qdiffs : list Q) :
  (List.filter (Qltb 0) all_qdiffs = [] /\ auto_threshold all_qdiffs = Raise ValueError)
  \/ (List.filter (Qltb 0) all_qdiffs <> [] /\ exists t, auto_threshold all_qdiffs = Ok t).
Proof.
  unfold auto_threshold.
  destruct (List.filter (Qltb 0) all_qdiffs) as [|d ds] eqn:Ef; [left; split; reflexivity|].
  right. split; [discriminate|]. rewrite <- Ef.
  set (sd := sorted (List.filter (Qltb 0) all_qdiffs)).
  assert (Hne : sd <> []).
  { intros Es. apply sorted_nil_inv in Es. congruence. }
  assert (Hlen : 0 < len sd).
  { destruct sd; [congruence | unfold len; simpl; lia]. }
  destruct (py_min_Ok sd Hne) as (lo & Hlo). destruct (py_max_Ok sd Hne) as (hi & Hhi).
  rewrite Hlo, Hhi.
  destruct (gap_scan_spec sd) as (mg & g & Hscan & Hg).
  assert (Hbody : exists t,
    match sd with
    | _ :: _ =>
        let! (_, gap_idx) := gap_scan sd in
        if 0 <? gap_idx then
          let! lo := getitem sd (gap_idx - 1) in
          let! hi := getitem sd gap_idx in
          Ok (((lo + hi) / 2)%Q, gap_idx)
        else
          let! d0 := getitem sd 0 in
          Ok ((d0 / 2)%Q, gap_idx)
    | [] => Ok (100%Q, 0)
    end = Ok (t, g)).
  { destruct sd as [|s0 ss] eqn:Es; [congruence|]. rewrite <- Es in *.
    rewrite Hscan. cbn [bind].
    destruct Hg as [(-> & _) | (Hrange & _)].
    - change (0 <? 0) with false. cbv iota.
      rewrite getitem_item by lia. eexists. reflexivity.
    - destruct (Z.ltb_spec 0 g); [|lia].
      rewrite (getitem_item sd (g - 1)), (getitem_item sd g) by lia.
      eexists. reflexivity. }
  destruct Hbody as (t & ->). cbn [bind].
  exists t.
  destruct Hg as [(-> & _) | (Hrange & _)].
  - change (0 - 1) with (-1). rewrite getitem_minus_one by exact Hlen.
    rewrite getitem_item by lia. reflexivity.
  - rewrite (getitem_item sd (g - 1)), (getitem_item sd g) by lia. reflexivity.
Qed.

(** ** Grid and validator *)

Lemma cell_coords_lookup (c r : Z) :
  0 <= c < COLS -> 0 <= r < ROWS ->
  cell_coords !! Z.to_nat (r * COLS + c) = Some (c, r).
Proof.
  unfold COLS, ROWS. intros Hc Hr.
  assert (r = 0 \/ r = 1 \/ r = 2 \/ r = 3) as Hr' by lia.
  assert (c = 0 \/ c = 1 \/ c = 2 \/ c = 3 \/ c = 4 \/ c = 5 \/ c = 6 \/ c = 7
          \/ c = 8 \/ c = 9 \/ c = 10 \/ c = 11) as Hc' by lia.
  clear Hc Hr.
  repeat (destruct Hr' as [-> | Hr']); try subst r;
    repeat (destruct Hc' as [-> | Hc']); try subst c; reflexivity.
Qed.

Lemma mask_final_entry (pixels : image) (et ct : Q) (cr : Z * Z) :
  mask (final_entry pixels et ct cr) = Some (final_mask pixels et ct cr).
Proof.
  unfold final_entry, final_mask.
  destruct (transparent (get_cell pixels cr.1 cr.2)); reflexivity.
Qed.

Lemma print_grid_eq (F : Z * Z -> entry) (M : Z * Z -> Z) :
  (forall cr, mask (F cr) = Some (M cr)) ->
  print_grid (map F cell_coords)
  = Ok (map (fun r => map (fun c => if M (c, r) <? 0 then None else Some (M (c, r)))
                          (range 0 COLS))
            (range 0 ROWS)).
Proof.
  intros HM. unfold print_grid.
  apply mapM_pure. intros r Hr. apply elem_of_range in Hr.
  apply mapM_pure. intros c Hc. apply elem_of_range in Hc.
  rewrite (getitem_lookup _ _ (F (c, r))).
  - cbn [bind]. unfold int_mask. rewrite HM. reflexivity.
  - unfold COLS in *. lia.
  - rewrite list_lookup_fmap, cell_coords_lookup by lia. reflexivity.
Qed.

Lemma used_masks_acc (results : list entry) (acc masks : list Z) :
  foldM (fun masks e =>
           let! m := int_mask e in
           Ok (if 0 <=? m then masks ++ [m] else masks))
        results acc = Ok masks ->
  Forall (fun e => is_Some (mask e)) results /\ masks = acc ++ observed results.
Proof.
  revert acc. induction results as [|e l IH]; intros acc; simpl.
  - intros [= <-]. split; [constructor|]. unfold observed. simpl. now rewrite app_nil_r.
  - unfold int_mask at 1. destruct (mask e) as [m|] eqn:Em; [|discriminate].
    cbn [bind]. intros H. apply IH in H as (Hall & ->).
    split; [constructor; [rewrite Em; eauto | exact Hall]|].
    unfold observed. simpl. rewrite Em. simpl.
    destruct (0 <=? m); [rewrite <- app_assoc|]; reflexivity.
Qed.

Lemma used_masks_inv (results : list entry) (masks : list Z) :
  used_masks results = Ok masks ->
  Forall (fun e => is_Some (mask e)) results /\ masks = observed results.
Proof. intros H. now apply used_masks_acc in H. Qed.

Lemma used_masks_Ok (results : list entry) :
  Forall (fun e => is_Some (mask e)) results ->
  used_masks results = Ok (observed results).
Proof.
  unfold used_masks. intros Hall.
  enough (forall acc, foldM (fun masks e =>
           let! m := int_mask e in
           Ok (if 0 <=? m then masks ++ [m] else masks))
        results acc = Ok (acc ++ observed results)) as H by apply (H []).
  induction Hall as [|e l [m Hm] Hl IH]; intros acc; simpl.
  - unfold observed. simpl. now rewrite app_nil_r.
  - unfold int_mask at 1. rewrite Hm. cbn [bind]. rewrite IH.
    unfold observed. simpl. rewrite Hm. simpl.
    destruct (0 <=? m); [rewrite <- app_assoc|]; reflexivity.
Qed.

Lemma keyed_Ok (results : list entry) :
  Forall (fun e => is_Some (mask e)) results ->
  mapM (fun e => let! m := int_mask e in Ok (m, e)) results
  = Ok (map (fun e => (default 0 (mask e), e)) results).
Proof.
  intros Hall. apply mapM_pure. intros e He.
  rewrite Forall_forall in Hall. destruct (Hall e He) as [m Hm].
  unfold int_mask. rewrite Hm. reflexivity.
Qed.

Lemma Counter_snoc (masks : list Z) (x : Z) :
  Counter (masks ++ [x])
  = <[x := default 0 (Counter masks !! x) + 1]> (Counter masks).
Proof. unfold Counter. now rewrite foldl_app. Qed.

Lemma occurrences_snoc (m x : Z) (masks : list Z) :
  occurrences m (masks ++ [x])
  = occurrences m masks + (if m =? x then 1 else 0).
Proof.
  unfold occurrences, len. rewrite List.filter_app, length_app. simpl.
  destruct (m =? x); simpl; lia.
Qed.

Lemma occurrences_nonneg (m : Z) (masks : list Z) : 0 <= occurrences m masks.
Proof. unfold occurrences, len. lia. Qed.

Lemma Counter_lookup (masks : list Z) (m : Z) :
  Counter masks !! m
  = if 0 <? occurrences m masks then Some (occurrences m masks) else None.
Proof.
  induction masks as [|x l IH] using rev_ind; [reflexivity|].
  rewrite Counter_snoc, occurrences_snoc.
  pose proof (occurrences_nonneg m l) as Hnn.
  destruct (Z.eqb_spec m x) as [-> | Hne].
  - rewrite lookup_insert_eq, IH.
    destruct (Z.ltb_spec 0 (occurrences x l));
      destruct (Z.ltb_spec 0 (occurrences x l + 1)); try lia; simpl; f_equal; lia.
  - rewrite lookup_insert_ne by congruence. rewrite IH, Z.add_0_r. reflexivity.
Qed.

Lemma occurrences_pos (m : Z) (masks : list Z) :
  0 < occurrences m masks <-> m ∈ masks.
Proof.
  unfold occurrences, len. rewrite list_elem_of_In. split.
  - intros H. destruct (List.filter (Z.eqb m) masks) as [|y ys] eqn:E; [simpl in H; lia|].
    assert (In y (List.filter (Z.eqb m) masks)) as Hy by (rewrite E; now left).
    apply filter_In in Hy as (Hy & Heq). apply Z.eqb_eq in Heq. now subst.
  - intros H.
    assert (In m (List.filter (Z.eqb m) masks)) as Hm
      by (apply filter_In; split; [exact H | apply Z.eqb_refl]).
    destruct (List.filter (Z.eqb m) masks); [destruct Hm | simpl; lia].
Qed.

Lemma elem_of_observed (results : list entry) (m : Z) :
  m ∈ observed results <-> 0 <= m /\ exists e, e ∈ results /\ mask e = Some m.
Proof.
  unfold observed. rewrite list_elem_of_In, filter_In, <- list_elem_of_In, list_elem_of_omap.
  rewrite Z.leb_le. tauto.
Qed.

(** What [validate] returns when it returns. *)
Lemma validate_inv (results : list entry) (v : validation) :
  validate results = Ok v ->
  Forall (fun e => is_Some (mask e)) results /\
  unique v = Z.of_nat (size (list_to_set (C := gset Z) (observed results))) /\
  missing v = expected_47 ∖ list_to_set (observed results) /\
  extra v = list_to_set (observed results) ∖ expected_47 /\
  duplicated v = filter (fun '(m, c) => 1 < c /\ 0 <= m) (Counter (observed results)) /\
  perfect v = bool_decide (missing v = ∅) && bool_decide (extra v = ∅)
              && bool_decide (duplicated v = ∅) /\
  (if perfect v then exists tbl, emit_mapping results = Ok tbl /\ mapping v = Some tbl
   else mapping v = None).
Proof.
  unfold validate. intros H.
  apply bind_Ok in H as (masks & Hmasks & H).
  apply used_masks_inv in Hmasks as (Hall & ->).
  apply bind_Ok in H as (mp & Hmp & [= <-]). simpl.
  repeat (split; [auto; fail|]).
  destruct (_ && _).
  - apply bind_Ok in Hmp as (tbl & Htbl & [= <-]). eauto.
  - now injection Hmp as <-.
Qed.

Lemma filter_omap_keyed (results : list entry) :
  Forall (fun e => is_Some (mask e)) results ->
  map (fun '(m, e) => (m, col e, row e))
      (List.filter (fun '(m, _) => 0 <=? m)
                   (map (fun e => (default 0 (mask e), e)) results))
  = triples results.
Proof.
  unfold triples. induction 1 as [|e l [m Hm] Hl IH]; [reflexivity|].
  simpl. rewrite Hm. simpl. destruct (0 <=? m); simpl; now rewrite IH.
Qed.

Lemma StronglySorted_filter {A} (R : A -> A -> Prop) (p : A -> bool) (l : list A) :
  StronglySorted R l -> StronglySorted R (List.filter p l).
Proof.
  induction 1 as [|x l Hl IH Hx]; simpl; [constructor|].
  destruct (p x); [|exact IH]. constructor; [exact IH|].
  rewrite Forall_forall in Hx |- *. intros y Hy.
  apply Hx. apply list_elem_of_In in Hy. apply filter_In in Hy as (Hy & _).
  now apply list_elem_of_In.
Qed.

Lemma StronglySorted_map {A B} (R : A -> A -> Prop) (S : B -> B -> Prop) (f : A -> B)
    (l : list A) :
  (forall x y, R x y -> S (f x) (f y)) ->
  StronglySorted R l -> StronglySorted S (map f l).
Proof.
  intros HRS. induction 1 as [|x l Hl IH Hx]; simpl; constructor; [exact IH|].
  rewrite Forall_forall in Hx. apply Forall_forall. intros y Hy.
  apply list_elem_of_fmap in Hy as (z & -> & Hz). auto.
Qed.

Lemma Permutation_filter {A} (p : A -> bool) (l l' : list A) :
  Permutation l l' -> Permutation (List.filter p l) (List.filter p l').
Proof.
  induction 1 as [|x l l' Hp IH|x y l|l l' l'' H1 IH1 H2 IH2]; simpl.
  - reflexivity.
  - destruct (p x); [now constructor | exact IH].
  - destruct (p x), (p y); try reflexivity. apply perm_swap.
  - now transitivity (List.filter p l').
Qed.

(** The emitted table: ascending by mask, and exactly the used entries. *)
Lemma emit_mapping_spec (results : list entry) (tbl : list (Z * Z * Z)) :
  emit_mapping results = Ok tbl ->
  Forall (fun e => is_Some (mask e)) results ->
  StronglySorted mask_le tbl /\ Permutation tbl (triples results).
Proof.
  unfold emit_mapping. intros H Hall. rewrite keyed_Ok in H by exact Hall.
  cbn [bind] in H. injection H as <-. split.
  - apply (StronglySorted_map (fun a b => a.1 <= b.1)); [now intros [m e] [m' e']|].
    apply StronglySorted_filter, sorted_by_sorted.
    + intros x y z. apply Z.le_trans.
    + intros x y Hlt. apply Z.ltb_lt in Hlt. lia.
    + intros x y Hlt. apply Z.ltb_ge in Hlt. lia.
  - rewrite <- filter_omap_keyed by exact Hall.
    apply Permutation_map, Permutation_filter. symmetry. apply sorted_by_perm.
Qed.

Lemma validate_Ok (results : list entry) :
  Forall (fun e => is_Some (mask e)) results -> exists v, validate results = Ok v.
Proof.
  intros Hall. unfold validate. rewrite used_masks_Ok by exact Hall. cbn [bind].
  destruct (_ && _); cbn [bind]; [|eauto].
  unfold emit_mapping. rewrite keyed_Ok by exact Hall. cbn [bind]. eauto.
Qed.

(** ** The whole analysis in closed form *)

Lemma analyze_sheet_eq (pixels : image) :
  analyze_sheet pixels
  = (let! threshold := auto_threshold (quadrant_pool pixels) in
     let! et := find_threshold (edge_pool pixels) in
     let! ct := find_threshold (corner_pool pixels) in
     let results := map (final_entry pixels et ct) cell_coords in
     let! grid := print_grid results in
     let! v := validate results in
     Ok (results, mk_report (find_unused pixels) threshold et ct grid v)).
Proof.
  unfold analyze_sheet. fold (ref_of pixels).
  rewrite first_pass_eq. cbn [bind].
  destruct (auto_threshold (quadrant_pool pixels)) as [t|e]; [|reflexivity].
  cbn [bind]. rewrite second_pass_eq. cbn [bind]. rewrite gather_eq. cbn [bind].
  destruct (find_threshold (edge_pool pixels)) as [et|e]; [|reflexivity].
  cbn [bind].
  destruct (find_threshold (corner_pool pixels)) as [ct|e]; [|reflexivity].
  cbn [bind]. rewrite classify_eq. reflexivity.
Qed.

Lemma final_masks_Some (pixels : image) (et ct : Q) :
  Forall (fun e => is_Some (mask e)) (map (final_entry pixels et ct) cell_coords).
Proof.
  apply Forall_forall. intros e He. apply list_elem_of_fmap in He as (cr & -> & _).
  rewrite mask_final_entry. eauto.
Qed.

(** What a completed analysis returned. *)
Lemma analyze_sheet_inv (pixels : image) (results : list entry) (rep : report) :
  analyze_sheet pixels = Ok (results, rep) ->
  results = map (final_entry pixels (edge_thresh rep) (corner_thresh rep)) cell_coords /\
  unused rep = find_unused pixels /\
  auto_threshold (quadrant_pool pixels) = Ok (threshold rep) /\
  find_threshold (edge_pool pixels) = Ok (edge_thresh rep) /\
  find_threshold (corner_pool pixels) = Ok (corner_thresh rep) /\
  print_grid results = Ok (grid rep) /\
  validate results = Ok (validated rep).
Proof.
  rewrite analyze_sheet_eq. intros H.
  apply bind_Ok in H as (t & Ht & H).
  apply bind_Ok in H as (et & Het & H).
  apply bind_Ok in H as (ct & Hct & H). cbv zeta in H.
  apply bind_Ok in H as (g & Hg & H).
  apply bind_Ok in H as (v & Hv & [= <- <-]). simpl. auto 10.
Qed.

Lemma used_cells_pools (pixels : image) :
  quadrant_pool pixels <> [] -> edge_pool pixels <> [] /\ corner_pool pixels <> [].
Proof.
  unfold quadrant_pool, edge_pool, corner_pool.
  destruct (used_cells pixels) as [|cr l]; [simpl; congruence|]. intros _.
  split; simpl; discriminate.
Qed.

(** The analysis stops only on the diagnostic line of the quadrant pass,
    and does so exactly when no quadrant difference is positive. *)
Lemma analyze_sheet_total (pixels : image) :
  (List.filter (Qltb 0) (quadrant_pool pixels) = [] /\
   analyze_sheet pixels = Raise ValueError)
  \/ (List.filter (Qltb 0) (quadrant_pool pixels) <> [] /\
      exists results rep, analyze_sheet pixels = Ok (results, rep)).
Proof.
  rewrite analyze_sheet_eq.
  destruct (auto_threshold_spec (quadrant_pool pixels)) as [(Hnil & ->) | (Hne & t & ->)].
  - left. split; [exact Hnil | reflexivity].
  - right. split; [exact Hne|]. cbn [bind].
    assert (quadrant_pool pixels <> []) as Hq
      by (intros E; rewrite E in Hne; now apply Hne).
    apply used_cells_pools in Hq as (He & Hc).
    destruct (find_threshold_total _ He) as (et & ->).
    destruct (find_threshold_total _ Hc) as (ct & ->). cbn [bind]. cbv zeta.
    rewrite (print_grid_eq _ (final_mask pixels et ct))
      by (intros cr; apply mask_final_entry).
    cbn [bind].
    destruct (validate_Ok _ (final_masks_Some pixels et ct)) as (v & ->).
    cbn [bind]. eauto.
Qed.

(** ** Mask classifier *)

Lemma classify_mask_bits (es cs : quad) (et ct : Q) :
  exists n w e s nw ne sw se : bool,
    classify_mask es cs et ct
    = Z.b2z n + 2 * Z.b2z w + 4 * Z.b2z e + 8 * Z.b2z s
      + 16 * Z.b2z (n && w && nw) + 32 * Z.b2z (n && e && ne)
      + 64 * Z.b2z (s && w && sw) + 128 * Z.b2z (s && e && se).
Proof.
  destruct es as [[[n_diff w_diff] e_diff] s_diff].
  destruct cs as [[[nw_diff ne_diff] sw_diff] se_diff].
  exists (Qltb n_diff et), (Qltb w_diff et), (Qltb e_diff et), (Qltb s_diff et),
         (Qltb nw_diff ct), (Qltb ne_diff ct), (Qltb sw_diff ct), (Qltb se_diff ct).
  unfold classify_mask.
  destruct (Qltb n_diff et), (Qltb w_diff et), (Qltb e_diff et), (Qltb s_diff et),
           (Qltb nw_diff ct), (Qltb ne_diff ct), (Qltb sw_diff ct), (Qltb se_diff ct);
    reflexivity.
Qed.

Lemma classify_mask_rule (es cs : quad) (et ct : Q) :
  diagonal_rule (classify_mask es cs et ct).
Proof.
  destruct (classify_mask_bits es cs et ct)
    as (n & w & e & s & nw & ne & sw & se & ->).
  unfold diagonal_rule, has_bit.
  destruct n, w, e, s, nw, ne, sw, se; vm_compute; intuition congruence.
Qed.

Lemma classify_mask_range (es cs : quad) (et ct : Q) :
  0 <= classify_mask es cs et ct <= 255.
Proof.
  destruct (classify_mask_bits es cs et ct)
    as (n & w & e & s & nw & ne & sw & se & ->).
  destruct n, w, e, s, nw, ne, sw, se; vm_compute; intuition congruence.
Qed.

(** C1. Every mask the classifier composes obeys the structural rule,
    whatever the region scores and the two thresholds are: bit NW=16 is
    set only with N=1 and W=2, NE=32 only with N=1 and E=4, SW=64 only
    with S=8 and W=2, SE=128 only with S=8 and E=4.  Hence, for every
    sheet whose analysis completes, the mask of every cell that is not
    marked unused (mask -1) obeys the rule. *)
Theorem C1_diagonal_needs_cardinals :
  (forall (es cs : quad) (edge_thresh corner_thresh : Q),
     diagonal_rule (classify_mask es cs edge_thresh corner_thresh)) /\
  (forall (pixels : image) (results : list entry) (rep : report),
     analyze_sheet pixels = Ok (results, rep) ->
     forall (e : entry) (m : Z),
       e ∈ results -> mask e = Some m -> m <> -1 -> diagonal_rule m).
Proof.
  split; [exact classify_mask_rule|].
  intros pixels results rep Hrun e m He Hm Hused.
  apply analyze_sheet_inv in Hrun as (-> & _).
  apply list_elem_of_fmap in He as (cr & -> & _).
  rewrite mask_final_entry in Hm. injection Hm as <-.
  unfold final_mask in *.
  destruct (transparent (get_cell pixels cr.1 cr.2)); [congruence|].
  apply classify_mask_rule.
Qed.

(** C1 on [sheet_A], whose analysis completes. *)
Lemma C1_witness :
  exists results rep,
    analyze_sheet sheet_A = Ok (results, rep) /\
    forall e m, e ∈ results -> mask e = Some m -> m <> -1 -> diagonal_rule m.
Proof.
  destruct (analyze_sheet sheet_A) as [[results rep]|e] eqn:E.
  - exists results, rep. split; [reflexivity|].
    exact (proj2 C1_diagonal_needs_cardinals sheet_A results rep E).
  - vm_compute in E. discriminate E.
Defined.

(** ** Cells that repeat the reference *)

Lemma Qsum_zero (l : list Q) : Forall (fun q => q = 0%Q) l -> Qsum l = 0%Q.
Proof.
  unfold Qsum. induction 1 as [|q l -> _ IH]; [reflexivity|]. simpl. exact IH.
Qed.

Lemma pixel_diff_same (p : rgb) : pixel_diff p p = 0.
Proof. destruct p as [[r g] b]. unfold pixel_diff. rewrite !Z.sub_diag. reflexivity. Qed.

Lemma pixel_score_same (ref_cell cell : list rgba) (idx : Z) (p : rgba) :
  cell !! Z.to_nat idx = Some p -> ref_cell !! Z.to_nat idx = Some p ->
  128 <= alpha p ->
  pixel_score (map rgb_of ref_cell) cell idx = 0%Q.
Proof.
  intros Hc Hr Ha. unfold pixel_score.
  rewrite (list_lookup_total_correct _ _ _ Hc).
  assert (map rgb_of ref_cell !! Z.to_nat idx = Some (rgb_of p)) as Hr'
    by (rewrite list_lookup_fmap, Hr; reflexivity).
  rewrite (list_lookup_total_correct _ _ _ Hr').
  destruct (Z.ltb_spec (alpha p) 128); [lia|].
  rewrite pixel_diff_same. reflexivity.
Qed.

Lemma mean_zero (l : list Q) : Forall (fun q => q = 0%Q) l -> (mean l == 0)%Q.
Proof. intros H. unfold mean. rewrite (Qsum_zero l H). unfold Qdiv. apply Qmult_0_l. Qed.

Lemma region_score_zero (ref_rgb : list rgb) (cell : list rgba) (r : region) :
  (forall idx, idx ∈ rect_offsets (region_box r) -> pixel_score ref_rgb cell idx = 0%Q) ->
  (region_score ref_rgb cell r == 0)%Q.
Proof.
  intros H. unfold region_score. apply mean_zero.
  apply Forall_forall. intros q Hq. apply list_elem_of_fmap in Hq as (idx & -> & Hidx).
  auto.
Qed.

Lemma elem_of_rect_offsets (idx : Z) (rect : Z * Z * Z * Z) :
  idx ∈ rect_offsets rect ->
  let '(x, y, w, h) := rect in
  exists px py, x <= px < x + w /\ y <= py < y + h /\ idx = py * TILE + px.
Proof.
  destruct rect as [[[x y] w] h]. unfold rect_offsets.
  rewrite list_elem_of_In, in_flat_map.
  intros (py & Hpy & Hin). apply in_map_iff in Hin as (px & <- & Hpx).
  apply list_elem_of_In, elem_of_range in Hpy, Hpx. eauto.
Qed.

Lemma forallb_range (p : Z -> bool) (a b i : Z) :
  forallb p (range a b) = true -> a <= i < b -> p i = true.
Proof.
  intros H Hi. rewrite forallb_forall in H. apply H.
  apply list_elem_of_In, elem_of_range. exact Hi.
Qed.

(** Outside the rectangle [rect] a region of a cell that repeats an
    opaque reference scores zero. *)
Lemma region_score_same_outside (pixels : image) (cell : list rgba)
    (rect : Z * Z * Z * Z) (r : region) :
  opaque (get_cell pixels 1 0) = true ->
  same_outside rect (get_cell pixels 1 0) cell = true ->
  (forall idx, idx ∈ rect_offsets (region_box r) -> idx ∉ rect_offsets rect) ->
  (region_score (ref_of pixels) cell r == 0)%Q.
Proof.
  intros Hop Hsame Hdisj. apply region_score_zero. intros idx Hidx.
  assert (0 <= idx < TILE * TILE) as Hrange.
  { clear -Hidx. destruct r;
      match type of Hidx with
      | context [region_box ?r] =>
          let b := eval vm_compute in (region_box r) in
          change (region_box r) with b in Hidx
      end;
      apply elem_of_rect_offsets in Hidx;
      destruct Hidx as (px & py & Hx & Hy & ->); unfold TILE; lia. }
  pose proof (forallb_range _ _ _ idx Hsame Hrange) as Hi. simpl in Hi.
  apply orb_true_iff in Hi as [Hi | Hi]; apply bool_decide_eq_true in Hi;
    [now apply Hdisj in Hidx|].
  destruct (lookup_lt_is_Some_2 (get_cell pixels 1 0) (Z.to_nat idx)) as [p Hp].
  { pose proof (len_get_cell pixels 1 0) as Hl. unfold len, TILE in *. lia. }
  unfold ref_of. apply (pixel_score_same _ _ _ p); [congruence | exact Hp|].
  unfold opaque in Hop. rewrite forallb_forall in Hop.
  apply Z.leb_le. apply Hop. apply list_elem_of_In.
  exact (list_elem_of_lookup_2 _ _ _ Hp).
Qed.

Ltac in_list := repeat first [apply list_elem_of_here | apply list_elem_of_further].

Lemma away_from_north (r : region) :
  r ∈ [West; East; South; SouthWest; SouthEast] ->
  forall idx, idx ∈ rect_offsets (region_box r) ->
              idx ∉ rect_offsets (region_box North).
Proof.
  intros Hr.
  assert (Forall (fun r => Forall (fun idx => idx ∉ rect_offsets (region_box North))
                                  (rect_offsets (region_box r)))
                 [West; East; South; SouthWest; SouthEast]) as H
    by compute_done.
  rewrite Forall_forall in H. specialize (H r Hr).
  rewrite Forall_forall in H. exact H.
Qed.

Lemma not_transparent_same_outside (pixels : image) (cell : list rgba) :
  opaque (get_cell pixels 1 0) = true ->
  same_outside (region_box North) (get_cell pixels 1 0) cell = true ->
  transparent cell = false.
Proof.
  intros Hop Hsame.
  pose proof (forallb_range _ _ _ 255 Hsame ltac:(unfold TILE; lia)) as Hi.
  cbv beta in Hi. apply orb_true_iff in Hi as [Hi | Hi]; apply bool_decide_eq_true in Hi.
  { exfalso. revert Hi. compute_done. }
  destruct (lookup_lt_is_Some_2 (get_cell pixels 1 0) (Z.to_nat 255)) as [p Hp].
  { pose proof (len_get_cell pixels 1 0) as Hl. unfold len in *. lia. }
  rewrite Hp in Hi.
  unfold opaque in Hop. rewrite forallb_forall in Hop.
  assert (128 <= alpha p) as Ha.
  { apply Z.leb_le. apply Hop. apply list_elem_of_In.
    exact (list_elem_of_lookup_2 _ _ _ Hp). }
  apply not_true_is_false. unfold transparent. rewrite forallb_forall. intros Hall.
  assert ((alpha p <? 128) = true) as Hlt.
  { apply Hall. apply list_elem_of_In. exact (list_elem_of_lookup_2 _ _ _ Hi). }
  apply Z.ltb_lt in Hlt. lia.
Qed.

Lemma entry_at_final (pixels : image) (et ct : Q) (c r : Z) :
  0 <= c < COLS -> 0 <= r < ROWS ->
  entry_at (map (final_entry pixels et ct) cell_coords) c r
  = Some (final_entry pixels et ct (c, r)).
Proof.
  intros Hc Hr. unfold entry_at.
  rewrite list_lookup_fmap, cell_coords_lookup by assumption. reflexivity.
Qed.

Lemma Qltb_zero_score (q t : Q) : (q == 0)%Q -> (0 < t)%Q -> Qltb q t = true.
Proof. intros Hq Ht. apply Qltb_lt. rewrite Hq. exact Ht. Qed.

(** C2, amended.  A cell that repeats an opaque reference everywhere
    outside its North strip, and whose North-strip score is not below the
    edge threshold (both thresholds being positive), is classified 206:
    N is cleared, and with it the diagonals NW and NE that the structural
    rule ties to N; the other five bits W=2, E=4, S=8, SW=64 and SE=128
    are set. *)
Theorem C2_north_deviation_mask :
  forall (pixels : image) (results : list entry) (rep : report) (c r : Z),
    analyze_sheet pixels = Ok (results, rep) ->
    0 <= c < COLS -> 0 <= r < ROWS ->
    opaque (get_cell pixels 1 0) = true ->
    same_outside (region_box North) (get_cell pixels 1 0) (get_cell pixels c r) = true ->
    (0 < edge_thresh rep)%Q -> (0 < corner_thresh rep)%Q ->
    (edge_thresh rep <= region_score (ref_of pixels) (get_cell pixels c r) North)%Q ->
    exists e, entry_at results c r = Some e /\ col e = c /\ row e = r /\
              mask e = Some (2 + 4 + 8 + 64 + 128).
Proof.
  intros pixels results rep c r Hrun Hc Hr Hop Hsame Het Hct Hnorth.
  apply analyze_sheet_inv in Hrun as (-> & _).
  exists (final_entry pixels (edge_thresh rep) (corner_thresh rep) (c, r)).
  split; [now apply entry_at_final|].
  unfold final_entry. simpl fst. simpl snd.
  rewrite (not_transparent_same_outside pixels _ Hop Hsame).
  split; [reflexivity|]. split; [reflexivity|]. cbn [mask]. f_equal.
  unfold classify_mask, edge_scores, corner_scores.
  assert (forall r', r' ∈ [West; East; South; SouthWest; SouthEast] ->
            (region_score (ref_of pixels) (get_cell pixels c r) r' == 0)%Q) as Hzero.
  { intros r' Hr'. apply (region_score_same_outside pixels _ (region_box North));
      [exact Hop | exact Hsame | now apply away_from_north]. }
  apply Qltb_ge in Hnorth. rewrite Hnorth.
  rewrite !(Qltb_zero_score (region_score _ _ West) _ (Hzero West ltac:(in_list)) Het).
  rewrite !(Qltb_zero_score (region_score _ _ East) _ (Hzero East ltac:(in_list)) Het).
  rewrite !(Qltb_zero_score (region_score _ _ South) _ (Hzero South ltac:(in_list)) Het).
  rewrite !(Qltb_zero_score (region_score _ _ SouthWest) _ (Hzero SouthWest ltac:(in_list)) Hct).
  rewrite !(Qltb_zero_score (region_score _ _ SouthEast) _ (Hzero SouthEast ltac:(in_list)) Hct).
  reflexivity.
Qed.

(** C2 as stated fails on [sheet_A]: cell (0,0) repeats the opaque
    reference outside its North strip and deviates on the strip by more
    than the discovered edge threshold, yet its mask is 206, not
    255 - 1 = 254: the diagonals NW and NE fall with N. *)
Lemma C2_counterexample :
  opaque (get_cell sheet_A 1 0) = true /\
  same_outside (region_box North) (get_cell sheet_A 1 0) (get_cell sheet_A 0 0) = true /\
  exists results rep e,
    analyze_sheet sheet_A = Ok (results, rep) /\
    entry_at results 0 0 = Some e /\
    (edge_thresh rep < region_score (ref_of sheet_A) (get_cell sheet_A 0 0) North)%Q /\
    mask e = Some 206 /\ mask e <> Some (255 - 1).
Proof.
  split; [vm_compute; reflexivity|]. split; [vm_compute; reflexivity|].
  destruct (analyze_sheet sheet_A) as [[results rep]|x] eqn:E;
    [|vm_compute in E; discriminate E].
  vm_compute in E. injection E as <- <-.
  eexists _, _, _. split; [reflexivity|]. split; [vm_compute; reflexivity|].
  split; [vm_compute; reflexivity|]. split; [reflexivity | discriminate].
Qed.

(** C2, amended, on cell (0,0) of [sheet_A]. *)
Lemma C2_witness :
  exists results rep e,
    analyze_sheet sheet_A = Ok (results, rep) /\
    entry_at results 0 0 = Some e /\ col e = 0 /\ row e = 0 /\
    mask e = Some (2 + 4 + 8 + 64 + 128).
Proof.
  destruct (analyze_sheet sheet_A) as [[results rep]|x] eqn:E;
    [|vm_compute in E; discriminate E].
  pose proof E as E'. vm_compute in E'. injection E' as Hres Hrep.
  exists results, rep.
  assert (0 < edge_thresh rep)%Q as Het by (rewrite <- Hrep; reflexivity).
  assert (0 < corner_thresh rep)%Q as Hct by (rewrite <- Hrep; reflexivity).
  assert (edge_thresh rep <= region_score (ref_of sheet_A) (get_cell sheet_A 0 0) North)%Q
    as Hn by (rewrite <- Hrep; vm_compute; discriminate).
  destruct (C2_north_deviation_mask sheet_A results rep 0 0 E
              ltac:(unfold COLS; lia) ltac:(unfold ROWS; lia)
              ltac:(vm_compute; reflexivity) ltac:(vm_compute; reflexivity)
              Het Hct Hn) as (e & He).
  exists e. split; [reflexivity | exact He].
Defined.

(** ** Transparent reference cell *)

(** C3 as stated fails on [sheet_T]: its reference cell (1,0) is fully
    transparent, and the analysis completes with a reconstruction. *)
Lemma C3_counterexample :
  transparent (get_cell sheet_T 1 0) = true /\
  exists results rep e,
    analyze_sheet sheet_T = Ok (results, rep) /\
    entry_at results 0 0 = Some e /\ mask e = Some 0.
Proof.
  split; [vm_compute; reflexivity|].
  destruct (analyze_sheet sheet_T) as [[results rep]|x] eqn:E;
    [|vm_compute in E; discriminate E].
  vm_compute in E. injection E as <- <-.
  eexists _, _, _. split; [reflexivity|]. split; vm_compute; reflexivity.
Qed.

(** C3, amended.  A fully transparent reference cell raises no
    configuration error.  Whenever some used cell has a positive quadrant
    difference the analysis completes; the reference cell is then
    recorded like any other transparent cell (mask -1, no region scores)
    and takes no part in the pools, while the RGB values of its pixels
    still serve as the baseline. *)
Theorem C3_transparent_reference :
  forall (pixels : image),
    transparent (get_cell pixels 1 0) = true ->
    List.filter (Qltb 0) (quadrant_pool pixels) <> [] ->
    exists results rep e,
      analyze_sheet pixels = Ok (results, rep) /\
      entry_at results 1 0 = Some e /\
      mask e = Some (-1) /\ edges e = None /\ corners e = None /\
      (1, 0) ∉ used_cells pixels.
Proof.
  intros pixels Href Hpos.
  destruct (analyze_sheet_total pixels) as [(Hnil & _) | (_ & results & rep & Hrun)];
    [contradiction|].
  pose proof Hrun as Hinv. apply analyze_sheet_inv in Hinv as (Hres & _).
  exists results, rep, (final_entry pixels (edge_thresh rep) (corner_thresh rep) (1, 0)).
  split; [exact Hrun|]. split.
  { rewrite Hres. apply entry_at_final; unfold COLS, ROWS; lia. }
  unfold final_entry. simpl fst. simpl snd. rewrite Href.
  repeat (split; [reflexivity|]).
  unfold used_cells. rewrite list_elem_of_In, filter_In. simpl fst. simpl snd.
  rewrite Href. intros (_ & H). discriminate H.
Qed.

(** C3, amended, on [sheet_T]. *)
Lemma C3_witness :
  exists results rep e,
    analyze_sheet sheet_T = Ok (results, rep) /\
    entry_at results 1 0 = Some e /\
    mask e = Some (-1) /\ edges e = None /\ corners e = None /\
    (1, 0) ∉ used_cells sheet_T.
Proof.
  apply (C3_transparent_reference sheet_T).
  - vm_compute. reflexivity.
  - vm_compute. discriminate.
Defined.

(** ** Sorted pools *)

Lemma item_cons (x : Q) (l : list Q) (i : Z) :
  0 <= i -> item (x :: l) (i + 1) = item l i.
Proof.
  intros Hi. unfold item. replace (Z.to_nat (i + 1)) with (S (Z.to_nat i)) by lia.
  reflexivity.
Qed.

Lemma item_In (l : list Q) (i : Z) : 0 <= i < len l -> In (item l i) l.
Proof. intros Hi. unfold item, len in *. apply nth_In. lia. Qed.

Lemma In_item (l : list Q) (x : Q) : In x l -> exists i, 0 <= i < len l /\ item l i = x.
Proof.
  intros Hx. destruct (In_nth l x 0%Q Hx) as (n & Hn & Hnth).
  exists (Z.of_nat n). unfold item, len. rewrite Nat2Z.id. split; [lia | exact Hnth].
Qed.

Lemma sorted_item_le (l : list Q) :
  StronglySorted Qle l ->
  forall i j, 0 <= i <= j -> j < len l -> (item l i <= item l j)%Q.
Proof.
  induction 1 as [|x l Hl IH Hx]; intros i j Hij Hj.
  - unfold len in Hj. simpl in Hj. lia.
  - assert (len (x :: l) = len l + 1) as Hlen by (unfold len; simpl; lia).
    destruct (Z.eq_dec i 0) as [-> | Hi].
    + destruct (Z.eq_dec j 0) as [-> | Hj0]; [apply Qle_refl|].
      replace j with ((j - 1) + 1) by lia. rewrite item_cons by lia.
      change (item (x :: l) 0) with x.
      rewrite Forall_forall in Hx. apply Hx, list_elem_of_In, item_In. lia.
    + replace i with ((i - 1) + 1) by lia. replace j with ((j - 1) + 1) by lia.
      rewrite !item_cons by lia. apply IH; lia.
Qed.

(** A sorted pool without a positive gap holds one value only. *)
Lemma no_gap_constant (l : list Q) :
  StronglySorted Qle l -> no_positive_gap l ->
  forall i, 0 <= i < len l -> (item l i == item l 0)%Q.
Proof.
  intros Hs Hgap i Hi.
  assert (forall n : nat, Z.of_nat n < len l -> (item l (Z.of_nat n) == item l 0)%Q) as H.
  { induction n as [|n IH]; intros Hn; [reflexivity|].
    specialize (IH ltac:(lia)).
    pose proof (Hgap (Z.of_nat (S n)) ltac:(lia)) as Hg. unfold gap in Hg.
    replace (Z.of_nat (S n) - 1) with (Z.of_nat n) in Hg by lia.
    pose proof (sorted_item_le l Hs (Z.of_nat n) (Z.of_nat (S n)) ltac:(lia) Hn) as Hle.
    lra. }
  specialize (H (Z.to_nat i)). rewrite Z2Nat.id in H by lia. apply H. lia.
Qed.

Lemma distinct_positive_gap (l : list Q) :
  StronglySorted Qle l ->
  (exists a b, In a l /\ In b l /\ ~ (a == b)%Q) -> ~ no_positive_gap l.
Proof.
  intros Hs (a & b & Ha & Hb & Hab) Hgap. apply Hab.
  apply In_item in Ha as (i & Hi & <-). apply In_item in Hb as (j & Hj & <-).
  rewrite (no_gap_constant l Hs Hgap i Hi), (no_gap_constant l Hs Hgap j Hj).
  reflexivity.
Qed.

(** ** Degenerate pools *)

(** A non-empty pool whose samples are all [0] or [v] gets the threshold
    [v / 2]: half of its single positive value, or [0] when [v] is. *)
Lemma find_threshold_degenerate (diffs : list Q) (v : Q) :
  diffs <> [] -> (0 <= v)%Q ->
  (forall d, In d diffs -> (d == 0)%Q \/ (d == v)%Q) ->
  (exists d, In d diffs /\ (d == v)%Q) ->
  exists t, find_threshold diffs = Ok t /\ (t == v / 2)%Q.
Proof.
  intros Hne Hv Hvals (d & Hd & Hdv).
  pose proof (sorted_ascending diffs) as Hs.
  assert (forall i, 0 <= i < len (sorted diffs) ->
            (item (sorted diffs) i == 0)%Q \/ (item (sorted diffs) i == v)%Q) as Hitem.
  { intros i Hi. apply Hvals.
    apply (Permutation_in _ (Permutation_sym (sorted_perm diffs))), item_In, Hi. }
  destruct (find_threshold_spec diffs)
    as [(-> & _) | [(_ & _ & ->) | (g & (Hg & Hpos & _) & ->)]]; [congruence| |].
  - eexists. split; [reflexivity|].
    apply (Permutation_in _ (sorted_perm diffs)), In_item in Hd as (k & Hk & Hkd).
    pose proof (sorted_item_le _ Hs k (len (sorted diffs) - 1) ltac:(lia) ltac:(lia)) as Hle.
    subst d.
    assert (item (sorted diffs) (len (sorted diffs) - 1) == v)%Q as ->; [|reflexivity].
    destruct (Hitem (len (sorted diffs) - 1) ltac:(lia)) as [Hlast | Hlast]; lra.
  - eexists. split; [reflexivity|]. unfold gap in Hpos.
    assert (item (sorted diffs) (g - 1) + item (sorted diffs) g == v)%Q as ->;
      [|reflexivity].
    destruct (Hitem (g - 1) ltac:(lia)) as [Ha | Ha];
      destruct (Hitem g ltac:(lia)) as [Hb | Hb]; lra.
Qed.

(** C4, the code at the failing input.  Threshold discovery on the empty
    pool raises [IndexError]: the default 100 is computed, but the
    diagnostic line that follows indexes the empty sorted pool.  Every
    non-empty pool is handled without an exception, and a non-empty pool
    with at most one positive value [v] gets [v / 2].  A sheet without a
    used cell has empty pools; its analysis raises as well, already on
    the diagnostic line of the quadrant pass. *)
Theorem C4_empty_pool_raises :
  find_threshold [] = Raise IndexError /\
  (forall diffs, diffs <> [] -> exists t, find_threshold diffs = Ok t) /\
  (forall diffs v,
     diffs <> [] -> (0 <= v)%Q ->
     (forall d, In d diffs -> (d == 0)%Q \/ (d == v)%Q) ->
     (exists d, In d diffs /\ (d == v)%Q) ->
     exists t, find_threshold diffs = Ok t /\ (t == v / 2)%Q) /\
  (edge_pool sheet_clear = [] /\ corner_pool sheet_clear = [] /\
   analyze_sheet sheet_clear = Raise ValueError).
Proof.
  split; [reflexivity|]. split; [exact find_threshold_total|].
  split; [exact find_threshold_degenerate|].
  repeat split; vm_compute; reflexivity.
Qed.

(** A degenerate pool met on a sheet: one positive edge sample. *)
Lemma C4_witness :
  exists t, find_threshold (edge_pool sheet_A) = Ok t /\ (t == (2154000 # 30) / 2)%Q.
Proof.
  apply (proj1 (proj2 (proj2 C4_empty_pool_raises)) (edge_pool sheet_A) (2154000 # 30)).
  - vm_compute. discriminate.
  - vm_compute. discriminate.
  - intros d Hd. vm_compute in Hd.
    repeat (destruct Hd as [<- | Hd]; [vm_compute; tauto|]). destruct Hd.
  - exists (2154000 # 30). split; [vm_compute; tauto | reflexivity].
Defined.

(** ** The threshold as midpoint of the largest gap *)

Lemma find_threshold_midpoint (diffs : list Q) :
  (exists a b, In a diffs /\ In b diffs /\ ~ (a == b)%Q) ->
  exists g,
    first_largest_gap (sorted diffs) g /\
    find_threshold diffs
    = Ok ((item (sorted diffs) (g - 1) + item (sorted diffs) g) / 2)%Q.
Proof.
  intros (a & b & Ha & Hb & Hab).
  destruct (find_threshold_spec diffs) as [(-> & _) | [(_ & Hgap & _) | H]];
    [destruct Ha | | exact H].
  exfalso. apply (distinct_positive_gap (sorted diffs) (sorted_ascending diffs)); [|exact Hgap].
  exists a, b. split; [|split; [|exact Hab]];
    apply (Permutation_in _ (sorted_perm diffs)); assumption.
Qed.


(** ** The region differ against its specification *)

Lemma used_entry_scores (pixels : image) (et ct : Q) (cr : Z * Z) :
  is_unused (final_entry pixels et ct cr) = false ->
  let e := final_entry pixels et ct cr in
  edges e = Some (edge_scores (ref_of pixels) (get_cell pixels (col e) (row e))) /\
  corners e = Some (corner_scores (ref_of pixels) (get_cell pixels (col e) (row e))).
Proof.
  unfold final_entry.
  destruct (transparent (get_cell pixels cr.1 cr.2)); [discriminate|].
  intros _. split; reflexivity.
Qed.

Lemma pixel_diff_squared_distance (p q : rgb) :
  pixel_diff p q = squared_distance p q.
Proof.
  destruct p as [[r g] b], q as [[r' g'] b']. unfold pixel_diff, squared_distance.
  rewrite !Z.pow_2_r. reflexivity.
Qed.

Lemma region_score_spec (ref_rgb : list rgb) (cell : list rgba) (r : region) :
  region_score ref_rgb cell r
  = mean (map (fun idx =>
                 let p := cell !!! Z.to_nat idx in
                 if alpha p <? 128 then 10000%Q
                 else inject_Z (squared_distance (rgb_of p) (ref_rgb !!! Z.to_nat idx)))
              (rect_offsets (region_box r))).
Proof.
  unfold region_score. f_equal. apply map_ext. intros idx. unfold pixel_score.
  cbv zeta. now rewrite pixel_diff_squared_distance.
Qed.

(** C6. The eight rectangles the classifier asks for are the four
    3-thick, 10-long centred edge strips and the four 4 x 4 corner blocks;
    on each of them [sub_region_diff] returns the mean, over the pixels
    of the region, of 10000 for a pixel with alpha below 128 and otherwise
    of the squared Euclidean distance, [(r - r')^2 + (g - g')^2 +
    (b - b')^2], between the pixel's colour and the reference colour at
    the same offset; and in a completed analysis every used cell carries
    exactly these eight scores. *)
Theorem C6_region_scores :
  map region_box [North; South; West; East; NorthWest; NorthEast; SouthWest; SouthEast]
  = requested_regions /\
  (forall r g b r' g' b' : Z,
     squared_distance (r, g, b) (r', g', b')
     = (r - r') * (r - r') + (g - g') * (g - g') + (b - b') * (b - b')) /\
  (forall (ref_rgb : list rgb) (cell : list rgba) (r : region) (x y w h : Z),
     len cell = 256 -> len ref_rgb = 256 -> region_box r = (x, y, w, h) ->
     sub_region_diff ref_rgb cell x y w h
     = Ok (mean (map (fun idx =>
                        let p := cell !!! Z.to_nat idx in
                        if alpha p <? 128 then 10000%Q
                        else inject_Z (squared_distance (rgb_of p)
                                                        (ref_rgb !!! Z.to_nat idx)))
                     (rect_offsets (region_box r))))) /\
  (forall (ref_rgb : list rgb) (cell : list rgba) (r : region),
     region_score ref_rgb cell r
     = mean (map (fun idx =>
                    let p := cell !!! Z.to_nat idx in
                    if alpha p <? 128 then 10000%Q
                    else inject_Z (squared_distance (rgb_of p)
                                                    (ref_rgb !!! Z.to_nat idx)))
                 (rect_offsets (region_box r)))) /\
  (forall (ref_rgb : list rgb) (cell : list rgba),
     len cell = 256 -> len ref_rgb = 256 ->
     cell_regions ref_rgb cell
     = Ok ((region_score ref_rgb cell North, region_score ref_rgb cell West,
            region_score ref_rgb cell East, region_score ref_rgb cell South),
           (region_score ref_rgb cell NorthWest, region_score ref_rgb cell NorthEast,
            region_score ref_rgb cell SouthWest, region_score ref_rgb cell SouthEast))) /\
  (forall (pixels : image) (results : list entry) (rep : report),
     analyze_sheet pixels = Ok (results, rep) ->
     forall e, e ∈ results -> is_unused e = false ->
       edges e = Some (edge_scores (ref_of pixels) (get_cell pixels (col e) (row e))) /\
       corners e = Some (corner_scores (ref_of pixels) (get_cell pixels (col e) (row e)))).
Proof.
  split; [reflexivity|]. split; [reflexivity|].
  split.
  { intros ref_rgb cell r x y w h Hc Hr Hbox. rewrite <- region_score_spec.
    now apply sub_region_diff_score. }
  split; [exact region_score_spec|].
  split; [exact cell_regions_scores|].
  intros pixels results rep Hrun e He Hused.
  apply analyze_sheet_inv in Hrun as (-> & _).
  apply list_elem_of_fmap in He as (cr & -> & _).
  now apply used_entry_scores.
Qed.

(** C6 on cell (0,0) of [sheet_A]: its North strip holds the colour
    (250, 20, 20) against the reference (100, 150, 200), at squared
    distance 150^2 + 130^2 + 180^2 = 71800 on each of its 30 pixels; the
    other seven regions repeat the reference. *)
Lemma C6_witness :
  exists results rep e,
    analyze_sheet sheet_A = Ok (results, rep) /\
    entry_at results 0 0 = Some e /\
    edges e = Some (edge_scores (ref_of sheet_A) (get_cell sheet_A (col e) (row e))) /\
    corners e = Some (corner_scores (ref_of sheet_A) (get_cell sheet_A (col e) (row e))) /\
    squared_distance (250, 20, 20) (100, 150, 200) = 71800 /\
    (exists n w e' s, edges e = Some (n, w, e', s) /\
                      (n == 71800)%Q /\ (w == 0)%Q /\ (e' == 0)%Q /\ (s == 0)%Q) /\
    sub_region_diff (ref_of sheet_A) (get_cell sheet_A 0 0) 3 0 10 3
    = Ok (mean (map (fun idx =>
                       let p := get_cell sheet_A 0 0 !!! Z.to_nat idx in
                       if alpha p <? 128 then 10000%Q
                       else inject_Z (squared_distance (rgb_of p)
                                                       (ref_of sheet_A !!! Z.to_nat idx)))
                    (rect_offsets (region_box North)))).
Proof.
  destruct (analyze_sheet sheet_A) as [[results rep]|x] eqn:E;
    [|vm_compute in E; discriminate E].
  pose proof E as E'. vm_compute in E'. injection E' as Hres _.
  destruct (entry_at results 0 0) as [e|] eqn:He;
    [|rewrite <- Hres in He; vm_compute in He; discriminate He].
  exists results, rep, e. split; [reflexivity|]. split; [exact He|].
  destruct C6_region_scores as (_ & _ & Hsub & _ & _ & Hrun).
  assert (is_unused e = false) as Hused
    by (rewrite <- Hres in He; vm_compute in He; injection He as <-; reflexivity).
  destruct (Hrun sheet_A results rep E e) as (Hedges & Hcorners);
    [unfold entry_at in He; exact (list_elem_of_lookup_2 _ _ _ He) | exact Hused|].
  split; [exact Hedges|]. split; [exact Hcorners|]. split; [reflexivity|].
  split.
  { rewrite <- Hres in He. vm_compute in He. injection He as <-.
    eexists _, _, _, _. split; [reflexivity|]. repeat split; reflexivity. }
  apply (Hsub (ref_of sheet_A) (get_cell sheet_A 0 0) North 3 0 10 3); reflexivity.
Defined.

(** ** Regions stay inside the cell *)

Lemma cell_regions_calls (ref_rgb : list rgb) (cell : list rgba) :
  cell_regions ref_rgb cell
  = (let! l := mapM (fun '(x, y, w, h) => sub_region_diff ref_rgb cell x y w h)
                    requested_regions in
     match l with
     | [n; s; w; e; nw; ne; sw; se] => Ok ((n, w, e, s), (nw, ne, sw, se))
     | _ => Raise IndexError
     end).
Proof.
  unfold cell_regions, requested_regions. cbn [mapM].
  repeat match goal with
         | |- context [sub_region_diff ?a ?b ?x ?y ?w ?h] =>
             destruct (sub_region_diff a b x y w h); cbn [bind]; [|reflexivity]
         end.
  reflexivity.
Qed.

Lemma region_loop_inside (ref_rgb : list rgb) (cell : list rgba) (x y w h : Z) :
  len cell = 256 -> len ref_rgb = 256 ->
  0 <= x -> 0 <= y -> 0 <= w -> 0 <= h -> x + w <= TILE -> y + h <= TILE ->
  exists total, region_loop ref_rgb cell x y w h = Ok (total, w * h).
Proof.
  intros Hc Hr Hx Hy Hw Hh Hxw Hyh. rewrite region_loop_sum by assumption.
  eexists. f_equal. f_equal. unfold loop_offsets, len.
  rewrite (flat_map_constant_length (c := Z.to_nat w)).
  - rewrite length_range. nia.
  - intros dy _. rewrite length_map, length_range. f_equal. lia.
Qed.

(** C10. Every rectangle requested by the classifier lies inside the
    16 x 16 cell: each pixel coordinate is below 16, each index is inside
    the 256-pixel buffer, the rectangle is not empty, and on a
    256-pixel cell the differ's loop ends without an [IndexError] having
    counted all [w * h > 0] pixels, so the mean divides by a positive
    count. *)
Theorem C10_regions_inside_cell :
  (forall (ref_rgb : list rgb) (cell : list rgba),
     cell_regions ref_rgb cell
     = (let! l := mapM (fun '(x, y, w, h) => sub_region_diff ref_rgb cell x y w h)
                       requested_regions in
        match l with
        | [n; s; w; e; nw; ne; sw; se] => Ok ((n, w, e, s), (nw, ne, sw, se))
        | _ => Raise IndexError
        end)) /\
  Forall (fun '(x, y, w, h) =>
            0 < w * h /\
            (forall dx dy, 0 <= dx < w -> 0 <= dy < h ->
               0 <= x + dx < TILE /\ 0 <= y + dy < TILE /\
               0 <= (y + dy) * TILE + (x + dx) < 256) /\
            (forall (ref_rgb : list rgb) (cell : list rgba),
               len cell = 256 -> len ref_rgb = 256 ->
               exists total,
                 region_loop ref_rgb cell x y w h = Ok (total, w * h) /\
                 mean_of (total, w * h) = (total / inject_Z (w * h))%Q))
         requested_regions.
Proof.
  split; [exact cell_regions_calls|].
  unfold requested_regions.
  repeat (apply List.Forall_cons;
    [cbv beta iota; split; [reflexivity|]; split;
     [intros dx dy Hdx Hdy; unfold TILE; lia
     |intros ref_rgb cell Hc Hr;
      match goal with
      | |- exists total, region_loop _ _ ?x ?y ?w ?h = _ /\ _ =>
          destruct (region_loop_inside ref_rgb cell x y w h Hc Hr
                      ltac:(lia) ltac:(lia) ltac:(lia) ltac:(lia)
                      ltac:(unfold TILE; lia) ltac:(unfold TILE; lia))
            as (total & Hloop)
      end;
      exists total; split; [exact Hloop | reflexivity]]|]).
  apply List.Forall_nil.
Qed.

(** ** Validator *)

Lemma duplicated_lookup (masks : list Z) (m : Z) :
  (forall x, x ∈ masks -> 0 <= x) ->
  is_Some (filter (fun '(m, c) => 1 < c /\ 0 <= m) (Counter masks) !! m)
  <-> 1 < occurrences m masks.
Proof.
  intros Hnn. unfold is_Some. split.
  - intros (c & Hc). apply map_lookup_filter_Some in Hc as (Hc & Hgt & _).
    rewrite Counter_lookup in Hc.
    destruct (0 <? occurrences m masks); [|discriminate]. injection Hc as ->. exact Hgt.
  - intros Hocc. exists (occurrences m masks). apply map_lookup_filter_Some.
    split; [|split; [exact Hocc|]].
    + rewrite Counter_lookup. destruct (Z.ltb_spec 0 (occurrences m masks)); [reflexivity | lia].
    + apply Hnn, occurrences_pos. lia.
Qed.

(** C7. When the validator returns: [missing] holds the canonical masks
    that no cell shows, [extra] the shown masks outside the canonical 47,
    [duplicated] the masks shown by more than one cell; the success flag
    is true exactly when all three are empty; the mapping is emitted
    exactly on success, and it lists the [mask, col, row] triples of the
    used cells in ascending mask order. *)
Theorem C7_validator_success :
  forall (results : list entry) (v : validation),
    validate results = Ok v ->
    size expected_47 = 47%nat /\
    (forall m, m ∈ missing v <-> m ∈ expected_47 /\ m ∉ observed results) /\
    (forall m, m ∈ extra v <-> m ∈ observed results /\ m ∉ expected_47) /\
    (forall m, is_Some (duplicated v !! m) <-> 1 < occurrences m (observed results)) /\
    (perfect v = true <-> missing v = ∅ /\ extra v = ∅ /\ duplicated v = ∅) /\
    (is_Some (mapping v) <-> perfect v = true) /\
    (forall tbl, mapping v = Some tbl ->
       StronglySorted mask_le tbl /\ Permutation tbl (triples results)).
Proof.
  intros results v Hv.
  apply validate_inv in Hv as (Hall & _ & Hmiss & Hextra & Hdup & Hperf & Hmap).
  split; [reflexivity|].
  split; [intros m; rewrite Hmiss, elem_of_difference, elem_of_list_to_set; tauto|].
  split; [intros m; rewrite Hextra, elem_of_difference, elem_of_list_to_set; tauto|].
  split.
  { intros m. rewrite Hdup. apply duplicated_lookup.
    intros x Hx. now apply elem_of_observed in Hx as (Hx & _). }
  split.
  { rewrite Hperf, !andb_true_iff, !bool_decide_eq_true. tauto. }
  destruct (perfect v).
  - destruct Hmap as (tbl & Htbl & Hmap). rewrite Hmap. split.
    + split; [reflexivity | eauto].
    + intros tbl' [= <-]. now apply emit_mapping_spec.
  - rewrite Hmap. split.
    + split; [intros [x Hx]; discriminate Hx | discriminate].
    + discriminate.
Qed.

(** C7 on [planted], where validation succeeds and the table is emitted. *)
Lemma C7_witness :
  exists v tbl,
    validate planted = Ok v /\ perfect v = true /\ mapping v = Some tbl /\
    StronglySorted mask_le tbl /\ Permutation tbl (triples planted).
Proof.
  destruct (validate planted) as [v|x] eqn:E; [|vm_compute in E; discriminate E].
  destruct (C7_validator_success planted v E) as (_ & _ & _ & _ & _ & Hmap & Htbl).
  assert (perfect v = true) as Hperf
    by (vm_compute in E; injection E as <-; reflexivity).
  destruct (proj2 Hmap Hperf) as (tbl & Hm).
  exists v, tbl. split; [reflexivity|]. split; [exact Hperf|]. split; [exact Hm|].
  exact (Htbl tbl Hm).
Defined.

(** ** The reference cell alone *)

Lemma filter_nil_iff {A} (p : A -> bool) (l : list A) :
  (forall x, In x l -> p x = false) -> List.filter p l = [].
Proof.
  intros H. induction l as [|x l IH]; [reflexivity|]. simpl.
  rewrite (H x) by now left. apply IH. intros y Hy. apply H. now right.
Qed.

Lemma quadrant_score_reference (pixels : image) (qx qy : Z) :
  opaque (get_cell pixels 1 0) = true ->
  qx = 0 \/ qx = HALF -> qy = 0 \/ qy = HALF ->
  (quadrant_score (ref_of pixels) (get_cell pixels 1 0) qx qy == 0)%Q.
Proof.
  intros Hop Hx Hy. unfold quadrant_score. apply mean_zero.
  apply Forall_forall. intros q Hq. apply list_elem_of_fmap in Hq as (idx & -> & Hidx).
  apply elem_of_loop_offsets in Hidx as (dx & dy & Hdx & Hdy & ->).
  destruct (lookup_lt_is_Some_2 (get_cell pixels 1 0)
              (Z.to_nat ((qy + dy) * TILE + (qx + dx)))) as [p Hp].
  { pose proof (len_get_cell pixels 1 0) as Hl. unfold len, TILE, HALF in *. lia. }
  unfold ref_of. apply (pixel_score_same _ _ _ p); [exact Hp | exact Hp|].
  unfold opaque in Hop. rewrite forallb_forall in Hop.
  apply Z.leb_le. apply Hop. apply list_elem_of_In.
  exact (list_elem_of_lookup_2 _ _ _ Hp).
Qed.

Lemma scenario_B_used (pixels : image) (cr : Z * Z) :
  scenario_B pixels = true -> In cr (used_cells pixels) -> cr = (1, 0).
Proof.
  unfold scenario_B, used_cells. intros H Hcr.
  apply andb_true_iff in H as (_ & H). rewrite forallb_forall in H.
  apply filter_In in Hcr as (Hin & Hused). specialize (H cr Hin).
  apply orb_true_iff in H as [H | H]; [now apply bool_decide_eq_true in H|].
  rewrite H in Hused. discriminate Hused.
Qed.

Lemma scenario_B_no_positive_quadrant (pixels : image) :
  scenario_B pixels = true -> List.filter (Qltb 0) (quadrant_pool pixels) = [].
Proof.
  intros HB. apply filter_nil_iff. intros q Hq.
  unfold quadrant_pool in Hq. apply in_flat_map in Hq as (cr & Hcr & Hq).
  apply (scenario_B_used pixels cr HB) in Hcr as ->.
  assert (opaque (get_cell pixels 1 0) = true) as Hop
    by (unfold scenario_B in HB; now apply andb_true_iff in HB as (HB & _)).
  apply Qltb_ge.
  unfold quadrant_scores in Hq. simpl in Hq.
  destruct Hq as [<- | [<- | [<- | [<- | []]]]];
    rewrite quadrant_score_reference; auto; apply Qle_refl.
Qed.

(** C8, the code on Scenario B.  On every sheet made of an opaque
    reference cell and otherwise transparent cells the analysis raises
    [ValueError] at the diagnostic line of the quadrant pass (no quadrant
    difference is positive, so [min] gets an empty list) and the
    validator is never reached.  On [sheet_B] the later stages, run past
    that line, would report 46 missing masks, no extra and no duplicate. *)
Theorem C8_reference_only_sheet_raises :
  (forall pixels : image,
     scenario_B pixels = true ->
     auto_threshold (quadrant_pool pixels) = Raise ValueError /\
     analyze_sheet pixels = Raise ValueError) /\
  scenario_B sheet_B = true /\
  (exists et ct v,
     find_threshold (edge_pool sheet_B) = Ok et /\
     find_threshold (corner_pool sheet_B) = Ok ct /\
     validate (map (final_entry sheet_B et ct) cell_coords) = Ok v /\
     size (missing v) = 46%nat /\ extra v = ∅ /\ duplicated v = ∅).
Proof.
  split.
  { intros pixels HB. apply scenario_B_no_positive_quadrant in HB. split.
    - destruct (auto_threshold_spec (quadrant_pool pixels)) as [(_ & H) | (H & _)];
        [exact H | contradiction].
    - destruct (analyze_sheet_total pixels) as [(_ & H) | (H & _)];
        [exact H | contradiction]. }
  split; [vm_compute; reflexivity|].
  destruct (find_threshold (edge_pool sheet_B)) as [et|x] eqn:Ee;
    [|vm_compute in Ee; discriminate Ee].
  destruct (find_threshold (corner_pool sheet_B)) as [ct|x] eqn:Ec;
    [|vm_compute in Ec; discriminate Ec].
  exists et, ct.
  vm_compute in Ee. injection Ee as <-. vm_compute in Ec. injection Ec as <-.
  destruct (validate (map (final_entry sheet_B _ _) cell_coords)) as [v|x] eqn:Ev;
    [|vm_compute in Ev; discriminate Ev].
  exists v. repeat (split; [reflexivity|]).
  vm_compute in Ev. injection Ev as <-.
  split; [vm_compute; reflexivity|]. split; compute_done.
Qed.

(** C8 on [sheet_B]. *)
Lemma C8_witness :
  auto_threshold (quadrant_pool sheet_B) = Raise ValueError /\
  analyze_sheet sheet_B = Raise ValueError.
Proof.
  apply (proj1 C8_reference_only_sheet_raises sheet_B). vm_compute. reflexivity.
Defined.

(** ** Unused cells stay out of every later step *)

Lemma mapM_lookup {A B} (f : A -> result B) (l : list A) (l' : list B) :
  mapM f l = Ok l' ->
  forall i a, l !! i = Some a -> exists b, l' !! i = Some b /\ f a = Ok b.
Proof.
  revert l'. induction l as [|x l IH]; intros l' H i a Hi; [discriminate Hi|].
  simpl in H. apply bind_Ok in H as (b & Hb & H).
  apply bind_Ok in H as (bs & Hbs & [= <-]).
  destruct i as [|i]; simpl in *.
  - injection Hi as <-. eauto.
  - eapply IH; eauto.
Qed.

Lemma gather_filter (results : list entry) :
  gather results = gather (List.filter (fun e => negb (is_unused e)) results).
Proof.
  unfold gather. generalize (@nil Q, @nil Q).
  induction results as [|e l IH]; intros acc; [reflexivity|].
  cbn [foldM List.filter]. destruct (is_unused e) eqn:E; cbn [negb].
  - unfold gather_step at 1. destruct acc as [es cs]. rewrite E. apply IH.
  - cbn [foldM]. destruct (gather_step acc e); cbn [bind]; [apply IH | reflexivity].
Qed.

Lemma observed_filter (results : list entry) :
  observed results = observed (List.filter (fun e => negb (is_unused e)) results).
Proof.
  unfold observed. induction results as [|e l IH]; [reflexivity|].
  simpl. unfold is_unused at 1. destruct (mask e) as [m|] eqn:Em; simpl.
  - destruct (Z.eqb_spec m (-1)) as [-> | Hm]; simpl.
    + exact IH.
    + rewrite Em. simpl. destruct (0 <=? m); [f_equal|]; exact IH.
  - rewrite Em. simpl. exact IH.
Qed.

Lemma elem_of_triples (results : list entry) (t : Z * Z * Z) :
  t ∈ triples results -> 0 <= t.1.1.
Proof.
  unfold triples. rewrite list_elem_of_omap. intros (e & _ & He).
  destruct (mask e) as [m|]; [|discriminate].
  destruct (Z.leb_spec 0 m); [|discriminate]. injection He as <-. exact H.
Qed.

Lemma final_mask_unused (pixels : image) (et ct : Q) (cr : Z * Z) :
  final_mask pixels et ct cr = -1 <-> transparent (get_cell pixels cr.1 cr.2) = true.
Proof.
  unfold final_mask. destruct (transparent (get_cell pixels cr.1 cr.2)).
  - tauto.
  - pose proof (classify_mask_range
                  (edge_scores (ref_of pixels) (get_cell pixels cr.1 cr.2))
                  (corner_scores (ref_of pixels) (get_cell pixels cr.1 cr.2)) et ct).
    split; [lia | discriminate].
Qed.

Lemma print_grid_slot (results : list entry) (g : list (list (option Z)))
    (c r : Z) (e : entry) (m : Z) :
  print_grid results = Ok g ->
  0 <= c < COLS -> 0 <= r < ROWS ->
  entry_at results c r = Some e -> mask e = Some m ->
  exists line, g !! Z.to_nat r = Some line /\
               line !! Z.to_nat c = Some (if m <? 0 then None else Some m).
Proof.
  unfold print_grid, entry_at. intros Hg Hc Hr He Hm.
  destruct (mapM_lookup _ _ _ Hg (Z.to_nat r) r) as (line & Hline & Hrow).
  { rewrite range_lookup by (unfold ROWS in *; lia). f_equal. lia. }
  exists line. split; [exact Hline|].
  destruct (mapM_lookup _ _ _ Hrow (Z.to_nat c) c) as (slot & Hslot & Hcell).
  { rewrite range_lookup by (unfold COLS in *; lia). f_equal. lia. }
  rewrite Hslot. f_equal.
  rewrite (getitem_lookup _ _ e) in Hcell by (unfold COLS in *; lia || exact He).
  cbn [bind] in Hcell. unfold int_mask in Hcell. rewrite Hm in Hcell.
  cbn [bind] in Hcell. now injection Hcell as <-.
Qed.

(** C9. In a completed analysis every fully transparent cell, and no
    other, carries mask -1 and has no region scores.  An entry with mask
    -1 adds nothing to the edge or corner pool, is printed as the
    placeholder in the grid, is not among the masks the validator counts
    and is not in the emitted table. *)
Theorem C9_unused_cells_excluded :
  (forall (pixels : image) (results : list entry) (rep : report),
     analyze_sheet pixels = Ok (results, rep) ->
     forall c r, 0 <= c < COLS -> 0 <= r < ROWS ->
       exists e, entry_at results c r = Some e /\ col e = c /\ row e = r /\
                 (mask e = Some (-1) <-> transparent (get_cell pixels c r) = true) /\
                 (transparent (get_cell pixels c r) = true ->
                  edges e = None /\ corners e = None)) /\
  (forall results : list entry,
     gather results = gather (List.filter (fun e => negb (is_unused e)) results)) /\
  (forall (results : list entry) (g : list (list (option Z))),
     print_grid results = Ok g ->
     forall c r e, 0 <= c < COLS -> 0 <= r < ROWS ->
       entry_at results c r = Some e -> mask e = Some (-1) ->
       exists line, g !! Z.to_nat r = Some line /\ line !! Z.to_nat c = Some None) /\
  (forall (results : list entry) (v : validation),
     validate results = Ok v ->
     (-1 ∉ observed results) /\
     observed results = observed (List.filter (fun e => negb (is_unused e)) results) /\
     unique v = Z.of_nat (size (list_to_set (C := gset Z) (observed results))) /\
     (-1 ∉ extra v) /\ duplicated v !! (-1) = None /\
     forall tbl, mapping v = Some tbl -> forall t, t ∈ tbl -> 0 <= t.1.1).
Proof.
  split.
  { intros pixels results rep Hrun c r Hc Hr.
    apply analyze_sheet_inv in Hrun as (-> & _).
    exists (final_entry pixels (edge_thresh rep) (corner_thresh rep) (c, r)).
    split; [now apply entry_at_final|].
    pose proof (final_mask_unused pixels (edge_thresh rep) (corner_thresh rep) (c, r)) as Hm.
    rewrite mask_final_entry. unfold final_entry. simpl fst in *. simpl snd in *.
    destruct (transparent (get_cell pixels c r)); simpl.
    - repeat split; auto. intros _. f_equal. now apply Hm.
    - repeat split; try discriminate. intros [= H]. now apply Hm. }
  split; [exact gather_filter|].
  split.
  { intros results g Hg c r e Hc Hr He Hm.
    exact (print_grid_slot results g c r e (-1) Hg Hc Hr He Hm). }
  intros results v Hv.
  assert (-1 ∉ observed results) as Hobs
    by (intros H; apply elem_of_observed in H as (H & _); lia).
  pose proof (C := validate_inv results v Hv).
  destruct C as (Hall & Huniq & _ & Hextra & Hdup & _ & Hmap).
  split; [exact Hobs|]. split; [apply observed_filter|]. split; [exact Huniq|].
  split; [rewrite Hextra, elem_of_difference, elem_of_list_to_set; tauto|].
  split.
  { rewrite Hdup. apply eq_None_not_Some. rewrite duplicated_lookup.
    - intros H. apply Hobs, occurrences_pos. lia.
    - intros x Hx. now apply elem_of_observed in Hx as (Hx & _). }
  intros tbl Htbl t Ht. destruct (perfect v); [|congruence].
  destruct Hmap as (tbl' & Hemit & Hmap). rewrite Hmap in Htbl. injection Htbl as ->.
  apply emit_mapping_spec in Hemit as (_ & Hperm); [|exact Hall].
  apply (elem_of_triples results). now rewrite <- Hperm.
Qed.

(** C9 on the transparent cell (5,2) of [sheet_A]. *)
Lemma C9_witness :
  exists results rep e,
    analyze_sheet sheet_A = Ok (results, rep) /\
    entry_at results 5 2 = Some e /\ col e = 5 /\ row e = 2 /\
    (mask e = Some (-1) <-> transparent (get_cell sheet_A 5 2) = true) /\
    (transparent (get_cell sheet_A 5 2) = true -> edges e = None /\ corners e = None).
Proof.
  destruct (analyze_sheet sheet_A) as [[results rep]|x] eqn:E;
    [|vm_compute in E; discriminate E].
  destruct (proj1 C9_unused_cells_excluded sheet_A results rep E 5 2
              ltac:(unfold COLS; lia) ltac:(unfold ROWS; lia)) as (e & He).
  exists results, rep, e. split; [reflexivity | exact He].
Defined.

(** C10 on the North strip of cell (0,0) of [sheet_A]. *)
Lemma C10_witness :
  exists total,
    region_loop (ref_of sheet_A) (get_cell sheet_A 0 0) 3 0 10 3 = Ok (total, 10 * 3) /\
    mean_of (total, 10 * 3) = (total / inject_Z (10 * 3))%Q.
Proof.
  pose proof (Forall_inv (proj2 C10_regions_inside_cell)) as (_ & _ & H).
  apply (H (ref_of sheet_A) (get_cell sheet_A 0 0)); reflexivity.
Defined.

(** * Further properties of the script *)

(** ** The classifier, bit by bit *)

Lemma classify_mask_sum (n_diff w_diff e_diff s_diff nw_diff ne_diff sw_diff se_diff : Q)
    (et ct : Q) :
  classify_mask (n_diff, w_diff, e_diff, s_diff) (nw_diff, ne_diff, sw_diff, se_diff) et ct
  = Z.b2z (Qltb n_diff et) + 2 * Z.b2z (Qltb w_diff et)
    + 4 * Z.b2z (Qltb e_diff et) + 8 * Z.b2z (Qltb s_diff et)
    + 16 * Z.b2z (Qltb n_diff et && Qltb w_diff et && Qltb nw_diff ct)
    + 32 * Z.b2z (Qltb n_diff et && Qltb e_diff et && Qltb ne_diff ct)
    + 64 * Z.b2z (Qltb s_diff et && Qltb w_diff et && Qltb sw_diff ct)
    + 128 * Z.b2z (Qltb s_diff et && Qltb e_diff et && Qltb se_diff ct).
Proof.
  unfold classify_mask.
  destruct (Qltb n_diff et), (Qltb w_diff et), (Qltb e_diff et), (Qltb s_diff et),
           (Qltb nw_diff ct), (Qltb ne_diff ct), (Qltb sw_diff ct), (Qltb se_diff ct);
    reflexivity.
Qed.

Lemma bits_of_sum (n w e s nw ne sw se : bool) :
  let m := Z.b2z n + 2 * Z.b2z w + 4 * Z.b2z e + 8 * Z.b2z s
           + 16 * Z.b2z (n && w && nw) + 32 * Z.b2z (n && e && ne)
           + 64 * Z.b2z (s && w && sw) + 128 * Z.b2z (s && e && se) in
  (has_bit m 1 <-> n = true) /\ (has_bit m 2 <-> w = true) /\
  (has_bit m 4 <-> e = true) /\ (has_bit m 8 <-> s = true) /\
  (has_bit m 16 <-> n = true /\ w = true /\ nw = true) /\
  (has_bit m 32 <-> n = true /\ e = true /\ ne = true) /\
  (has_bit m 64 <-> s = true /\ w = true /\ sw = true) /\
  (has_bit m 128 <-> s = true /\ e = true /\ se = true).
Proof.
  unfold has_bit.
  destruct n, w, e, s, nw, ne, sw, se; vm_compute; intuition congruence.
Qed.

Lemma classify_mask_bits_iff (n_diff w_diff e_diff s_diff nw_diff ne_diff sw_diff se_diff : Q)
    (et ct : Q) :
  let m := classify_mask (n_diff, w_diff, e_diff, s_diff)
                         (nw_diff, ne_diff, sw_diff, se_diff) et ct in
  (has_bit m 1 <-> (n_diff < et)%Q) /\ (has_bit m 2 <-> (w_diff < et)%Q) /\
  (has_bit m 4 <-> (e_diff < et)%Q) /\ (has_bit m 8 <-> (s_diff < et)%Q) /\
  (has_bit m 16 <-> (n_diff < et)%Q /\ (w_diff < et)%Q /\ (nw_diff < ct)%Q) /\
  (has_bit m 32 <-> (n_diff < et)%Q /\ (e_diff < et)%Q /\ (ne_diff < ct)%Q) /\
  (has_bit m 64 <-> (s_diff < et)%Q /\ (w_diff < et)%Q /\ (sw_diff < ct)%Q) /\
  (has_bit m 128 <-> (s_diff < et)%Q /\ (e_diff < et)%Q /\ (se_diff < ct)%Q).
Proof.
  cbv zeta. rewrite classify_mask_sum, <- !Qltb_lt. apply bits_of_sum.
Qed.

(** X1. What each bit of a composed mask means: a cardinal bit (N=1,
    W=2, E=4, S=8) is set exactly when its edge score is below the edge
    threshold; a diagonal bit (NW=16, NE=32, SW=64, SE=128) exactly when
    both flanking edge scores are below the edge threshold and its corner
    score is below the corner threshold.  The mask lies in 0..255. *)
Theorem X1_mask_bits_meaning :
  forall (n_diff w_diff e_diff s_diff nw_diff ne_diff sw_diff se_diff : Q)
         (edge_thresh corner_thresh : Q),
    let m := classify_mask (n_diff, w_diff, e_diff, s_diff)
                           (nw_diff, ne_diff, sw_diff, se_diff)
                           edge_thresh corner_thresh in
    0 <= m <= 255 /\
    (has_bit m 1 <-> (n_diff < edge_thresh)%Q) /\
    (has_bit m 2 <-> (w_diff < edge_thresh)%Q) /\
    (has_bit m 4 <-> (e_diff < edge_thresh)%Q) /\
    (has_bit m 8 <-> (s_diff < edge_thresh)%Q) /\
    (has_bit m 16 <-> (n_diff < edge_thresh)%Q /\ (w_diff < edge_thresh)%Q
                      /\ (nw_diff < corner_thresh)%Q) /\
    (has_bit m 32 <-> (n_diff < edge_thresh)%Q /\ (e_diff < edge_thresh)%Q
                      /\ (ne_diff < corner_thresh)%Q) /\
    (has_bit m 64 <-> (s_diff < edge_thresh)%Q /\ (w_diff < edge_thresh)%Q
                      /\ (sw_diff < corner_thresh)%Q) /\
    (has_bit m 128 <-> (s_diff < edge_thresh)%Q /\ (e_diff < edge_thresh)%Q
                       /\ (se_diff < corner_thresh)%Q).
Proof.
  intros. split; [apply classify_mask_range | apply classify_mask_bits_iff].
Qed.

(** X2. Raising the thresholds never clears a bit: with a larger edge
    threshold and a larger corner threshold every bit of the old mask is
    a bit of the new one. *)
Theorem X2_mask_monotone_in_thresholds :
  forall (es cs : quad) (et ct et' ct' : Q) (b : Z),
    (et <= et')%Q -> (ct <= ct')%Q ->
    b ∈ [1; 2; 4; 8; 16; 32; 64; 128] ->
    has_bit (classify_mask es cs et ct) b ->
    has_bit (classify_mask es cs et' ct') b.
Proof.
  intros [[[n w] e] s] [[[nw ne] sw] se] et ct et' ct' b Het Hct Hb.
  pose proof (classify_mask_bits_iff n w e s nw ne sw se et ct) as H.
  pose proof (classify_mask_bits_iff n w e s nw ne sw se et' ct') as H'.
  cbv zeta in H, H'.
  destruct H as (H1 & H2 & H4 & H8 & H16 & H32 & H64 & H128).
  destruct H' as (H1' & H2' & H4' & H8' & H16' & H32' & H64' & H128').
  assert (forall q, (q < et)%Q -> (q < et')%Q) as Le by (intros q Hq; lra).
  assert (forall q, (q < ct)%Q -> (q < ct')%Q) as Lc by (intros q Hq; lra).
  repeat (apply elem_of_cons in Hb as [-> | Hb]);
    [rewrite H1, H1' | rewrite H2, H2' | rewrite H4, H4' | rewrite H8, H8'
    | rewrite H16, H16' | rewrite H32, H32' | rewrite H64, H64'
    | rewrite H128, H128' | inversion Hb]; intuition auto.
Qed.

(** X2 on the scores of cell (0,0) of [sheet_A]: with thresholds 1 the
    mask has bit W; it keeps it with thresholds 2. *)
Lemma X2_witness :
  has_bit (classify_mask (2154000 # 30, 0, 0, 0)%Q (0, 0, 0, 0)%Q 2 2) 2.
Proof.
  apply (X2_mask_monotone_in_thresholds
           (2154000 # 30, 0, 0, 0)%Q (0, 0, 0, 0)%Q 1 1 2 2 2).
  - vm_compute. discriminate.
  - vm_compute. discriminate.
  - in_list.
  - reflexivity.
Defined.

(** ** The unused-cell scan *)

Lemma foldl_keep_last {A} (p : A -> bool) (l : list A) (acc : option A) :
  foldl (fun u x => if p x then Some x else u) acc l
  = match last (List.filter p l) with Some x => Some x | None => acc end.
Proof.
  revert acc. induction l as [|x l IH]; intros acc; [reflexivity|].
  simpl. rewrite IH. destruct (p x); [|reflexivity].
  rewrite last_cons. now destruct (last (List.filter p l)).
Qed.

Lemma last_filter_None {A} (p : A -> bool) (l : list A) :
  last (List.filter p l) = None <-> forall x, In x l -> p x = false.
Proof.
  rewrite last_None. split.
  - intros H x Hx. destruct (p x) eqn:E; [|reflexivity].
    assert (In x (List.filter p l)) as Hin by (apply filter_In; auto).
    rewrite H in Hin. destruct Hin.
  - intros H. now apply filter_nil_iff.
Qed.

Lemma last_filter_Some {A} (p : A -> bool) (l : list A) (x : A) :
  last (List.filter p l) = Some x <->
  exists i, l !! i = Some x /\ p x = true /\
            forall j y, (i < j)%nat -> l !! j = Some y -> p y = false.
Proof.
  induction l as [|y l IH] using rev_ind.
  - simpl. split; [discriminate | intros (i & Hi & _); discriminate Hi].
  - rewrite List.filter_app. simpl. destruct (p y) eqn:Ey.
    + rewrite last_snoc. split.
      * intros [= <-]. exists (length l). split; [apply list_lookup_middle; reflexivity|].
        split; [exact Ey|]. intros j z Hj Hz.
        apply lookup_lt_Some in Hz. rewrite length_app in Hz. simpl in Hz. lia.
      * intros (i & Hi & Hx & Hlater).
        destruct (Nat.lt_ge_cases i (length l)) as [Hlt | Hge].
        -- specialize (Hlater (length l) y Hlt (list_lookup_middle _ _ _ _ eq_refl)).
           congruence.
        -- pose proof (lookup_lt_Some _ _ _ Hi) as Hb. rewrite length_app in Hb.
           simpl in Hb. assert (i = length l) as -> by lia.
           rewrite list_lookup_middle in Hi by reflexivity. exact Hi.
    + rewrite app_nil_r, IH. split.
      * intros (i & Hi & Hx & Hlater). exists i.
        split; [now apply lookup_app_l_Some|]. split; [exact Hx|].
        intros j z Hj Hz. apply lookup_app_Some in Hz as [Hz | (Hlen & Hz)].
        -- eauto.
        -- apply list_lookup_singleton_Some in Hz as (_ & <-). exact Ey.
      * intros (i & Hi & Hx & Hlater). exists i.
        apply lookup_app_Some in Hi as [Hi | (Hlen & Hi)].
        -- split; [exact Hi|]. split; [exact Hx|]. intros j z Hj Hz.
           apply (Hlater j z Hj). now apply lookup_app_l_Some.
        -- apply list_lookup_singleton_Some in Hi as (_ & <-). congruence.
Qed.

Lemma find_unused_last (pixels : image) :
  find_unused pixels
  = last (List.filter (fun cr => transparent (get_cell pixels cr.1 cr.2)) cell_coords).
Proof.
  unfold find_unused.
  rewrite (foldl_ext_in _ (fun u cr => if transparent (get_cell pixels cr.1 cr.2)
                                      then Some cr else u))
    by (intros u [c r] _; reflexivity).
  rewrite foldl_keep_last. now destruct (last _).
Qed.

Lemma NoDup_cell_coords : NoDup cell_coords.
Proof. compute_done. Qed.

Lemma elem_of_cell_coords (c r : Z) :
  In (c, r) cell_coords <-> 0 <= c < COLS /\ 0 <= r < ROWS.
Proof.
  unfold cell_coords. rewrite in_flat_map. split.
  - intros (r' & Hr & Hin). apply in_map_iff in Hin as (c' & [= <- <-] & Hc).
    apply list_elem_of_In, elem_of_range in Hr, Hc. lia.
  - intros (Hc & Hr). exists r. split; [apply list_elem_of_In, elem_of_range; lia|].
    apply in_map_iff. exists c. split; [reflexivity|].
    apply list_elem_of_In, elem_of_range. lia.
Qed.

Lemma cell_coords_index (i : nat) (c r : Z) :
  cell_coords !! i = Some (c, r) <->
  0 <= c < COLS /\ 0 <= r < ROWS /\ i = Z.to_nat (r * COLS + c).
Proof.
  split.
  - intros Hi.
    assert (In (c, r) cell_coords) as Hin
      by (apply list_elem_of_In; exact (list_elem_of_lookup_2 _ _ _ Hi)).
    apply elem_of_cell_coords in Hin as (Hc & Hr). repeat split; try lia.
    exact (NoDup_lookup _ _ _ _ NoDup_cell_coords Hi (cell_coords_lookup c r Hc Hr)).
  - intros (Hc & Hr & ->). now apply cell_coords_lookup.
Qed.

(** X3. The reported unused cell is the last fully transparent cell in
    scan order (row by row, left to right): none is reported exactly when
    no cell of the grid is fully transparent, and when several are, every
    cell after the reported one has a visible pixel. *)
Theorem X3_unused_is_last_transparent :
  forall pixels : image,
    (find_unused pixels = None <->
     forall c r, 0 <= c < COLS -> 0 <= r < ROWS ->
                 transparent (get_cell pixels c r) = false) /\
    (forall c r,
       find_unused pixels = Some (c, r) <->
       0 <= c < COLS /\ 0 <= r < ROWS /\
       transparent (get_cell pixels c r) = true /\
       forall c' r', 0 <= c' < COLS -> 0 <= r' < ROWS ->
                     r * COLS + c < r' * COLS + c' ->
                     transparent (get_cell pixels c' r') = false).
Proof.
  intros pixels. rewrite find_unused_last. split.
  - rewrite last_filter_None. split.
    + intros H c r Hc Hr. apply (H (c, r)). now apply elem_of_cell_coords.
    + intros H [c r] Hin. apply elem_of_cell_coords in Hin as (Hc & Hr). now apply H.
  - intros c r. rewrite last_filter_Some. split.
    + intros (i & Hi & Hp & Hlater). apply cell_coords_index in Hi as (Hc & Hr & ->).
      repeat (split; [assumption|]). intros c' r' Hc' Hr' Hlt.
      apply (Hlater (Z.to_nat (r' * COLS + c')) (c', r')).
      * unfold COLS in *. lia.
      * now apply cell_coords_lookup.
    + intros (Hc & Hr & Hp & Hlater). exists (Z.to_nat (r * COLS + c)).
      split; [now apply cell_coords_lookup|]. split; [exact Hp|].
      intros j [c' r'] Hj Hy. apply cell_coords_index in Hy as (Hc' & Hr' & ->).
      apply Hlater; try assumption. cbn [fst snd]. unfold COLS in *. lia.
Qed.

(** ** Cells of the sheet *)

Lemma get_cell_lookup (pixels : image) (c r dx dy : Z) :
  0 <= dx < TILE -> 0 <= dy < TILE ->
  get_cell pixels c r !! Z.to_nat (dy * TILE + dx)
  = Some (pixels (c * TILE + dx) (r * TILE + dy)).
Proof.
  unfold TILE. intros Hdx Hdy.
  assert (dy = 0 \/ dy = 1 \/ dy = 2 \/ dy = 3 \/ dy = 4 \/ dy = 5 \/ dy = 6 \/ dy = 7
          \/ dy = 8 \/ dy = 9 \/ dy = 10 \/ dy = 11 \/ dy = 12 \/ dy = 13 \/ dy = 14
          \/ dy = 15) as Hy by lia.
  assert (dx = 0 \/ dx = 1 \/ dx = 2 \/ dx = 3 \/ dx = 4 \/ dx = 5 \/ dx = 6 \/ dx = 7
          \/ dx = 8 \/ dx = 9 \/ dx = 10 \/ dx = 11 \/ dx = 12 \/ dx = 13 \/ dx = 14
          \/ dx = 15) as Hx by lia.
  clear Hdx Hdy.
  repeat (destruct Hy as [-> | Hy]); try subst dy;
    repeat (destruct Hx as [-> | Hx]); try subst dx; reflexivity.
Qed.

Lemma flat_map_ext_in {A B} (f g : A -> list B) (l : list A) :
  (forall a, In a l -> f a = g a) -> flat_map f l = flat_map g l.
Proof.
  induction l as [|a l IH]; intros H; [reflexivity|]. simpl.
  rewrite (H a) by now left. rewrite IH; [reflexivity|].
  intros b Hb. apply H. now right.
Qed.

Lemma get_cell_ext (pixels pixels' : image) (c r : Z) :
  (forall dx dy, 0 <= dx < TILE -> 0 <= dy < TILE ->
     pixels (c * TILE + dx) (r * TILE + dy) = pixels' (c * TILE + dx) (r * TILE + dy)) ->
  get_cell pixels c r = get_cell pixels' c r.
Proof.
  intros H. unfold get_cell. apply flat_map_ext_in. intros dy Hdy.
  apply map_ext_in. intros dx Hdx.
  apply list_elem_of_In, elem_of_range in Hdy, Hdx. now apply H.
Qed.

(** X4. A cell is the 16 x 16 block of the image at its grid position,
    flattened row by row: it has 256 pixels, the pixel at local offset
    [dy * 16 + dx] is the image pixel [(col * 16 + dx, row * 16 + dy)],
    and the cell does not depend on any pixel outside that block. *)
Theorem X4_cell_layout :
  forall (pixels : image) (c r : Z),
    len (get_cell pixels c r) = TILE * TILE /\
    (forall dx dy, 0 <= dx < TILE -> 0 <= dy < TILE ->
       get_cell pixels c r !! Z.to_nat (dy * TILE + dx)
       = Some (pixels (c * TILE + dx) (r * TILE + dy))) /\
    (forall pixels' : image,
       (forall dx dy, 0 <= dx < TILE -> 0 <= dy < TILE ->
          pixels (c * TILE + dx) (r * TILE + dy)
          = pixels' (c * TILE + dx) (r * TILE + dy)) ->
       get_cell pixels c r = get_cell pixels' c r).
Proof.
  intros pixels c r. split; [reflexivity|].
  split; [apply get_cell_lookup | intros pixels' H; now apply get_cell_ext].
Qed.

(** ** What a completed analysis returns *)

Lemma final_entry_fields (pixels : image) (et ct : Q) (cr : Z * Z) :
  let e := final_entry pixels et ct cr in
  (col e, row e) = cr /\
  (exists m, mask e = Some m /\ -1 <= m <= 255 /\
             (m = -1 <-> transparent (get_cell pixels cr.1 cr.2) = true)) /\
  (transparent (get_cell pixels cr.1 cr.2) = true ->
   qdiffs e = (0, 0, 0, 0)%Q /\ edges e = None /\ corners e = None) /\
  (transparent (get_cell pixels cr.1 cr.2) = false ->
   is_Some (edges e) /\ is_Some (corners e)).
Proof.
  cbv zeta. split; [destruct cr; unfold final_entry; now destruct (transparent _)|].
  split.
  { exists (final_mask pixels et ct cr). split; [apply mask_final_entry|].
    split; [|apply final_mask_unused].
    unfold final_mask. destruct (transparent _); [lia|].
    pose proof (classify_mask_range
                  (edge_scores (ref_of pixels) (get_cell pixels cr.1 cr.2))
                  (corner_scores (ref_of pixels) (get_cell pixels cr.1 cr.2)) et ct).
    lia. }
  unfold final_entry. destruct (transparent (get_cell pixels cr.1 cr.2)); split;
    try discriminate; intros _; cbn; eauto.
Qed.

(** X5. A completed analysis returns one entry per cell of the 12 x 4
    grid, in scan order; every entry carries an integer mask between -1
    and 255, which is -1 exactly for a fully transparent cell; a
    transparent cell keeps zero quadrant differences and gets no region
    scores, every other cell gets both its edge and its corner scores;
    and the reported unused cell is the one the scan found. *)
Theorem X5_results_layout :
  forall (pixels : image) (results : list entry) (rep : report),
    analyze_sheet pixels = Ok (results, rep) ->
    len results = COLS * ROWS /\
    map (fun e => (col e, row e)) results = cell_coords /\
    unused rep = find_unused pixels /\
    forall e, e ∈ results ->
      (exists m, mask e = Some m /\ -1 <= m <= 255 /\
                 (m = -1 <-> transparent (get_cell pixels (col e) (row e)) = true)) /\
      (transparent (get_cell pixels (col e) (row e)) = true ->
       qdiffs e = (0, 0, 0, 0)%Q /\ edges e = None /\ corners e = None) /\
      (transparent (get_cell pixels (col e) (row e)) = false ->
       is_Some (edges e) /\ is_Some (corners e)).
Proof.
  intros pixels results rep Hrun.
  apply analyze_sheet_inv in Hrun as (-> & Hunused & _).
  split; [reflexivity|]. split.
  { rewrite map_map. rewrite <- (map_id cell_coords) at 2. apply map_ext.
    intros cr. apply (final_entry_fields pixels _ _ cr). }
  split; [exact Hunused|].
  intros e He. apply list_elem_of_fmap in He as (cr & -> & _).
  destruct (final_entry_fields pixels (edge_thresh rep) (corner_thresh rep) cr)
    as (Hcr & Hm & Ht & Hf).
  destruct cr as [c r]. injection Hcr as Hc Hr. rewrite Hc, Hr. auto.
Qed.

(** X5 on [sheet_A]. *)
Lemma X5_witness :
  exists results rep,
    analyze_sheet sheet_A = Ok (results, rep) /\
    len results = COLS * ROWS /\
    map (fun e => (col e, row e)) results = cell_coords.
Proof.
  destruct (analyze_sheet sheet_A) as [[results rep]|x] eqn:E;
    [|vm_compute in E; discriminate E].
  destruct (X5_results_layout sheet_A results rep E) as (Hlen & Hmap & _).
  exists results, rep. split; [reflexivity|]. split; [exact Hlen | exact Hmap].
Defined.

(** ** When the analysis fails *)

Lemma filter_positive_nonempty (l : list Q) :
  List.filter (Qltb 0) l <> [] <-> exists q, In q l /\ (0 < q)%Q.
Proof.
  split.
  - intros H. destruct (List.filter (Qltb 0) l) as [|q qs] eqn:E; [congruence|].
    assert (In q (List.filter (Qltb 0) l)) as Hq by (rewrite E; now left).
    apply filter_In in Hq as (Hq & Hpos). exists q. split; [exact Hq|].
    now apply Qltb_lt.
  - intros (q & Hq & Hpos) E.
    assert (In q (List.filter (Qltb 0) l)) as Hin
      by (apply filter_In; split; [exact Hq | now apply Qltb_lt]).
    rewrite E in Hin. destruct Hin.
Qed.

(** ** Scores are non-negative, and zero only on a match *)

Lemma pixel_diff_nonneg (p q : rgb) : 0 <= pixel_diff p q.
Proof. destruct p as [[r g] b], q as [[r' g'] b']. unfold pixel_diff. nia. Qed.

Lemma pixel_diff_zero (p q : rgb) : pixel_diff p q = 0 <-> p = q.
Proof.
  destruct p as [[r g] b], q as [[r' g'] b']. unfold pixel_diff. split.
  - intros H. assert (r = r' /\ g = g' /\ b = b') as (-> & -> & ->) by nia. reflexivity.
  - intros [= -> -> ->]. rewrite !Z.sub_diag. reflexivity.
Qed.

Lemma inject_Z_nonneg (z : Z) : 0 <= z -> (0 <= inject_Z z)%Q.
Proof. intros H. unfold Qle. simpl. lia. Qed.

Lemma inject_Z_zero (z : Z) : (inject_Z z == 0)%Q <-> z = 0.
Proof. unfold Qeq. simpl. lia. Qed.

Lemma pixel_score_nonneg (ref_rgb : list rgb) (cell : list rgba) (idx : Z) :
  (0 <= pixel_score ref_rgb cell idx)%Q.
Proof.
  unfold pixel_score. destruct (_ <? 128); [discriminate|].
  apply inject_Z_nonneg, pixel_diff_nonneg.
Qed.

Lemma pixel_score_zero (ref_rgb : list rgb) (cell : list rgba) (idx : Z) (p : rgba) (q : rgb) :
  cell !! Z.to_nat idx = Some p -> ref_rgb !! Z.to_nat idx = Some q ->
  (pixel_score ref_rgb cell idx == 0)%Q <-> 128 <= alpha p /\ rgb_of p = q.
Proof.
  intros Hp Hq. unfold pixel_score.
  rewrite (list_lookup_total_correct _ _ _ Hp), (list_lookup_total_correct _ _ _ Hq).
  destruct (Z.ltb_spec (alpha p) 128) as [Ha | Ha].
  - split; [intros H; discriminate H | lia].
  - rewrite inject_Z_zero, pixel_diff_zero. intuition.
Qed.

Lemma foldl_Qplus_acc (l : list Q) (a : Q) :
  (foldl Qplus a l == a + Qsum l)%Q.
Proof.
  unfold Qsum. revert a. induction l as [|x l IH]; intros a; simpl.
  - lra.
  - rewrite IH, (IH (0 + x)%Q). lra.
Qed.

Lemma Qsum_cons (x : Q) (l : list Q) : (Qsum (x :: l) == x + Qsum l)%Q.
Proof. unfold Qsum at 1. simpl. rewrite foldl_Qplus_acc. lra. Qed.

Lemma Qsum_nonneg (l : list Q) :
  Forall (fun q => (0 <= q)%Q) l -> (0 <= Qsum l)%Q.
Proof.
  induction 1 as [|x l Hx Hl IH]; [apply Qle_refl|]. rewrite Qsum_cons. lra.
Qed.

Lemma Qsum_zero_inv (l : list Q) :
  Forall (fun q => (0 <= q)%Q) l -> (Qsum l == 0)%Q -> Forall (fun q => (q == 0)%Q) l.
Proof.
  induction 1 as [|x l Hx Hl IH]; intros Hsum; [constructor|].
  rewrite Qsum_cons in Hsum. pose proof (Qsum_nonneg l Hl).
  constructor; [lra | apply IH; lra].
Qed.

Lemma Qsum_all_zero (l : list Q) :
  Forall (fun q => (q == 0)%Q) l -> (Qsum l == 0)%Q.
Proof.
  induction 1 as [|x l Hx Hl IH]; [reflexivity|]. rewrite Qsum_cons. lra.
Qed.

Lemma Qdiv_pos_den_nonneg (s : Q) (n : Z) :
  0 < n -> (0 <= s)%Q -> (0 <= s / inject_Z n)%Q.
Proof.
  intros Hn Hs. apply Qle_shift_div_l; [unfold Qlt; simpl; lia | lra].
Qed.

Lemma Qdiv_pos_den_zero (s : Q) (n : Z) :
  0 < n -> (s / inject_Z n == 0)%Q <-> (s == 0)%Q.
Proof.
  intros Hn. assert (~ (inject_Z n == 0)%Q) as Hne by (rewrite inject_Z_zero; lia).
  split; intros H.
  - rewrite <- (Qmult_div_r s (inject_Z n)) by exact Hne. rewrite H. lra.
  - rewrite H. unfold Qdiv. lra.
Qed.

Lemma len_loop_offsets (x y w h : Z) :
  0 <= w -> 0 <= h -> len (loop_offsets x y w h) = w * h.
Proof.
  intros Hw Hh. unfold loop_offsets, len.
  rewrite (flat_map_constant_length (c := Z.to_nat w)).
  - rewrite length_range. nia.
  - intros dy _. rewrite length_map, length_range. f_equal. lia.
Qed.

Lemma loop_offsets_in (x y w h dx dy : Z) :
  0 <= dx < w -> 0 <= dy < h ->
  (y + dy) * TILE + (x + dx) ∈ loop_offsets x y w h.
Proof.
  intros Hdx Hdy. unfold loop_offsets. apply list_elem_of_In, in_flat_map.
  exists dy. split; [apply list_elem_of_In, elem_of_range; lia|].
  apply in_map_iff. exists dx. split; [reflexivity|].
  apply list_elem_of_In, elem_of_range. lia.
Qed.

(** X7. Inside a 256-pixel cell the score of a non-empty rectangle is
    never negative, and it is zero exactly when every pixel of the
    rectangle is visible (alpha at least 128) and has the RGB value of
    the reference at the same offset.  The quadrant differ is the same
    computation on an 8 x 8 rectangle. *)
Theorem X7_score_zero_iff_match :
  forall (ref_rgb : list rgb) (cell : list rgba) (x y w h : Z),
    len cell = 256 -> len ref_rgb = 256 ->
    0 <= x -> 0 <= y -> 0 < w -> 0 < h -> x + w <= TILE -> y + h <= TILE ->
    quadrant_diff ref_rgb cell x y = sub_region_diff ref_rgb cell x y HALF HALF /\
    exists v,
      sub_region_diff ref_rgb cell x y w h = Ok v /\
      (0 <= v)%Q /\
      ((v == 0)%Q <->
       forall dx dy, 0 <= dx < w -> 0 <= dy < h ->
         exists p, cell !! Z.to_nat ((y + dy) * TILE + (x + dx)) = Some p /\
                   128 <= alpha p /\
                   ref_rgb !! Z.to_nat ((y + dy) * TILE + (x + dx)) = Some (rgb_of p)).
Proof.
  intros ref_rgb cell x y w h Hc Hr Hx Hy Hw Hh Hxw Hyh.
  split; [reflexivity|].
  unfold sub_region_diff. rewrite region_loop_sum by assumption. cbn [bind].
  eexists. split; [reflexivity|].
  rewrite len_loop_offsets by lia. unfold mean_of.
  destruct (Z.ltb_spec 0 (w * h)) as [Hpos | Hpos]; [|nia].
  set (scores := map (pixel_score ref_rgb cell) (loop_offsets x y w h)).
  assert (Forall (fun q => (0 <= q)%Q) scores) as Hnn.
  { apply Forall_forall. intros q Hq. apply list_elem_of_fmap in Hq as (idx & -> & _).
    apply pixel_score_nonneg. }
  split; [apply Qdiv_pos_den_nonneg; [exact Hpos | now apply Qsum_nonneg]|].
  rewrite Qdiv_pos_den_zero by exact Hpos.
  assert (forall dx dy, 0 <= dx < w -> 0 <= dy < h ->
            exists p q, cell !! Z.to_nat ((y + dy) * TILE + (x + dx)) = Some p /\
                        ref_rgb !! Z.to_nat ((y + dy) * TILE + (x + dx)) = Some q)
    as Hlook.
  { intros dx dy Hdx Hdy.
    destruct (lookup_lt_is_Some_2 cell (Z.to_nat ((y + dy) * TILE + (x + dx)))) as [p Hp];
      [unfold len, TILE in *; lia|].
    destruct (lookup_lt_is_Some_2 ref_rgb (Z.to_nat ((y + dy) * TILE + (x + dx)))) as [q Hq];
      [unfold len, TILE in *; lia|].
    eauto. }
  split.
  - intros Hsum dx dy Hdx Hdy.
    apply (Qsum_zero_inv _ Hnn) in Hsum. rewrite Forall_forall in Hsum.
    destruct (Hlook dx dy Hdx Hdy) as (p & q & Hp & Hq).
    exists p. split; [exact Hp|].
    assert (pixel_score ref_rgb cell ((y + dy) * TILE + (x + dx)) == 0)%Q as Hz.
    { apply Hsum. apply list_elem_of_fmap. eexists. split; [reflexivity|].
      now apply loop_offsets_in. }
    apply (pixel_score_zero _ _ _ p q Hp Hq) in Hz as (Ha & ->). auto.
  - intros Hall. apply Qsum_all_zero. apply Forall_forall. intros s Hs.
    apply list_elem_of_fmap in Hs as (idx & -> & Hidx).
    apply elem_of_loop_offsets in Hidx as (dx & dy & Hdx & Hdy & ->).
    destruct (Hall dx dy Hdx Hdy) as (p & Hp & Ha & Hq).
    apply (pixel_score_zero _ _ _ p (rgb_of p) Hp Hq). auto.
Qed.

(** X7 on the West strip of cell (0,0) of [sheet_A], which repeats the
    reference there. *)
Lemma X7_witness :
  exists v,
    sub_region_diff (ref_of sheet_A) (get_cell sheet_A 0 0) 0 3 3 10 = Ok v /\ (0 <= v)%Q.
Proof.
  destruct (X7_score_zero_iff_match (ref_of sheet_A) (get_cell sheet_A 0 0) 0 3 3 10)
    as (_ & v & Hv & Hnn & _);
    try reflexivity; try (unfold TILE; lia).
  exists v. split; [exact Hv | exact Hnn].
Defined.

(** ** Empty rectangles and rectangles that leave the buffer *)

Lemma foldM_nop {A S} (f : S -> A -> result S) (l : list A) (s : S) :
  (forall s a, f s a = Ok s) -> foldM f l s = Ok s.
Proof.
  intros H. induction l as [|a l IH]; [reflexivity|]. simpl. rewrite H. exact IH.
Qed.

Lemma foldM_raises {A S} (f : S -> A -> result S) (l : list A) (e : exn) :
  (forall s a r, f s a = Raise r -> r = e) ->
  (exists a, In a l /\ forall s, f s a = Raise e) ->
  forall s, foldM f l s = Raise e.
Proof.
  intros Honly (a & Ha & Hfail). induction l as [|b l IH]; [destruct Ha|].
  intros s. simpl. destruct (f s b) as [s'|r] eqn:E.
  - cbn [bind]. destruct Ha as [-> | Ha]; [rewrite Hfail in E; discriminate E|].
    now apply IH.
  - cbn [bind]. f_equal. eapply Honly, E.
Qed.

Lemma foldM_only {A S} (f : S -> A -> result S) (l : list A) (e : exn) :
  (forall s a r, f s a = Raise r -> r = e) ->
  forall s r, foldM f l s = Raise r -> r = e.
Proof.
  intros Honly. induction l as [|b l IH]; intros s r; [discriminate|].
  simpl. destruct (f s b) as [s'|r'] eqn:E; cbn [bind].
  - apply IH.
  - intros [= <-]. eapply Honly, E.
Qed.

Lemma getitem_only_IndexError {A} (l : list A) (i : Z) (r : exn) :
  getitem l i = Raise r -> r = IndexError.
Proof.
  unfold getitem. destruct (_ <? 0); [congruence|].
  destruct (l !! _); congruence.
Qed.

Lemma getitem_beyond {A} (l : list A) (i : Z) :
  len l <= i -> getitem l i = Raise IndexError.
Proof.
  intros Hi. unfold getitem, len in *.
  destruct (Z.ltb_spec i 0); [lia|]. destruct (Z.ltb_spec i 0); [lia|].
  rewrite lookup_ge_None_2 by lia. reflexivity.
Qed.

Lemma diff_pixel_only_IndexError (ref_rgb : list rgb) (cell : list rgba) (idx : Z)
    (acc : Q * Z) (r : exn) :
  diff_pixel ref_rgb cell idx acc = Raise r -> r = IndexError.
Proof.
  unfold diff_pixel. destruct acc as [total count].
  destruct (getitem cell idx) as [[[[pr pg] pb] pa]|r'] eqn:E; cbn [bind].
  - destruct (pa <? 128); [discriminate|].
    destruct (getitem ref_rgb idx) as [q|r'] eqn:E'; cbn [bind]; [discriminate|].
    intros [= <-]. eapply getitem_only_IndexError, E'.
  - intros [= <-]. eapply getitem_only_IndexError, E.
Qed.

Lemma diff_pixel_beyond (ref_rgb : list rgb) (cell : list rgba) (idx : Z) (acc : Q * Z) :
  len cell <= idx -> diff_pixel ref_rgb cell idx acc = Raise IndexError.
Proof.
  intros Hi. unfold diff_pixel. destruct acc as [total count].
  rewrite getitem_beyond by exact Hi. reflexivity.
Qed.

(** X8. Edge behaviour of the region differ on any buffers: a rectangle
    without pixels (width or height not positive) scores 0 without reading
    a pixel; the only exception the differ can raise is [IndexError]; and
    it does raise it when the last pixel of a non-empty rectangle lies
    beyond the end of the cell buffer. *)
Theorem X8_region_edge_cases :
  forall (ref_rgb : list rgb) (cell : list rgba) (x y w h : Z),
    (w <= 0 \/ h <= 0 -> sub_region_diff ref_rgb cell x y w h = Ok 0%Q) /\
    (forall r, sub_region_diff ref_rgb cell x y w h = Raise r -> r = IndexError) /\
    (0 < w -> 0 < h ->
     len cell <= (y + (h - 1)) * TILE + (x + (w - 1)) ->
     sub_region_diff ref_rgb cell x y w h = Raise IndexError).
Proof.
  intros ref_rgb cell x y w h.
  assert (forall dy s r,
            foldM (fun acc dx => diff_pixel ref_rgb cell ((y + dy) * TILE + (x + dx)) acc)
                  (range 0 w) s = Raise r -> r = IndexError) as Hinner.
  { intros dy. apply foldM_only. intros s a r. apply diff_pixel_only_IndexError. }
  split; [|split].
  - unfold sub_region_diff, region_loop. intros [Hw | Hh].
    + rewrite (range_nil 0 w) by lia. rewrite foldM_nop by reflexivity. reflexivity.
    + rewrite (range_nil 0 h) by lia. reflexivity.
  - unfold sub_region_diff, region_loop. intros r.
    destruct (foldM _ (range 0 h) _) as [acc|r'] eqn:E; cbn [bind]; [discriminate|].
    intros [= <-]. revert E. apply foldM_only. intros s dy r. apply Hinner.
  - intros Hw Hh Hlen. unfold sub_region_diff, region_loop.
    rewrite (foldM_raises _ _ IndexError); [reflexivity| |].
    + intros s dy r. apply Hinner.
    + exists (h - 1). split; [apply list_elem_of_In, elem_of_range; lia|].
      apply foldM_raises.
      * intros s a r. apply diff_pixel_only_IndexError.
      * exists (w - 1). split; [apply list_elem_of_In, elem_of_range; lia|].
        intros s. now apply diff_pixel_beyond.
Qed.

(** ** Where the threshold lies *)

Ltac qhalf := unfold Qdiv in *; change (/ 2)%Q with (1 # 2)%Q in *.

Lemma sorted_In (diffs : list Q) (d : Q) : In d (sorted diffs) <-> In d diffs.
Proof.
  split; apply Permutation_in; [symmetry|]; apply sorted_perm.
Qed.

(** X9. For a pool with two distinct values the discovered threshold
    splits the ascending-sorted pool at the gap index [g]: the [g]
    smallest samples are strictly below it, all others strictly above,
    and no sample equals it.  So at least one sample counts as "neighbour
    present" and at least one as "neighbour absent". *)
Theorem X9_threshold_separates :
  forall diffs : list Q,
    (exists a b, In a diffs /\ In b diffs /\ ~ (a == b)%Q) ->
    exists g t,
      find_threshold diffs = Ok t /\ 1 <= g < len diffs /\
      (forall i, 0 <= i < g -> (item (sorted diffs) i < t)%Q) /\
      (forall i, g <= i < len diffs -> (t < item (sorted diffs) i)%Q) /\
      (forall d, In d diffs -> (d < t)%Q \/ (t < d)%Q).
Proof.
  intros diffs Hdist.
  destruct (find_threshold_midpoint diffs Hdist) as (g & (Hg & Hpos & _) & Ht).
  rewrite len_sorted in Hg. pose proof (sorted_ascending diffs) as Hs.
  exists g. eexists. split; [exact Ht|]. split; [exact Hg|].
  unfold gap in Hpos.
  assert (forall i, 0 <= i < g ->
            (item (sorted diffs) i
             < (item (sorted diffs) (g - 1) + item (sorted diffs) g) / 2)%Q) as Hlow.
  { intros i Hi.
    pose proof (sorted_item_le _ Hs i (g - 1) ltac:(lia)
                  ltac:(rewrite len_sorted; lia)) as Hle.
    qhalf. lra. }
  assert (forall i, g <= i < len diffs ->
            ((item (sorted diffs) (g - 1) + item (sorted diffs) g) / 2
             < item (sorted diffs) i)%Q) as Hhigh.
  { intros i Hi.
    pose proof (sorted_item_le _ Hs g i ltac:(lia)
                  ltac:(rewrite len_sorted; lia)) as Hle.
    qhalf. lra. }
  split; [exact Hlow|]. split; [exact Hhigh|].
  intros d Hd. apply sorted_In, In_item in Hd as (i & Hi & <-).
  rewrite len_sorted in Hi.
  destruct (Z.lt_ge_cases i g); [left; apply Hlow | right; apply Hhigh]; lia.
Qed.

(** X9 on the edge pool of [sheet_A]. *)
Lemma X9_witness :
  exists g t,
    find_threshold (edge_pool sheet_A) = Ok t /\ 1 <= g < len (edge_pool sheet_A) /\
    (forall d, In d (edge_pool sheet_A) -> (d < t)%Q \/ (t < d)%Q).
Proof.
  destruct (X9_threshold_separates (edge_pool sheet_A)) as (g & t & Ht & Hg & _ & _ & H).
  - exists (2154000 # 30), (0 # 30). split; [vm_compute; tauto|].
    split; [vm_compute; tauto|]. vm_compute. discriminate.
  - exists g, t. auto.
Defined.

Lemma threshold_bounds :
  forall (diffs : list Q) (t : Q),
    find_threshold diffs = Ok t ->
    (forall d, In d diffs -> (0 <= d)%Q) ->
    exists m,
      In m diffs /\ (forall d, In d diffs -> (d <= m)%Q) /\
      (0 <= t <= m)%Q /\ ((t == 0)%Q <-> (m == 0)%Q) /\ Qltb m t = false.
Proof.
  intros diffs t Ht Hnn.
  pose proof (sorted_ascending diffs) as Hs.
  assert (diffs <> []) as Hne by (intros ->; discriminate Ht).
  assert (0 < len (sorted diffs)) as Hlen.
  { rewrite len_sorted. destruct diffs; [congruence | unfold len; simpl; lia]. }
  set (m := item (sorted diffs) (len (sorted diffs) - 1)).
  assert (In m diffs) as Hm by (apply sorted_In, item_In; lia).
  assert (forall d, In d diffs -> (d <= m)%Q) as Hmax.
  { intros d Hd. apply sorted_In, In_item in Hd as (i & Hi & <-).
    apply sorted_item_le; [exact Hs | lia | lia]. }
  exists m. split; [exact Hm|]. split; [exact Hmax|].
  pose proof (Hnn m Hm) as Hm0. rewrite Qltb_ge.
  destruct (find_threshold_spec diffs)
    as [(-> & _) | [(_ & _ & Ht') | (g & (Hg & Hpos & _) & Ht')]]; [congruence | |];
    rewrite Ht' in Ht; injection Ht as <-.
  - fold m. qhalf. repeat split; try lra; intros H; lra.
  - unfold gap in Hpos.
    pose proof (Hnn _ (proj1 (sorted_In diffs _) (item_In (sorted diffs) (g - 1) ltac:(lia))))
      as Ha.
    pose proof (Hmax _ (proj1 (sorted_In diffs _) (item_In (sorted diffs) g ltac:(lia))))
      as Hb.
    qhalf. repeat split; try lra; intros H; lra.
Qed.


(** X10. For a pool of non-negative samples a discovered threshold lies
    between 0 and the largest sample, is 0 only when every sample is 0,
    and never exceeds the largest sample: the largest sample of a pool is
    never counted as "neighbour present". *)
Theorem X10_threshold_bounds :
  forall (diffs : list Q) (t : Q),
    find_threshold diffs = Ok t ->
    (forall d, In d diffs -> (0 <= d)%Q) ->
    exists m,
      In m diffs /\ (forall d, In d diffs -> (d <= m)%Q) /\
      (0 <= t <= m)%Q /\ ((t == 0)%Q <-> (m == 0)%Q) /\ Qltb m t = false.
Proof. exact threshold_bounds. Qed.

(** X10 on the edge pool of [sheet_A]. *)
Lemma X10_witness :
  exists t m,
    find_threshold (edge_pool sheet_A) = Ok t /\ In m (edge_pool sheet_A) /\
    (0 <= t <= m)%Q /\ Qltb m t = false.
Proof.
  destruct (find_threshold (edge_pool sheet_A)) as [t|x] eqn:E;
    [|vm_compute in E; discriminate E].
  destruct (X10_threshold_bounds (edge_pool sheet_A) t E) as (m & Hm & _ & Ht & _ & Hlt).
  - intros d Hd. vm_compute in Hd.
    repeat (destruct Hd as [<- | Hd]; [vm_compute; discriminate|]). destruct Hd.
  - exists t, m. auto.
Defined.

(** ** How the reference cell itself is classified *)

Lemma mean_nonneg (l : list Q) : Forall (fun q => (0 <= q)%Q) l -> (0 <= mean l)%Q.
Proof.
  intros H. unfold mean, len. destruct l as [|x l].
  - vm_compute. discriminate.
  - apply Qdiv_pos_den_nonneg; [simpl; lia | now apply Qsum_nonneg].
Qed.

Lemma region_score_nonneg (ref_rgb : list rgb) (cell : list rgba) (r : region) :
  (0 <= region_score ref_rgb cell r)%Q.
Proof.
  unfold region_score. apply mean_nonneg, Forall_forall. intros q Hq.
  apply list_elem_of_fmap in Hq as (idx & -> & _). apply pixel_score_nonneg.
Qed.

Lemma In_edge_pool (pixels : image) (q : Q) :
  In q (edge_pool pixels) <->
  exists cr r, In cr (used_cells pixels) /\ In r [North; West; East; South] /\
               q = region_score (ref_of pixels) (get_cell pixels cr.1 cr.2) r.
Proof.
  unfold edge_pool. rewrite in_flat_map. split.
  - intros (cr & Hcr & Hq). unfold edge_scores in Hq. simpl in Hq.
    exists cr. destruct Hq as [<- | [<- | [<- | [<- | []]]]]; eexists;
      (split; [exact Hcr|]); (split; [|reflexivity]); simpl; tauto.
  - intros (cr & r & Hcr & Hr & ->). exists cr. split; [exact Hcr|].
    unfold edge_scores. simpl in *.
    destruct Hr as [<- | [<- | [<- | [<- | []]]]]; tauto.
Qed.

Lemma In_corner_pool (pixels : image) (q : Q) :
  In q (corner_pool pixels) <->
  exists cr r, In cr (used_cells pixels) /\
               In r [NorthWest; NorthEast; SouthWest; SouthEast] /\
               q = region_score (ref_of pixels) (get_cell pixels cr.1 cr.2) r.
Proof.
  unfold corner_pool. rewrite in_flat_map. split.
  - intros (cr & Hcr & Hq). unfold corner_scores in Hq. simpl in Hq.
    exists cr. destruct Hq as [<- | [<- | [<- | [<- | []]]]]; eexists;
      (split; [exact Hcr|]); (split; [|reflexivity]); simpl; tauto.
  - intros (cr & r & Hcr & Hr & ->). exists cr. split; [exact Hcr|].
    unfold corner_scores. simpl in *.
    destruct Hr as [<- | [<- | [<- | [<- | []]]]]; tauto.
Qed.

Lemma opaque_not_transparent (pixels : image) (c r : Z) :
  opaque (get_cell pixels c r) = true -> transparent (get_cell pixels c r) = false.
Proof.
  intros Hop. apply not_true_is_false. intros Htr.
  pose proof (get_cell_lookup pixels c r 0 0 ltac:(unfold TILE; lia) ltac:(unfold TILE; lia))
    as Hp.
  apply list_elem_of_lookup_2, list_elem_of_In in Hp.
  unfold opaque, transparent in *. rewrite forallb_forall in Hop, Htr.
  specialize (Hop _ Hp). specialize (Htr _ Hp).
  apply Z.leb_le in Hop. apply Z.ltb_lt in Htr. lia.
Qed.

Lemma reference_scores_zero (pixels : image) (r : region) :
  opaque (get_cell pixels 1 0) = true ->
  (region_score (ref_of pixels) (get_cell pixels 1 0) r == 0)%Q.
Proof.
  intros Hop. apply region_score_zero. intros idx Hidx.
  assert (0 <= idx < TILE * TILE) as Hrange.
  { clear -Hidx. destruct r;
      match type of Hidx with
      | context [region_box ?r] =>
          let b := eval vm_compute in (region_box r) in
          change (region_box r) with b in Hidx
      end;
      apply elem_of_rect_offsets in Hidx;
      destruct Hidx as (px & py & Hx & Hy & ->); unfold TILE; lia. }
  destruct (lookup_lt_is_Some_2 (get_cell pixels 1 0) (Z.to_nat idx)) as [p Hp].
  { pose proof (len_get_cell pixels 1 0) as Hl. unfold len, TILE in *. lia. }
  unfold ref_of. apply (pixel_score_same _ _ _ p); [exact Hp | exact Hp|].
  unfold opaque in Hop. rewrite forallb_forall in Hop.
  apply Z.leb_le. apply Hop. apply list_elem_of_In.
  exact (list_elem_of_lookup_2 _ _ _ Hp).
Qed.


Lemma threshold_positive (diffs : list Q) (t : Q) :
  find_threshold diffs = Ok t ->
  (forall d, In d diffs -> (0 <= d)%Q) ->
  (exists d, In d diffs /\ (0 < d)%Q) ->
  (0 < t)%Q.
Proof.
  intros Ht Hnn (d & Hd & Hpos).
  destruct (threshold_bounds diffs t Ht Hnn) as (m & Hm & Hmax & Hrange & Hzero & _).
  pose proof (Hmax d Hd). destruct (Qlt_le_dec 0 t) as [H0 | H0]; [exact H0|].
  assert (t == 0)%Q as Hz by lra. apply Hzero in Hz. lra.
Qed.

(** X11. In a completed analysis of a sheet whose reference cell is
    fully opaque, once some used cell has a positive edge score and some
    used cell a positive corner score, both discovered thresholds are
    positive and the reference cell at (1,0) is classified 255. *)
Theorem X11_reference_is_255 :
  forall (pixels : image) (results : list entry) (rep : report),
    analyze_sheet pixels = Ok (results, rep) ->
    opaque (get_cell pixels 1 0) = true ->
    (exists q, In q (edge_pool pixels) /\ (0 < q)%Q) ->
    (exists q, In q (corner_pool pixels) /\ (0 < q)%Q) ->
    (0 < edge_thresh rep)%Q /\ (0 < corner_thresh rep)%Q /\
    exists e, entry_at results 1 0 = Some e /\ mask e = Some 255.
Proof.
  intros pixels results rep Hrun Hop Hedge Hcorner.
  apply analyze_sheet_inv in Hrun as (-> & _ & _ & Het & Hct & _).
  assert (0 < edge_thresh rep)%Q as Het0.
  { apply (threshold_positive _ _ Het); [|exact Hedge].
    intros d Hd. apply In_edge_pool in Hd as (cr & r & _ & _ & ->).
    apply region_score_nonneg. }
  assert (0 < corner_thresh rep)%Q as Hct0.
  { apply (threshold_positive _ _ Hct); [|exact Hcorner].
    intros d Hd. apply In_corner_pool in Hd as (cr & r & _ & _ & ->).
    apply region_score_nonneg. }
  split; [exact Het0|]. split; [exact Hct0|].
  exists (final_entry pixels (edge_thresh rep) (corner_thresh rep) (1, 0)).
  split; [apply entry_at_final; unfold COLS, ROWS; lia|].
  unfold final_entry. simpl fst. simpl snd. rewrite (opaque_not_transparent _ _ _ Hop).
  cbn [mask]. f_equal. unfold classify_mask, edge_scores, corner_scores.
  rewrite !(Qltb_zero_score _ _ (reference_scores_zero pixels North Hop) Het0).
  rewrite !(Qltb_zero_score _ _ (reference_scores_zero pixels West Hop) Het0).
  rewrite !(Qltb_zero_score _ _ (reference_scores_zero pixels East Hop) Het0).
  rewrite !(Qltb_zero_score _ _ (reference_scores_zero pixels South Hop) Het0).
  rewrite !(Qltb_zero_score _ _ (reference_scores_zero pixels NorthWest Hop) Hct0).
  rewrite !(Qltb_zero_score _ _ (reference_scores_zero pixels NorthEast Hop) Hct0).
  rewrite !(Qltb_zero_score _ _ (reference_scores_zero pixels SouthWest Hop) Hct0).
  rewrite !(Qltb_zero_score _ _ (reference_scores_zero pixels SouthEast Hop) Hct0).
  reflexivity.
Qed.

(** X11 on [sheet_A]. *)
Lemma X11_witness :
  exists results rep e,
    analyze_sheet sheet_A = Ok (results, rep) /\
    entry_at results 1 0 = Some e /\ mask e = Some 255.
Proof.
  destruct (analyze_sheet sheet_A) as [[results rep]|x] eqn:E;
    [|vm_compute in E; discriminate E].
  destruct (X11_reference_is_255 sheet_A results rep E) as (_ & _ & e & He).
  - vm_compute. reflexivity.
  - exists (2154000 # 30). split; [vm_compute; tauto | reflexivity].
  - exists (215400 # 16). split; [vm_compute; tauto | reflexivity].
  - exists results, rep, e. split; [reflexivity | exact He].
Defined.

Lemma classify_mask_no_cardinal (es cs : quad) (et ct : Q) :
  (forall q, In q (quad_list es) -> Qltb q et = false) ->
  classify_mask es cs et ct = 0.
Proof.
  destruct es as [[[n w] e] s], cs as [[[nw ne] sw] se]. intros H.
  unfold classify_mask.
  rewrite (H n), (H w), (H e), (H s) by (simpl; tauto). reflexivity.
Qed.

(** X12. When every used cell matches the reference on all four edge
    strips (every edge score is 0), the discovered edge threshold is 0
    and no score is below it: a completed analysis then classifies every
    used cell as 0, the reference cell included, whatever the corners
    show. *)
Theorem X12_flat_edges_give_zero_masks :
  forall (pixels : image) (results : list entry) (rep : report),
    analyze_sheet pixels = Ok (results, rep) ->
    (forall q, In q (edge_pool pixels) -> (q == 0)%Q) ->
    (edge_thresh rep == 0)%Q /\
    forall e, e ∈ results -> mask e = Some 0 \/ mask e = Some (-1).
Proof.
  intros pixels results rep Hrun Hflat.
  apply analyze_sheet_inv in Hrun as (-> & _ & _ & Het & _).
  assert (edge_thresh rep == 0)%Q as Ht.
  { assert (edge_pool pixels <> []) as Hne by (intros E; rewrite E in Het; discriminate Het).
    destruct (find_threshold_degenerate (edge_pool pixels) 0 Hne (Qle_refl 0))
      as (t & Ht & Hzero).
    - intros d Hd. left. now apply Hflat.
    - destruct (edge_pool pixels) as [|d l]; [congruence|].
      exists d. split; [now left | apply Hflat; now left].
    - rewrite Het in Ht. injection Ht as <-. rewrite Hzero. reflexivity. }
  split; [exact Ht|].
  intros e He. apply list_elem_of_fmap in He as (cr & -> & Hcr).
  apply list_elem_of_In in Hcr.
  unfold final_entry. destruct (transparent (get_cell pixels cr.1 cr.2)) eqn:Etr;
    [right; reflexivity|].
  left. cbn [mask]. f_equal. apply classify_mask_no_cardinal.
  intros q Hq. apply Qltb_ge. rewrite Ht.
  assert (In q (edge_pool pixels)) as Hin.
  { unfold edge_pool. apply in_flat_map. exists cr. split; [|exact Hq].
    unfold used_cells. apply filter_In. split; [exact Hcr | now rewrite Etr]. }
  rewrite (Hflat q Hin). apply Qle_refl.
Qed.

(** X12 on [sheet_C], where a single middle pixel of cell (0,0) deviates. *)
Lemma X12_witness :
  exists results rep,
    analyze_sheet sheet_C = Ok (results, rep) /\
    (edge_thresh rep == 0)%Q /\
    forall e, e ∈ results -> mask e = Some 0 \/ mask e = Some (-1).
Proof.
  destruct (analyze_sheet sheet_C) as [[results rep]|x] eqn:E;
    [|vm_compute in E; discriminate E].
  exists results, rep. split; [reflexivity|].
  apply (X12_flat_edges_give_zero_masks sheet_C results rep E).
  intros q Hq. vm_compute in Hq.
  repeat (destruct Hq as [<- | Hq]; [reflexivity|]). destruct Hq.
Defined.

(** ** The report stages *)

Lemma mapM_length {A B} (f : A -> result B) (l : list A) (l' : list B) :
  mapM f l = Ok l' -> length l' = length l.
Proof.
  revert l'. induction l as [|a l IH]; intros l'; simpl.
  - now intros [= <-].
  - intros H. apply bind_Ok in H as (b & _ & H).
    apply bind_Ok in H as (bs & Hbs & [= <-]). simpl. f_equal. now apply IH.
Qed.

Lemma mapM_Forall {A B} (f : A -> result B) (P : B -> Prop) (l : list A) (l' : list B) :
  mapM f l = Ok l' -> (forall a b, f a = Ok b -> P b) -> Forall P l'.
Proof.
  revert l'. induction l as [|a l IH]; intros l'; simpl.
  - intros [= <-] _. constructor.
  - intros H HP. apply bind_Ok in H as (b & Hb & H).
    apply bind_Ok in H as (bs & Hbs & [= <-]). constructor; eauto.
Qed.

Lemma mapM_only {A B} (f : A -> result B) (P : exn -> Prop) (l : list A) :
  (forall a r, f a = Raise r -> P r) -> forall r, mapM f l = Raise r -> P r.
Proof.
  intros Honly. induction l as [|a l IH]; intros r; simpl; [discriminate|].
  destruct (f a) as [b|r'] eqn:E; cbn [bind].
  - destruct (mapM f l) as [bs|r''] eqn:E'; cbn [bind]; [discriminate|].
    intros [= <-]. now apply IH.
  - intros [= <-]. eapply Honly, E.
Qed.

Lemma getitem_Ok_inv {A} (l : list A) (i : Z) (x : A) :
  0 <= i -> getitem l i = Ok x -> l !! Z.to_nat i = Some x.
Proof.
  intros Hi. unfold getitem. destruct (Z.ltb_spec i 0); [lia|].
  destruct (Z.ltb_spec i 0); [lia|]. destruct (l !! Z.to_nat i); congruence.
Qed.

Lemma int_mask_only_TypeError (e : entry) (r : exn) :
  int_mask e = Raise r -> r = TypeError.
Proof. unfold int_mask. destruct (mask e); congruence. Qed.

Lemma grid_slot_cases (results : list entry) (r c : Z) (x : exn) :
  (let! e := getitem results (r * COLS + c) in
   let! m := int_mask e in
   Ok (if m <? 0 then None else Some m)) = Raise x ->
  x = IndexError \/ x = TypeError.
Proof.
  destruct (getitem results (r * COLS + c)) as [e|x'] eqn:E; cbn [bind].
  - destruct (int_mask e) as [m|x'] eqn:E'; cbn [bind]; [discriminate|].
    intros [= <-]. right. eapply int_mask_only_TypeError, E'.
  - intros [= <-]. left. eapply getitem_only_IndexError, E.
Qed.

(** X13. When the grid is printed it has 4 rows of 12 slots; slot
    [(r, c)] belongs to the entry at index [r * 12 + c] and shows its
    mask, or the placeholder when the mask is negative; and the list of
    results holds at least 48 entries.  Printing can fail only with an
    [IndexError] (fewer entries) or a [TypeError] (an entry that was
    never classified). *)
Theorem X13_grid_shape :
  forall results : list entry,
    (forall x, print_grid results = Raise x -> x = IndexError \/ x = TypeError) /\
    (forall g, print_grid results = Ok g ->
       len g = ROWS /\ Forall (fun line => len line = COLS) g /\
       COLS * ROWS <= len results /\
       forall c r, 0 <= c < COLS -> 0 <= r < ROWS ->
         exists e m line,
           entry_at results c r = Some e /\ mask e = Some m /\
           g !! Z.to_nat r = Some line /\
           line !! Z.to_nat c = Some (if m <? 0 then None else Some m)).
Proof.
  intros results. split.
  - unfold print_grid.
    apply (mapM_only _ (fun x => x = IndexError \/ x = TypeError)).
    intros r. apply (mapM_only _ (fun x => x = IndexError \/ x = TypeError)).
    intros c x. apply grid_slot_cases.
  - intros g Hg.
    assert (forall c r, 0 <= c < COLS -> 0 <= r < ROWS ->
              exists e m line,
                entry_at results c r = Some e /\ mask e = Some m /\
                g !! Z.to_nat r = Some line /\
                line !! Z.to_nat c = Some (if m <? 0 then None else Some m)) as Hslots.
    { intros c r Hc Hr. unfold print_grid in Hg.
      destruct (mapM_lookup _ _ _ Hg (Z.to_nat r) r) as (line & Hline & Hrow).
      { rewrite range_lookup by (unfold ROWS in *; lia). f_equal. lia. }
      destruct (mapM_lookup _ _ _ Hrow (Z.to_nat c) c) as (slot & Hslot & Hcell).
      { rewrite range_lookup by (unfold COLS in *; lia). f_equal. lia. }
      apply bind_Ok in Hcell as (e & He & Hcell).
      apply bind_Ok in Hcell as (m & Hm & [= <-]).
      apply getitem_Ok_inv in He; [|unfold COLS in *; lia].
      unfold int_mask in Hm. destruct (mask e) as [m'|] eqn:Em; [|discriminate].
      injection Hm as ->. exists e, m, line. auto. }
    split; [|split; [|split; [|exact Hslots]]].
    + unfold len. rewrite (mapM_length _ _ _ Hg), length_range. reflexivity.
    + apply (mapM_Forall _ _ _ _ Hg). intros r line Hline.
      unfold len. rewrite (mapM_length _ _ _ Hline), length_range. reflexivity.
    + destruct (Hslots 11 3 ltac:(unfold COLS; lia) ltac:(unfold ROWS; lia))
        as (e & _ & _ & He & _).
      unfold entry_at in He. apply lookup_lt_Some in He.
      unfold len, COLS, ROWS in *. lia.
Qed.

(** ** The validator *)

Lemma used_masks_only_TypeError (results : list entry) (r : exn) :
  used_masks results = Raise r -> r = TypeError.
Proof.
  unfold used_masks. apply foldM_only. intros masks e r'.
  destruct (int_mask e) as [m|x] eqn:E; cbn [bind]; [discriminate|].
  intros [= <-]. eapply int_mask_only_TypeError, E.
Qed.

(** X14. The validator returns a report exactly when every entry carries
    an integer mask; otherwise it stops with a [TypeError] and with no
    other exception.  Its counts are consistent: the number of distinct
    observed masks plus the number of missing ones equals 47 plus the
    number of unexpected ones. *)
Theorem X14_validator_outcome :
  forall results : list entry,
    ((exists v, validate results = Ok v) <->
     Forall (fun e => is_Some (mask e)) results) /\
    (forall r, validate results = Raise r -> r = TypeError) /\
    (forall v, validate results = Ok v ->
       unique v + Z.of_nat (size (missing v)) = 47 + Z.of_nat (size (extra v))).
Proof.
  intros results. split; [|split].
  - split; [intros (v & Hv); now apply validate_inv in Hv | apply validate_Ok].
  - intros r. unfold validate.
    destruct (used_masks results) as [masks|x] eqn:E; cbn [bind].
    + apply used_masks_inv in E as (Hall & _).
      destruct (_ && _); cbn [bind]; [|discriminate].
      unfold emit_mapping. rewrite keyed_Ok by exact Hall. discriminate.
    + intros [= <-]. eapply used_masks_only_TypeError, E.
  - intros v Hv. apply validate_inv in Hv as (_ & -> & -> & -> & _).
    set (P := list_to_set (observed results) : gset Z).
    pose proof (size_union_alt P expected_47) as H1.
    pose proof (size_union_alt expected_47 P) as H2.
    rewrite (union_comm_L expected_47 P) in H2.
    assert (size expected_47 = 47%nat) as H47 by reflexivity. lia.
Qed.

(** X14 on [planted]. *)
Lemma X14_witness :
  exists v, validate planted = Ok v /\
            unique v + Z.of_nat (size (missing v)) = 47 + Z.of_nat (size (extra v)).
Proof.
  destruct (validate planted) as [v|x] eqn:E; [|vm_compute in E; discriminate E].
  exists v. split; [reflexivity|].
  exact (proj2 (proj2 (X14_validator_outcome planted)) v E).
Defined.

(** ** The emitted table *)

Lemma occurrences_cons (m x : Z) (l : list Z) :
  occurrences m (x :: l) = (if m =? x then 1 else 0) + occurrences m l.
Proof.
  unfold occurrences, len. simpl. destruct (m =? x); simpl; lia.
Qed.

Lemma NoDup_occurrences (l : list Z) :
  (forall m, occurrences m l <= 1) -> NoDup l.
Proof.
  induction l as [|x l IH]; intros H; [constructor|].
  constructor.
  - intros Hx. apply occurrences_pos in Hx.
    specialize (H x). rewrite occurrences_cons, Z.eqb_refl in H. lia.
  - apply IH. intros m. specialize (H m). rewrite occurrences_cons in H.
    destruct (m =? x); lia.
Qed.

Lemma triples_masks (results : list entry) :
  map (fun t : Z * Z * Z => t.1.1) (triples results) = observed results.
Proof.
  unfold triples, observed. induction results as [|e l IH]; [reflexivity|].
  cbn [omap list_omap]. destruct (mask e) as [m|]; [|exact IH].
  cbn [List.filter]. destruct (0 <=? m); cbn [map fst]; [f_equal|]; exact IH.
Qed.

Lemma canonical_masks_sorted : StronglySorted Z.le canonical_masks.
Proof.
  apply Sorted_StronglySorted; [intros x y z; apply Z.le_trans|].
  unfold canonical_masks. repeat (constructor; [|try constructor; lia]). constructor.
Qed.

Lemma canonical_masks_set : list_to_set canonical_masks = expected_47.
Proof. reflexivity. Qed.

Lemma perfect_observed (results : list entry) (v : validation) :
  validate results = Ok v -> perfect v = true ->
  NoDup (observed results) /\ (forall m, m ∈ observed results <-> m ∈ canonical_masks).
Proof.
  intros Hv Hp.
  apply validate_inv in Hv as (_ & _ & Hmiss & Hextra & Hdup & Hperf & _).
  rewrite Hp in Hperf. symmetry in Hperf.
  rewrite !andb_true_iff, !bool_decide_eq_true in Hperf.
  destruct Hperf as ((Hm & He) & Hd). split.
  - apply NoDup_occurrences. intros m.
    destruct (Z.le_gt_cases (occurrences m (observed results)) 1) as [|Hgt]; [assumption|].
    apply duplicated_lookup in Hgt.
    + rewrite <- Hdup, Hd, lookup_empty in Hgt. destruct Hgt as [x Hx]. discriminate Hx.
    + intros x Hx. now apply elem_of_observed in Hx as (Hx & _).
  - intros m. rewrite Hmiss in Hm. rewrite Hextra in He.
    rewrite <- (elem_of_list_to_set (C := gset Z) m (observed results)).
    rewrite <- (elem_of_list_to_set (C := gset Z) m canonical_masks), canonical_masks_set.
    split; intros H.
    + destruct (decide (m ∈ expected_47)) as [|Hn]; [assumption | exfalso].
      apply (not_elem_of_empty (C := gset Z) m). rewrite <- He.
      now apply elem_of_difference.
    + destruct (decide (m ∈ (list_to_set (observed results) : gset Z))) as [|Hn];
        [assumption | exfalso].
      apply (not_elem_of_empty (C := gset Z) m). rewrite <- Hm.
      now apply elem_of_difference.
Qed.

Lemma NoDup_occurrences_le (l : list Z) (m : Z) : NoDup l -> occurrences m l <= 1.
Proof.
  induction 1 as [|x l Hx Hl IH]; [unfold occurrences, len; simpl; lia|].
  rewrite occurrences_cons. destruct (Z.eqb_spec m x) as [-> | Hne]; [|lia].
  destruct (Z.le_gt_cases (occurrences x l) 0) as [|Hpos]; [lia|].
  apply occurrences_pos in Hpos. contradiction.
Qed.

Lemma perfect_of_perm (results : list entry) (v : validation) :
  validate results = Ok v -> observed results ≡ₚ canonical_masks -> perfect v = true.
Proof.
  intros Hv Hobs.
  apply validate_inv in Hv as (_ & _ & Hmiss & Hextra & Hdup & Hperf & _).
  assert (list_to_set (observed results) = expected_47) as Hset.
  { rewrite <- canonical_masks_set. now apply list_to_set_perm_L. }
  rewrite Hset in Hmiss, Hextra. rewrite difference_diag_L in Hmiss, Hextra.
  assert (duplicated v = ∅) as Hd.
  { apply map_empty. intros m. apply eq_None_not_Some. intros Hsome.
    rewrite Hdup in Hsome. apply duplicated_lookup in Hsome.
    - assert (NoDup (observed results)) as Hnd.
      { rewrite Hobs. compute_done. }
      pose proof (NoDup_occurrences_le _ m Hnd). lia.
    - intros x Hx. now apply elem_of_observed in Hx as (Hx & _). }
  rewrite Hperf, Hmiss, Hextra, Hd. reflexivity.
Qed.

Lemma perfect_table (results : list entry) (v : validation) :
  validate results = Ok v -> perfect v = true ->
  exists tbl,
    mapping v = Some tbl /\
    map (fun t : Z * Z * Z => t.1.1) tbl = canonical_masks /\
    tbl ≡ₚ triples results /\ observed results ≡ₚ canonical_masks.
Proof.
  intros Hv Hp.
  destruct (perfect_observed results v Hv Hp) as (Hnd & Hmem).
  apply validate_inv in Hv as (Hall & _ & _ & _ & _ & _ & Hmap).
  rewrite Hp in Hmap. destruct Hmap as (tbl & Htbl & Hmapping).
  apply emit_mapping_spec in Htbl as (Hsorted & Hperm); [|exact Hall].
  assert (observed results ≡ₚ canonical_masks) as Hobs.
  { apply list.NoDup_Permutation; [exact Hnd | compute_done | exact Hmem]. }
  exists tbl. split; [exact Hmapping|]. split; [|split; [exact Hperm | exact Hobs]].
  apply (StronglySorted_unique Z.le).
  - apply (StronglySorted_map mask_le); [now intros x y | exact Hsorted].
  - exact canonical_masks_sorted.
  - rewrite <- Hobs, <- triples_masks. now apply Permutation_map.
Qed.

(** X15. The validator reports a perfect match exactly when the masks in
    use are the 47 canonical masks, each at one cell.  The emitted table
    then has exactly 47 rows, its mask column is the canonical list in
    ascending order, and the count of distinct masks is 47. *)
Theorem X15_perfect_table :
  forall (results : list entry) (v : validation),
    validate results = Ok v ->
    (perfect v = true <-> observed results ≡ₚ canonical_masks) /\
    (perfect v = true ->
     exists tbl,
       mapping v = Some tbl /\
       map (fun t : Z * Z * Z => t.1.1) tbl = canonical_masks /\
       len tbl = 47 /\ unique v = 47).
Proof.
  intros results v Hv. split.
  - split; [|now apply perfect_of_perm].
    intros Hp. now destruct (perfect_table results v Hv Hp) as (tbl & _ & _ & _ & Hobs).
  - intros Hp. destruct (perfect_table results v Hv Hp) as (tbl & Hm & Hcol & _ & Hobs).
    exists tbl. split; [exact Hm|]. split; [exact Hcol|]. split.
    + unfold len. rewrite <- (length_map (fun t : Z * Z * Z => t.1.1)), Hcol. reflexivity.
    + apply validate_inv in Hv as (_ & -> & _).
      rewrite (list_to_set_perm_L _ _ Hobs), canonical_masks_set. reflexivity.
Qed.

(** X15 on [planted]. *)
Lemma X15_witness :
  exists v tbl,
    validate planted = Ok v /\ perfect v = true /\ mapping v = Some tbl /\
    map (fun t : Z * Z * Z => t.1.1) tbl = canonical_masks.
Proof.
  destruct (validate planted) as [v|x] eqn:E; [|vm_compute in E; discriminate E].
  destruct (X15_perfect_table planted v E) as (Hiff & Htbl).
  assert (perfect v = true) as Hp by (apply Hiff; compute_done).
  destruct (Htbl Hp) as (tbl & Hmap & Hcol & _).
  exists v, tbl. auto.
Defined.

(** ** Two clusters *)

Lemma cluster_crossing (l : list Q) (L H : Q) (n : nat) :
  (forall i, 0 <= i < len l -> (item l i <= L)%Q \/ (H <= item l i)%Q) ->
  forall i j, Z.to_nat (j - i) = n -> 0 <= i < j -> j < len l ->
    (item l i <= L)%Q -> (H <= item l j)%Q ->
    exists k, i < k <= j /\ (item l (k - 1) <= L)%Q /\ (H <= item l k)%Q.
Proof.
  intros Hcl. induction n as [|n IH]; intros i j Hn Hij Hj Hi Hhi; [lia|].
  destruct (Hcl (i + 1) ltac:(lia)) as [Hlow | Hhigh].
  - destruct (Z.eq_dec (i + 1) j) as [<- | Hne].
    + exists (i + 1). replace (i + 1 - 1) with i by lia. split; [lia | auto].
    + destruct (IH (i + 1) j ltac:(lia) ltac:(lia) Hj Hlow Hhi) as (k & Hk & Hk1 & Hk2).
      exists k. split; [lia | auto].
  - exists (i + 1). replace (i + 1 - 1) with i by lia. split; [lia | auto].
Qed.

Lemma threshold_bimodal :
  forall (diffs : list Q) (a L H b : Q),
    (forall d, In d diffs -> (a <= d <= L)%Q \/ (H <= d <= b)%Q) ->
    (exists d, In d diffs /\ (d <= L)%Q) ->
    (exists d, In d diffs /\ (H <= d)%Q) ->
    (L - a < H - L)%Q -> (b - H < H - L)%Q ->
    exists t lo hi,
      find_threshold diffs = Ok t /\ (t == (lo + hi) / 2)%Q /\
      In lo diffs /\ (lo <= L)%Q /\ In hi diffs /\ (H <= hi)%Q /\
      forall d, In d diffs ->
        ((d <= L)%Q -> (d <= lo)%Q /\ (d < t)%Q) /\
        ((H <= d)%Q -> (hi <= d)%Q /\ (t < d)%Q).
Proof.
  intros diffs a L H b Hcl (dl & Hdl & HdlL) (dh & Hdh & HdhH) Hlow Hhigh.
  pose proof (sorted_ascending diffs) as Hs.
  assert (L < H)%Q as HLH.
  { destruct (Hcl dl Hdl) as [Hc | Hc]; lra. }
  assert (forall i, 0 <= i < len (sorted diffs) ->
            (a <= item (sorted diffs) i <= L)%Q \/ (H <= item (sorted diffs) i <= b)%Q)
    as Hitem.
  { intros i Hi. apply Hcl, sorted_In, item_In, Hi. }
  assert (forall i, 0 <= i < len (sorted diffs) ->
            (item (sorted diffs) i <= L)%Q \/ (H <= item (sorted diffs) i)%Q) as Hitem'.
  { intros i Hi. destruct (Hitem i Hi); [left | right]; tauto. }
  destruct (find_threshold_midpoint diffs) as (g & (Hg & Hpos & Hmax & _) & Ht).
  { exists dl, dh. split; [exact Hdl|]. split; [exact Hdh|]. intros E. lra. }
  apply sorted_In, In_item in Hdl as (il & Hil & Eil).
  apply sorted_In, In_item in Hdh as (ih & Hih & Eih).
  assert (il < ih) as Hlt.
  { destruct (Z.lt_ge_cases il ih) as [|Hge]; [assumption | exfalso].
    pose proof (sorted_item_le _ Hs ih il ltac:(lia) ltac:(lia)) as Hle.
    rewrite Eil, Eih in Hle. lra. }
  destruct (cluster_crossing (sorted diffs) L H _ Hitem' il ih eq_refl
              ltac:(lia) ltac:(lia) ltac:(rewrite Eil; exact HdlL)
              ltac:(rewrite Eih; exact HdhH)) as (k & Hk & Hk1 & Hk2).
  pose proof (Hmax k ltac:(lia)) as Hgk. unfold gap in Hgk, Hpos.
  pose proof (sorted_item_le _ Hs (g - 1) g ltac:(lia) ltac:(lia)) as Hgg.
  assert (item (sorted diffs) (g - 1) <= L)%Q as Hlo.
  { destruct (Hitem (g - 1) ltac:(lia)) as [Hc | Hc]; [tauto|].
    destruct (Hitem g ltac:(lia)) as [Hc' | Hc']; lra. }
  assert (H <= item (sorted diffs) g)%Q as Hhi.
  { destruct (Hitem g ltac:(lia)) as [Hc | Hc]; [|tauto].
    destruct (Hitem (g - 1) ltac:(lia)) as [Hc' | Hc']; lra. }
  exists ((item (sorted diffs) (g - 1) + item (sorted diffs) g) / 2)%Q,
         (item (sorted diffs) (g - 1)), (item (sorted diffs) g).
  split; [exact Ht|]. split; [reflexivity|].
  split; [apply sorted_In, item_In; lia|]. split; [exact Hlo|].
  split; [apply sorted_In, item_In; lia|]. split; [exact Hhi|].
  intros d Hd. apply sorted_In, In_item in Hd as (i & Hi & <-). split; intros Hdi.
  - assert (i <= g - 1) as Hig.
    { destruct (Z.le_gt_cases i (g - 1)) as [|Hgt]; [assumption | exfalso].
      pose proof (sorted_item_le _ Hs g i ltac:(lia) ltac:(lia)). lra. }
    pose proof (sorted_item_le _ Hs i (g - 1) ltac:(lia) ltac:(lia)).
    split; [assumption|]. qhalf. lra.
  - assert (g <= i) as Hig.
    { destruct (Z.le_gt_cases g i) as [|Hgt]; [assumption | exfalso].
      pose proof (sorted_item_le _ Hs i (g - 1) ltac:(lia) ltac:(lia)). lra. }
    pose proof (sorted_item_le _ Hs g i ltac:(lia) ltac:(lia)).
    split; [assumption|]. qhalf. lra.
Qed.

(** X16. Two clusters are told apart.  When every sample of a pool lies
    in [a, L] or in [H, b], both ranges hold a sample, and each range is
    narrower than the distance [H - L] between them, the discovered
    threshold is the midpoint of the largest low sample and the smallest
    high sample: every low sample is strictly below the threshold and
    every high sample strictly above it. *)
Theorem X16_two_clusters :
  forall (diffs : list Q) (a L H b : Q),
    (forall d, In d diffs -> (a <= d <= L)%Q \/ (H <= d <= b)%Q) ->
    (exists d, In d diffs /\ (d <= L)%Q) ->
    (exists d, In d diffs /\ (H <= d)%Q) ->
    (L - a < H - L)%Q -> (b - H < H - L)%Q ->
    exists t lo hi,
      find_threshold diffs = Ok t /\ (t == (lo + hi) / 2)%Q /\
      In lo diffs /\ (lo <= L)%Q /\ In hi diffs /\ (H <= hi)%Q /\
      forall d, In d diffs ->
        ((d <= L)%Q -> (d <= lo)%Q /\ (d < t)%Q) /\
        ((H <= d)%Q -> (hi <= d)%Q /\ (t < d)%Q).
Proof. exact threshold_bimodal. Qed.

(** X16 on the pool [1, 90, 3, 100, 2]: clusters [1, 3] and [90, 100]. *)
Lemma X16_witness :
  exists t, find_threshold [1; 90; 3; 100; 2]%Q = Ok t /\ (3 < t)%Q /\ (t < 90)%Q.
Proof.
  destruct (X16_two_clusters [1; 90; 3; 100; 2]%Q 1 3 90 100)
    as (t & lo & hi & Ht & _ & _ & _ & _ & _ & Hsep).
  - intros d Hd. simpl in Hd.
    repeat (destruct Hd as [<- | Hd]; [lra|]). destruct Hd.
  - exists 1%Q. split; [simpl; tauto | lra].
  - exists 90%Q. split; [simpl; tauto | lra].
  - lra.
  - lra.
  - exists t. split; [exact Ht|]. split.
    + apply (Hsep 3%Q); [simpl; tauto | lra].
    + apply (Hsep 90%Q); [simpl; tauto | lra].
Defined.

(** ** A perfect sheet *)

Lemma observed_final (pixels : image) (et ct : Q) (l : list (Z * Z)) :
  observed (map (final_entry pixels et ct) l)
  = map (final_mask pixels et ct)
        (List.filter (fun cr => negb (transparent (get_cell pixels cr.1 cr.2))) l).
Proof.
  unfold observed. induction l as [|cr l IH]; [reflexivity|].
  cbn [map omap list_omap]. rewrite mask_final_entry. cbn [List.filter].
  unfold final_mask at 1.
  destruct (transparent (get_cell pixels cr.1 cr.2)) eqn:Et; cbn [negb].
  - exact IH.
  - pose proof (classify_mask_range
                  (edge_scores (ref_of pixels) (get_cell pixels cr.1 cr.2))
                  (corner_scores (ref_of pixels) (get_cell pixels cr.1 cr.2)) et ct) as Hr.
    destruct (Z.leb_spec 0 (classify_mask
                  (edge_scores (ref_of pixels) (get_cell pixels cr.1 cr.2))
                  (corner_scores (ref_of pixels) (get_cell pixels cr.1 cr.2)) et ct));
      [|lia].
    cbn [map]. f_equal; first [exact IH | unfold final_mask; now rewrite Et].
Qed.

Lemma triples_final (pixels : image) (et ct : Q) (l : list (Z * Z)) :
  triples (map (final_entry pixels et ct) l)
  = map (fun cr => (final_mask pixels et ct cr, cr.1, cr.2))
        (List.filter (fun cr => negb (transparent (get_cell pixels cr.1 cr.2))) l).
Proof.
  unfold triples. induction l as [|cr l IH]; [reflexivity|].
  cbn [map omap list_omap]. rewrite mask_final_entry. cbn [List.filter].
  destruct (final_entry_fields pixels et ct cr) as (Hcr & _).
  assert (col (final_entry pixels et ct cr) = cr.1
          /\ row (final_entry pixels et ct cr) = cr.2) as (-> & ->)
    by (destruct cr; injection Hcr as -> ->; auto).
  unfold final_mask at 1 2.
  destruct (transparent (get_cell pixels cr.1 cr.2)) eqn:Et; cbn [negb].
  - exact IH.
  - pose proof (classify_mask_range
                  (edge_scores (ref_of pixels) (get_cell pixels cr.1 cr.2))
                  (corner_scores (ref_of pixels) (get_cell pixels cr.1 cr.2)) et ct) as Hr.
    destruct (Z.leb_spec 0 (classify_mask
                  (edge_scores (ref_of pixels) (get_cell pixels cr.1 cr.2))
                  (corner_scores (ref_of pixels) (get_cell pixels cr.1 cr.2)) et ct));
      [|lia].
    cbn [map]. f_equal; first [exact IH | unfold final_mask; now rewrite Et].
Qed.

Lemma filter_split_length {A} (p : A -> bool) (l : list A) :
  (length (List.filter p l) + length (List.filter (fun x => negb (p x)) l))%nat = length l.
Proof.
  induction l as [|x l IH]; [reflexivity|]. simpl. destruct (p x); simpl; lia.
Qed.

Lemma length_cell_coords : length cell_coords = 48%nat.
Proof. reflexivity. Qed.

Lemma length_canonical_masks : length canonical_masks = 47%nat.
Proof. reflexivity. Qed.

Lemma perfect_sheet (pixels : image) (results : list entry) (rep : report) :
  analyze_sheet pixels = Ok (results, rep) ->
  perfect (validated rep) = true ->
  exists c r tbl,
    unused rep = Some (c, r) /\
    List.filter (fun cr => transparent (get_cell pixels cr.1 cr.2)) cell_coords = [(c, r)] /\
    mapping (validated rep) = Some tbl /\
    tbl ≡ₚ map (fun cr => (final_mask pixels (edge_thresh rep) (corner_thresh rep) cr,
                           cr.1, cr.2)) (used_cells pixels).
Proof.
  intros Hrun Hp.
  apply analyze_sheet_inv in Hrun as (Hres & Hunused & _ & _ & _ & _ & Hv).
  destruct (perfect_observed results _ Hv Hp) as (Hnd & Hmem).
  assert (observed results ≡ₚ canonical_masks) as Hobs.
  { apply list.NoDup_Permutation; [exact Hnd | compute_done | exact Hmem]. }
  apply Permutation_length in Hobs.
  rewrite Hres, observed_final, length_map in Hobs.
  pose proof (filter_split_length
                (fun cr => transparent (get_cell pixels cr.1 cr.2)) cell_coords) as Hsplit.
  cbv beta in Hsplit. rewrite Hobs, length_cell_coords, length_canonical_masks in Hsplit.
  rewrite Hunused, find_unused_last.
  destruct (List.filter (fun cr => transparent (get_cell pixels cr.1 cr.2)) cell_coords)
    as [|[c r] [|cr' l']] eqn:Ef; cbn [length] in Hsplit; try lia.
  apply validate_inv in Hv as (Hall & _ & _ & _ & _ & _ & Hmap).
  rewrite Hp in Hmap. destruct Hmap as (tbl & Htbl & Hmapping).
  apply emit_mapping_spec in Htbl as (_ & Hperm); [|exact Hall].
  rewrite Hres, triples_final in Hperm.
  exists c, r, tbl. split; [reflexivity|]. split; [reflexivity|].
  split; [exact Hmapping | exact Hperm].
Qed.

(** X17. A sheet with a perfect match has exactly one fully transparent
    cell, the one reported as unused, and its table has one row for each
    of the other 47 cells: [mask, col, row] is a row exactly when
    [(col, row)] is a cell of the grid other than the unused one and the
    analysis gave it that mask. *)
Theorem X17_perfect_sheet :
  forall (pixels : image) (results : list entry) (rep : report),
    analyze_sheet pixels = Ok (results, rep) ->
    perfect (validated rep) = true ->
    exists c r tbl,
      unused rep = Some (c, r) /\
      (forall c' r', 0 <= c' < COLS -> 0 <= r' < ROWS ->
         (transparent (get_cell pixels c' r') = true <-> (c', r') = (c, r))) /\
      mapping (validated rep) = Some tbl /\ len tbl = 47 /\
      (forall m c' r',
         In (m, c', r') tbl <->
         0 <= c' < COLS /\ 0 <= r' < ROWS /\ (c', r') <> (c, r) /\
         exists e, entry_at results c' r' = Some e /\ mask e = Some m).
Proof.
  intros pixels results rep Hrun Hp.
  destruct (perfect_sheet pixels results rep Hrun Hp) as (c & r & tbl & Hu & Hf & Hm & Hperm).
  assert (forall c' r', 0 <= c' < COLS -> 0 <= r' < ROWS ->
            (transparent (get_cell pixels c' r') = true <-> (c', r') = (c, r))) as Hone.
  { intros c' r' Hc' Hr'.
    assert (In (c', r') (List.filter (fun cr => transparent (get_cell pixels cr.1 cr.2))
                                     cell_coords)
            <-> transparent (get_cell pixels c' r') = true) as Hin.
    { rewrite filter_In, elem_of_cell_coords. cbn [fst snd]. tauto. }
    rewrite <- Hin, Hf. simpl. split; [intros [E | []]; now symmetry | intros ->; now left]. }
  exists c, r, tbl. split; [exact Hu|]. split; [exact Hone|]. split; [exact Hm|].
  pose proof Hrun as Hinv. apply analyze_sheet_inv in Hinv as (Hres & _).
  split.
  { unfold len. rewrite (Permutation_length Hperm), length_map.
    pose proof (filter_split_length
                  (fun cr => transparent (get_cell pixels cr.1 cr.2)) cell_coords) as Hs.
    cbv beta in Hs. rewrite Hf, length_cell_coords in Hs.
    unfold used_cells. cbn [length] in Hs. lia. }
  intros m c' r'. split.
  - intros Hin. apply (Permutation_in _ Hperm) in Hin.
    apply in_map_iff in Hin as ([c'' r''] & [= <- <- <-] & Hin).
    unfold used_cells in Hin. apply filter_In in Hin as (Hin & Hused).
    cbn [fst snd] in Hused |- *. apply elem_of_cell_coords in Hin as (Hc & Hr).
    split; [exact Hc|]. split; [exact Hr|]. split.
    + intros E. apply (Hone c'' r'' Hc Hr) in E. rewrite E in Hused. discriminate Hused.
    + exists (final_entry pixels (edge_thresh rep) (corner_thresh rep) (c'', r'')).
      rewrite Hres. split; [apply entry_at_final; assumption | apply mask_final_entry].
  - intros (Hc & Hr & Hne & e & He & Hmask).
    rewrite Hres, entry_at_final in He by assumption. injection He as <-.
    rewrite mask_final_entry in Hmask. injection Hmask as <-.
    apply (Permutation_in _ (Permutation_sym Hperm)).
    apply in_map_iff. exists (c', r'). split; [reflexivity|].
    unfold used_cells. apply filter_In.
    split; [apply elem_of_cell_coords; split; assumption|].
    cbn [fst snd]. destruct (transparent (get_cell pixels c' r')) eqn:Et; [|reflexivity].
    exfalso. apply Hne. apply (Hone c' r' Hc Hr). exact Et.
Qed.

(** X17 on the rendered sheet [render layout_1]. *)
Lemma X17_witness :
  exists results rep c r tbl,
    analyze_sheet (render layout_1) = Ok (results, rep) /\
    perfect (validated rep) = true /\
    unused rep = Some (c, r) /\ mapping (validated rep) = Some tbl /\ len tbl = 47.
Proof.
  assert (match analyze_sheet (render layout_1) with
          | Ok (_, rep) => perfect (validated rep)
          | Raise _ => false
          end = true) as Hrun by (vm_compute; reflexivity).
  destruct (analyze_sheet (render layout_1)) as [[results rep]|x] eqn:E;
    [|discriminate Hrun].
  destruct (X17_perfect_sheet (render layout_1) results rep E Hrun)
    as (c & r & tbl & Hu & _ & Hm & Hlen & _).
  exists results, rep, c, r, tbl. auto.
Defined.

(** ** Rendering and reading back *)

Lemma get_cell_render (layout : list Z) (c r m : Z) :
  0 <= c < COLS -> 0 <= r < ROWS ->
  layout !! Z.to_nat (r * COLS + c) = Some m ->
  get_cell (render layout) c r = tile m.
Proof.
  intros Hc Hr Hm. unfold get_cell, tile. apply flat_map_ext_in. intros dy Hdy.
  apply map_ext_in. intros dx Hdx.
  apply list_elem_of_In, elem_of_range in Hdy, Hdx. unfold render, TILE in *.
  replace ((r * 16 + dy) / 16) with r
    by (apply (Z.div_unique _ _ _ dy); lia).
  replace ((c * 16 + dx) / 16) with c
    by (apply (Z.div_unique _ _ _ dx); lia).
  replace ((r * 16 + dy) mod 16) with dy
    by (apply (Z.mod_unique _ _ r); lia).
  replace ((c * 16 + dx) mod 16) with dx
    by (apply (Z.mod_unique _ _ c); lia).
  rewrite Hm. reflexivity.
Qed.

Lemma planted_lookup (layout : list Z) (c r : Z) :
  length layout = 48%nat -> 0 <= c < COLS -> 0 <= r < ROWS ->
  layout !! Z.to_nat (r * COLS + c) = Some (planted_at layout (c, r)).
Proof.
  intros Hlen Hc Hr. unfold planted_at. cbn [fst snd].
  destruct (lookup_lt_is_Some_2 layout (Z.to_nat (r * COLS + c))) as [m Hm].
  - rewrite Hlen. unfold COLS, ROWS in *. lia.
  - rewrite Hm. reflexivity.
Qed.

Lemma planted_cell (layout : list Z) (cr : Z * Z) :
  length layout = 48%nat -> In cr cell_coords ->
  get_cell (render layout) cr.1 cr.2 = tile (planted_at layout cr).
Proof.
  intros Hlen Hin. destruct cr as [c r]. apply elem_of_cell_coords in Hin as (Hc & Hr).
  cbn [fst snd]. apply get_cell_render; [assumption | assumption|].
  now apply planted_lookup.
Qed.

Lemma cluster_check (a L H b s : Q) :
  Qle_bool a s && Qle_bool s L || Qle_bool H s && Qle_bool s b = true ->
  (a <= s <= L)%Q \/ (H <= s <= b)%Q.
Proof.
  intros Hs. apply orb_true_iff in Hs as [Hs | Hs];
    apply andb_true_iff in Hs as (H1 & H2); apply Qle_bool_iff in H1, H2; auto.
Qed.

(** What the differ and the classifier make of each painted tile, against
    the tile of mask 255 as reference. *)
Lemma tile_facts (m : Z) :
  In m canonical_masks ->
  transparent (tile m) = false /\
  (forall s, In s (quad_list (edge_scores (map rgb_of (tile 255)) (tile m))) ->
     (0 <= s <= 14360)%Q \/ (71800 <= s <= 71800)%Q) /\
  (forall s, In s (quad_list (corner_scores (map rgb_of (tile 255)) (tile m))) ->
     (0 <= s <= 0)%Q \/ (71800 <= s <= 71800)%Q) /\
  classify_mask (edge_scores (map rgb_of (tile 255)) (tile m))
                (corner_scores (map rgb_of (tile 255)) (tile m)) 43080 35900 = m.
Proof.
  intros Hin.
  assert (forallb
            (fun m =>
               negb (transparent (tile m))
               && forallb (fun s => Qle_bool 0 s && Qle_bool s 14360
                                    || Qle_bool 71800 s && Qle_bool s 71800)
                          (quad_list (edge_scores (map rgb_of (tile 255)) (tile m)))
               && forallb (fun s => Qle_bool 0 s && Qle_bool s 0
                                    || Qle_bool 71800 s && Qle_bool s 71800)
                          (quad_list (corner_scores (map rgb_of (tile 255)) (tile m)))
               && (classify_mask (edge_scores (map rgb_of (tile 255)) (tile m))
                                 (corner_scores (map rgb_of (tile 255)) (tile m))
                                 43080 35900 =? m))
            canonical_masks = true) as Hall by (vm_compute; reflexivity).
  rewrite forallb_forall in Hall. specialize (Hall m Hin). cbv beta in Hall.
  apply andb_true_iff in Hall as (Hall & Hm).
  apply andb_true_iff in Hall as (Hall & Hc).
  apply andb_true_iff in Hall as (Ht & He).
  split; [now apply negb_true_iff in Ht|].
  split; [intros s Hs; apply cluster_check; rewrite forallb_forall in He; now apply He|].
  split; [intros s Hs; apply cluster_check; rewrite forallb_forall in Hc; now apply Hc|].
  now apply Z.eqb_eq.
Qed.

Lemma classify_mask_cong (es cs : quad) (et ct et' ct' : Q) :
  (forall s, In s (quad_list es) -> Qltb s et = Qltb s et') ->
  (forall s, In s (quad_list cs) -> Qltb s ct = Qltb s ct') ->
  classify_mask es cs et ct = classify_mask es cs et' ct'.
Proof.
  destruct es as [[[n w] e] s], cs as [[[nw ne] sw] se]. intros He Hc.
  unfold classify_mask.
  rewrite (He n), (He w), (He e), (He s) by (simpl; tauto).
  rewrite (Hc nw), (Hc ne), (Hc sw), (Hc se) by (simpl; tauto).
  reflexivity.
Qed.

Lemma canonical_nonneg (m : Z) : In m canonical_masks -> 0 <= m.
Proof.
  intros Hin.
  assert (forallb (fun m => 0 <=? m) canonical_masks = true) as Hall by reflexivity.
  rewrite forallb_forall in Hall. apply Z.leb_le, Hall, Hin.
Qed.

Lemma spare_tile_transparent : transparent (tile (-1)) = true.
Proof. vm_compute. reflexivity. Qed.

Section RoundTrip.

Variable layout : list Z.
Hypothesis Hperm : layout ≡ₚ canonical_masks ++ [-1].
Hypothesis Href : layout !! 1%nat = Some 255.

Local Abbreviation pixels := (render layout).
Local Abbreviation ref255 := (map rgb_of (tile 255)).

Lemma layout_length : length layout = 48%nat.
Proof. rewrite (Permutation_length Hperm). reflexivity. Qed.

Lemma layout_In (m : Z) : In m layout <-> In m canonical_masks \/ m = -1.
Proof.
  split.
  - intros Hin. apply (Permutation_in _ Hperm), in_app_or in Hin as [Hin | [<- | []]]; auto.
  - intros Hin. apply (Permutation_in _ (Permutation_sym Hperm)), in_or_app.
    destruct Hin as [Hin | ->]; [auto | right; now left].
Qed.

Lemma planted_In (cr : Z * Z) :
  In cr cell_coords -> In (planted_at layout cr) canonical_masks \/ planted_at layout cr = -1.
Proof.
  intros Hin. destruct cr as [c r]. apply elem_of_cell_coords in Hin as (Hc & Hr).
  apply layout_In, list_elem_of_In.
  exact (list_elem_of_lookup_2 _ _ _ (planted_lookup layout c r layout_length Hc Hr)).
Qed.

Lemma planted_position (m : Z) :
  In m layout -> exists cr, In cr cell_coords /\ planted_at layout cr = m.
Proof.
  intros Hin. apply list_elem_of_In, list_elem_of_lookup_1 in Hin as (i & Hi).
  pose proof (lookup_lt_Some _ _ _ Hi) as Hlt. rewrite layout_length in Hlt.
  destruct (lookup_lt_is_Some_2 cell_coords i) as [[c r] Hcr]; [exact Hlt|].
  exists (c, r). split.
  - apply list_elem_of_In. exact (list_elem_of_lookup_2 _ _ _ Hcr).
  - apply cell_coords_index in Hcr as (_ & _ & ->).
    unfold planted_at. cbn [fst snd]. rewrite Hi. reflexivity.
Qed.

Lemma render_ref : ref_of pixels = ref255.
Proof.
  unfold ref_of. rewrite (get_cell_render layout 1 0 255); [reflexivity | | |exact Href];
    unfold COLS, ROWS; lia.
Qed.

Lemma render_transparent (cr : Z * Z) :
  In cr cell_coords ->
  transparent (get_cell pixels cr.1 cr.2) = (planted_at layout cr <? 0).
Proof.
  intros Hin. rewrite (planted_cell layout cr layout_length Hin).
  destruct (planted_In cr Hin) as [Hm | ->]; [|exact spare_tile_transparent].
  destruct (tile_facts _ Hm) as (-> & _). apply canonical_nonneg in Hm.
  symmetry. apply Z.ltb_ge. exact Hm.
Qed.

Lemma render_used (cr : Z * Z) :
  In cr (used_cells pixels) <-> In cr cell_coords /\ In (planted_at layout cr) canonical_masks.
Proof.
  unfold used_cells. rewrite filter_In. split.
  - intros (Hin & Hu). split; [exact Hin|]. rewrite (render_transparent cr Hin) in Hu.
    destruct (planted_In cr Hin) as [Hm | E]; [exact Hm|]. rewrite E in Hu. discriminate Hu.
  - intros (Hin & Hm). split; [exact Hin|]. rewrite (render_transparent cr Hin).
    apply canonical_nonneg in Hm. apply negb_true_iff, Z.ltb_ge. exact Hm.
Qed.

Lemma render_edge_pool (s : Q) :
  In s (edge_pool pixels) <->
  exists m, In m canonical_masks /\ In s (quad_list (edge_scores ref255 (tile m))).
Proof.
  unfold edge_pool. rewrite in_flat_map, render_ref. split.
  - intros (cr & Hcr & Hs). apply render_used in Hcr as (Hin & Hm).
    rewrite (planted_cell layout cr layout_length Hin) in Hs. eauto.
  - intros (m & Hm & Hs).
    destruct (planted_position m) as (cr & Hin & E); [apply layout_In; auto|].
    exists cr. split; [apply render_used; rewrite E; auto|].
    rewrite (planted_cell layout cr layout_length Hin), E. exact Hs.
Qed.

Lemma render_corner_pool (s : Q) :
  In s (corner_pool pixels) <->
  exists m, In m canonical_masks /\ In s (quad_list (corner_scores ref255 (tile m))).
Proof.
  unfold corner_pool. rewrite in_flat_map, render_ref. split.
  - intros (cr & Hcr & Hs). apply render_used in Hcr as (Hin & Hm).
    rewrite (planted_cell layout cr layout_length Hin) in Hs. eauto.
  - intros (m & Hm & Hs).
    destruct (planted_position m) as (cr & Hin & E); [apply layout_In; auto|].
    exists cr. split; [apply render_used; rewrite E; auto|].
    rewrite (planted_cell layout cr layout_length Hin), E. exact Hs.
Qed.

Lemma render_quadrant_pool : exists q, In q (quadrant_pool pixels) /\ (0 < q)%Q.
Proof.
  destruct (planted_position 0) as (cr & Hin & E); [apply layout_In; left; now left|].
  exists (quadrant_score ref255 (tile 0) 0 0). split; [|vm_compute; reflexivity].
  unfold quadrant_pool. apply in_flat_map. exists cr. split.
  - apply render_used. rewrite E. split; [exact Hin | now left].
  - unfold quadrant_scores. rewrite render_ref, (planted_cell layout cr layout_length Hin), E.
    left. reflexivity.
Qed.

Lemma render_thresholds (et ct : Q) :
  find_threshold (edge_pool pixels) = Ok et ->
  find_threshold (corner_pool pixels) = Ok ct ->
  (forall s, In s (edge_pool pixels) -> Qltb s et = Qltb s 43080) /\
  (forall s, In s (corner_pool pixels) -> Qltb s ct = Qltb s 35900).
Proof.
  intros Het Hct. split.
  - destruct (threshold_bimodal (edge_pool pixels) 0 14360 71800 71800)
      as (t & lo & hi & Ht & _ & _ & _ & _ & _ & Hsep).
    + intros s Hs. apply render_edge_pool in Hs as (m & Hm & Hs).
      now apply (tile_facts m Hm).
    + exists (region_score ref255 (tile 255) North). split; [|vm_compute; discriminate].
      apply render_edge_pool. exists 255. split; [compute_done | left; reflexivity].
    + exists (region_score ref255 (tile 0) North). split; [|vm_compute; discriminate].
      apply render_edge_pool. exists 0. split; [compute_done | left; reflexivity].
    + reflexivity.
    + reflexivity.
    + rewrite Het in Ht. injection Ht as <-. intros s Hs.
      destruct (Hsep s Hs) as (Hlow & Hhigh).
      apply render_edge_pool in Hs as (m & Hm & Hs).
      destruct (proj1 (proj2 (tile_facts m Hm)) s Hs) as [Hc | Hc].
      * rewrite (proj2 (Qltb_lt s et)) by (apply Hlow; tauto).
        symmetry. apply Qltb_lt. lra.
      * rewrite (proj2 (Qltb_ge s et)) by (apply Qlt_le_weak, Hhigh; tauto).
        symmetry. apply Qltb_ge. lra.
  - destruct (threshold_bimodal (corner_pool pixels) 0 0 71800 71800)
      as (t & lo & hi & Ht & _ & _ & _ & _ & _ & Hsep).
    + intros s Hs. apply render_corner_pool in Hs as (m & Hm & Hs).
      now apply (tile_facts m Hm).
    + exists (region_score ref255 (tile 255) NorthWest). split; [|vm_compute; discriminate].
      apply render_corner_pool. exists 255. split; [compute_done | left; reflexivity].
    + exists (region_score ref255 (tile 0) NorthWest). split; [|vm_compute; discriminate].
      apply render_corner_pool. exists 0. split; [compute_done | left; reflexivity].
    + reflexivity.
    + reflexivity.
    + rewrite Hct in Ht. injection Ht as <-. intros s Hs.
      destruct (Hsep s Hs) as (Hlow & Hhigh).
      apply render_corner_pool in Hs as (m & Hm & Hs).
      destruct (proj1 (proj2 (proj2 (tile_facts m Hm))) s Hs) as [Hc | Hc].
      * rewrite (proj2 (Qltb_lt s ct)) by (apply Hlow; tauto).
        symmetry. apply Qltb_lt. lra.
      * rewrite (proj2 (Qltb_ge s ct)) by (apply Qlt_le_weak, Hhigh; tauto).
        symmetry. apply Qltb_ge. lra.
Qed.

Lemma render_final_mask (et ct : Q) (cr : Z * Z) :
  find_threshold (edge_pool pixels) = Ok et ->
  find_threshold (corner_pool pixels) = Ok ct ->
  In cr cell_coords ->
  final_mask pixels et ct cr = planted_at layout cr.
Proof.
  intros Het Hct Hin. destruct (render_thresholds et ct Het Hct) as (Hedge & Hcorner).
  unfold final_mask. rewrite (render_transparent cr Hin), render_ref.
  rewrite (planted_cell layout cr layout_length Hin).
  destruct (planted_In cr Hin) as [Hm | E]; [|rewrite E; reflexivity].
  pose proof (canonical_nonneg _ Hm) as Hnn.
  destruct (Z.ltb_spec (planted_at layout cr) 0) as [|_]; [lia|].
  rewrite (classify_mask_cong _ _ et ct 43080 35900).
  - now apply tile_facts.
  - intros s Hs. apply Hedge, render_edge_pool. eauto.
  - intros s Hs. apply Hcorner, render_corner_pool. eauto.
Qed.

End RoundTrip.

Lemma omap_of_map {A B} (f : A -> option B) (l : list A) (k : list B) :
  map f l = map Some k -> omap f l = k.
Proof.
  revert k. induction l as [|a l IH]; intros [|b k] H; try discriminate H; [reflexivity|].
  cbn [map] in H. injection H as Ha H. cbn [omap list_omap]. rewrite Ha.
  f_equal. now apply IH.
Qed.

(** X18. Round trip.  Paint the 47 canonical masks on the grid in any
    arrangement that puts 255 at the reference cell (1,0) and leaves the
    remaining cell transparent.  The analysis of the rendered sheet then
    completes, gives every cell the mask that was planted there, ends with
    a perfect match, and emits the table of the planted masks in
    ascending order, each with the cell it was planted in. *)
Theorem X18_round_trip :
  forall layout : list Z,
    layout ≡ₚ canonical_masks ++ [-1] ->
    layout !! 1%nat = Some 255 ->
    exists results rep tbl,
      analyze_sheet (render layout) = Ok (results, rep) /\
      map mask results = map Some layout /\
      perfect (validated rep) = true /\
      mapping (validated rep) = Some tbl /\
      map (fun t : Z * Z * Z => t.1.1) tbl = canonical_masks /\
      forall m c r,
        In (m, c, r) tbl <->
        0 <= m /\ 0 <= c < COLS /\ 0 <= r < ROWS /\
        layout !! Z.to_nat (r * COLS + c) = Some m.
Proof.
  intros layout Hperm Href.
  pose proof (layout_length layout Hperm) as Hlen.
  destruct (analyze_sheet_total (render layout)) as [(Hnil & _) | (_ & results & rep & Hrun)].
  { exfalso. revert Hnil. apply filter_positive_nonempty.
    exact (render_quadrant_pool layout Hperm Href). }
  pose proof Hrun as Hinv.
  apply analyze_sheet_inv in Hinv as (Hres & _ & _ & Het & Hct & _ & Hv).
  assert (forall cr, In cr cell_coords ->
            final_mask (render layout) (edge_thresh rep) (corner_thresh rep) cr
            = planted_at layout cr) as Hfinal.
  { intros cr. exact (render_final_mask layout Hperm Href _ _ cr Het Hct). }
  assert (map mask results = map Some layout) as Hmasks.
  { rewrite Hres, map_map. apply list_eq. intros i.
    rewrite !list_lookup_fmap.
    destruct (cell_coords !! i) as [[c r]|] eqn:Ei; cbn [fmap option_fmap option_map].
    - rewrite mask_final_entry, Hfinal
        by (apply list_elem_of_In; exact (list_elem_of_lookup_2 _ _ _ Ei)).
      apply cell_coords_index in Ei as (Hc & Hr & ->).
      rewrite (planted_lookup layout c r Hlen Hc Hr). reflexivity.
    - apply lookup_ge_None in Ei. change (length cell_coords) with 48%nat in Ei.
      rewrite (proj2 (lookup_ge_None layout i)) by (rewrite Hlen; exact Ei). reflexivity. }
  assert (observed results ≡ₚ canonical_masks) as Hobs.
  { unfold observed. rewrite (omap_of_map _ _ _ Hmasks).
    change canonical_masks with (List.filter (fun m => 0 <=? m) (canonical_masks ++ [-1])).
    apply Permutation_filter, Hperm. }
  pose proof (perfect_of_perm results _ Hv Hobs) as Hp.
  destruct (perfect_table results _ Hv Hp) as (tbl & Hm & Hcol & Htbl & _).
  exists results, rep, tbl.
  split; [exact Hrun|]. split; [exact Hmasks|]. split; [exact Hp|].
  split; [exact Hm|]. split; [exact Hcol|].
  rewrite Hres, triples_final in Htbl. fold (used_cells (render layout)) in Htbl.
  intros m c r. split.
  - intros Hin. apply (Permutation_in _ Htbl) in Hin.
    apply in_map_iff in Hin as ([c' r'] & Heq & Hin). cbn [fst snd] in Heq.
    injection Heq as <- <- <-.
    apply (render_used layout Hperm) in Hin as (Hin & Hcan).
    rewrite (Hfinal _ Hin). apply canonical_nonneg in Hcan.
    apply elem_of_cell_coords in Hin as (Hc & Hr).
    split; [exact Hcan|]. split; [exact Hc|]. split; [exact Hr|].
    now apply planted_lookup.
  - intros (Hnn & Hc & Hr & Hl).
    assert (In (c, r) cell_coords) as Hin by (apply elem_of_cell_coords; split; assumption).
    assert (planted_at layout (c, r) = m) as E
      by (unfold planted_at; cbn [fst snd]; rewrite Hl; reflexivity).
    apply (Permutation_in _ (Permutation_sym Htbl)).
    apply in_map_iff. exists (c, r). split.
    + rewrite (Hfinal _ Hin), E. reflexivity.
    + apply (render_used layout Hperm). split; [exact Hin|]. rewrite E.
      destruct (proj1 (layout_In layout Hperm m)) as [Hcan | ->]; [|exact Hcan | lia].
      apply list_elem_of_In. exact (list_elem_of_lookup_2 _ _ _ Hl).
Qed.

(** X18 on [layout_1]. *)
Lemma X18_witness :
  exists results rep tbl,
    analyze_sheet (render layout_1) = Ok (results, rep) /\
    map mask results = map Some layout_1 /\
    perfect (validated rep) = true /\
    mapping (validated rep) = Some tbl.
Proof.
  destruct (X18_round_trip layout_1) as (results & rep & tbl & Hrun & Hmasks & Hp & Hm & _).
  - compute_done.
  - reflexivity.
  - exists results, rep, tbl. auto.
Defined.

(** ** What the analysis reads *)

Lemma bind_ext {A B} (m : result A) (k k' : A -> result B) :
  (forall a, k a = k' a) -> bind m k = bind m k'.
Proof. intros H. destruct m as [a|x]; [apply H | reflexivity]. Qed.

Section Frame.

Variables pixels pixels' : image.
Hypothesis Hcells :
  forall cr, In cr cell_coords -> get_cell pixels cr.1 cr.2 = get_cell pixels' cr.1 cr.2.

Lemma frame_ref : ref_of pixels = ref_of pixels'.
Proof.
  unfold ref_of. f_equal. apply (Hcells (1, 0)). apply elem_of_cell_coords.
  unfold COLS, ROWS. lia.
Qed.

Lemma frame_used : used_cells pixels = used_cells pixels'.
Proof.
  unfold used_cells. apply filter_ext_in. intros cr Hcr. now rewrite Hcells.
Qed.

Lemma In_used_cells (p : image) (cr : Z * Z) : In cr (used_cells p) -> In cr cell_coords.
Proof. unfold used_cells. intros H. now apply filter_In in H. Qed.

Lemma frame_quadrant_pool : quadrant_pool pixels = quadrant_pool pixels'.
Proof.
  unfold quadrant_pool. rewrite <- frame_used. apply flat_map_ext_in. intros cr Hcr.
  unfold quadrant_scores. rewrite frame_ref, (Hcells cr (In_used_cells _ _ Hcr)). reflexivity.
Qed.

Lemma frame_edge_pool : edge_pool pixels = edge_pool pixels'.
Proof.
  unfold edge_pool. rewrite <- frame_used. apply flat_map_ext_in. intros cr Hcr.
  rewrite frame_ref, (Hcells cr (In_used_cells _ _ Hcr)). reflexivity.
Qed.

Lemma frame_corner_pool : corner_pool pixels = corner_pool pixels'.
Proof.
  unfold corner_pool. rewrite <- frame_used. apply flat_map_ext_in. intros cr Hcr.
  rewrite frame_ref, (Hcells cr (In_used_cells _ _ Hcr)). reflexivity.
Qed.

Lemma frame_final (et ct : Q) :
  map (final_entry pixels et ct) cell_coords = map (final_entry pixels' et ct) cell_coords.
Proof.
  apply map_ext_in. intros cr Hcr. unfold final_entry, quadrant_scores.
  rewrite frame_ref, (Hcells cr Hcr). reflexivity.
Qed.

Lemma frame_unused : find_unused pixels = find_unused pixels'.
Proof.
  rewrite !find_unused_last. f_equal. apply filter_ext_in. intros cr Hcr.
  now rewrite Hcells.
Qed.

Lemma frame_analysis : analyze_sheet pixels = analyze_sheet pixels'.
Proof.
  rewrite !analyze_sheet_eq.
  rewrite frame_quadrant_pool, frame_edge_pool, frame_corner_pool, frame_unused.
  apply bind_ext. intros t. apply bind_ext. intros et. apply bind_ext. intros ct.
  cbv zeta. rewrite frame_final. reflexivity.
Qed.

End Frame.

(** X19. The analysis reads the 192 x 64 pixel block of the 12 x 4 grid
    and nothing else: two images that agree on that block get the same
    outcome, the same entries and the same report, whatever their sizes
    and whatever lies outside the block. *)
Theorem X19_reads_only_the_grid :
  forall pixels pixels' : image,
    (forall x y, 0 <= x < COLS * TILE -> 0 <= y < ROWS * TILE ->
                 pixels x y = pixels' x y) ->
    analyze_sheet pixels = analyze_sheet pixels'.
Proof.
  intros pixels pixels' Hagree. apply frame_analysis.
  intros [c r] Hcr. apply elem_of_cell_coords in Hcr as (Hc & Hr). cbn [fst snd].
  apply get_cell_ext. intros dx dy Hdx Hdy.
  apply Hagree; unfold COLS, ROWS, TILE in *; lia.
Qed.

(** X19 on [sheet_A] and a copy of it with opaque pixels beyond the grid. *)
Lemma X19_witness :
  analyze_sheet sheet_A
  = analyze_sheet (fun x y => if (x <? 192) && (y <? 64) then sheet_A x y else solid).
Proof.
  apply X19_reads_only_the_grid. intros x y Hx Hy. unfold COLS, ROWS, TILE in *.
  destruct (Z.ltb_spec x 192); [|lia]. destruct (Z.ltb_spec y 64); [|lia]. reflexivity.
Defined.

(** ** The classifier and the canonical set *)

Lemma classify_mask_canonical (es cs : quad) (et ct : Q) :
  In (classify_mask es cs et ct) canonical_masks.
Proof.
  destruct (classify_mask_bits es cs et ct)
    as (n & w & e & s & nw & ne & sw & se & ->).
  assert (existsb (Z.eqb (Z.b2z n + 2 * Z.b2z w + 4 * Z.b2z e + 8 * Z.b2z s
                          + 16 * Z.b2z (n && w && nw) + 32 * Z.b2z (n && e && ne)
                          + 64 * Z.b2z (s && w && sw) + 128 * Z.b2z (s && e && se)))
                  canonical_masks = true) as H
    by (destruct n, w, e, s, nw, ne, sw, se; reflexivity).
  apply existsb_exists in H as (m & Hm & E). apply Z.eqb_eq in E. now rewrite E.
Qed.

(** Scores that show exactly the neighbours of [m], for thresholds 1. *)
Lemma canonical_reached (m : Z) :
  In m canonical_masks ->
  classify_mask (if lacks m 1 then 2 else 0, if lacks m 2 then 2 else 0,
                 if lacks m 4 then 2 else 0, if lacks m 8 then 2 else 0)%Q
                (if lacks m 16 then 2 else 0, if lacks m 32 then 2 else 0,
                 if lacks m 64 then 2 else 0, if lacks m 128 then 2 else 0)%Q
                1 1 = m.
Proof.
  intros Hin.
  assert (forallb
            (fun m =>
               classify_mask (if lacks m 1 then 2 else 0, if lacks m 2 then 2 else 0,
                              if lacks m 4 then 2 else 0, if lacks m 8 then 2 else 0)%Q
                             (if lacks m 16 then 2 else 0, if lacks m 32 then 2 else 0,
                              if lacks m 64 then 2 else 0, if lacks m 128 then 2 else 0)%Q
                             1 1 =? m) canonical_masks = true) as Hall
    by (vm_compute; reflexivity).
  rewrite forallb_forall in Hall. apply Z.eqb_eq. exact (Hall m Hin).
Qed.

Lemma elem_of_expected (m : Z) : m ∈ expected_47 <-> In m canonical_masks.
Proof.
  rewrite <- canonical_masks_set, elem_of_list_to_set. apply list_elem_of_In.
Qed.

Lemma observed_canonical (pixels : image) (results : list entry) (rep : report) (m : Z) :
  analyze_sheet pixels = Ok (results, rep) ->
  m ∈ observed results -> m ∈ expected_47.
Proof.
  intros Hrun Hm. apply analyze_sheet_inv in Hrun as (Hres & _).
  rewrite Hres, observed_final in Hm.
  apply list_elem_of_In, in_map_iff in Hm as (cr & <- & Hcr).
  apply filter_In in Hcr as (_ & Hused). apply negb_true_iff in Hused.
  unfold final_mask. rewrite Hused. apply elem_of_expected, classify_mask_canonical.
Qed.

(** X21. The canonical 47 masks are exactly the masks the classifier can
    produce.  So a completed analysis never shows an unexpected mask: the
    validator's set of extra masks is always empty, and the match is
    perfect exactly when no canonical mask is missing and none shows
    twice. *)
Theorem X21_no_unexpected_mask :
  (forall m, m ∈ expected_47 <-> exists es cs et ct, classify_mask es cs et ct = m) /\
  (forall (pixels : image) (results : list entry) (rep : report),
     analyze_sheet pixels = Ok (results, rep) ->
     extra (validated rep) = ∅ /\
     (perfect (validated rep) = true <->
      missing (validated rep) = ∅ /\ duplicated (validated rep) = ∅)).
Proof.
  split.
  - intros m. rewrite elem_of_expected. split.
    + intros Hin. do 4 eexists. exact (canonical_reached m Hin).
    + intros (es & cs & et & ct & <-). apply classify_mask_canonical.
  - intros pixels results rep Hrun.
    assert (extra (validated rep) = ∅) as Hextra.
    { pose proof Hrun as Hinv. apply analyze_sheet_inv in Hinv as (_ & _ & _ & _ & _ & _ & Hv).
      apply validate_inv in Hv as (_ & _ & _ & -> & _).
      apply elem_of_equiv_empty_L. intros m Hm.
      apply elem_of_difference in Hm as (Hm & Hn). apply Hn.
      apply elem_of_list_to_set in Hm. exact (observed_canonical pixels results rep m Hrun Hm). }
    split; [exact Hextra|].
    apply analyze_sheet_inv in Hrun as (_ & _ & _ & _ & _ & _ & Hv).
    apply validate_inv in Hv as (_ & _ & _ & _ & _ & -> & _).
    rewrite Hextra, !andb_true_iff, !bool_decide_eq_true. tauto.
Qed.

(** X21 on [sheet_A]. *)
Lemma X21_witness :
  exists results rep,
    analyze_sheet sheet_A = Ok (results, rep) /\ extra (validated rep) = ∅.
Proof.
  destruct (analyze_sheet sheet_A) as [[results rep]|x] eqn:E;
    [|vm_compute in E; discriminate E].
  exists results, rep. split; [reflexivity|].
  exact (proj1 (proj2 X21_no_unexpected_mask sheet_A results rep E)).
Defined.

(** ** The report and the returned entries *)

Section Stored.

Variables (pixels : image) (et ct : Q).

Lemma stored_edges (l : list (Z * Z)) :
  flat_map (fun e => match edges e with Some q => quad_list q | None => [] end)
           (map (final_entry pixels et ct) l)
  = flat_map (fun cr => quad_list (edge_scores (ref_of pixels) (get_cell pixels cr.1 cr.2)))
             (List.filter (fun cr => negb (transparent (get_cell pixels cr.1 cr.2))) l).
Proof.
  induction l as [|cr l IH]; [reflexivity|].
  cbn [map flat_map List.filter]. rewrite IH. unfold final_entry.
  destruct (transparent (get_cell pixels cr.1 cr.2)); reflexivity.
Qed.

Lemma stored_corners (l : list (Z * Z)) :
  flat_map (fun e => match corners e with Some q => quad_list q | None => [] end)
           (map (final_entry pixels et ct) l)
  = flat_map (fun cr => quad_list (corner_scores (ref_of pixels) (get_cell pixels cr.1 cr.2)))
             (List.filter (fun cr => negb (transparent (get_cell pixels cr.1 cr.2))) l).
Proof.
  induction l as [|cr l IH]; [reflexivity|].
  cbn [map flat_map List.filter]. rewrite IH. unfold final_entry.
  destruct (transparent (get_cell pixels cr.1 cr.2)); reflexivity.
Qed.

Lemma stored_qdiffs (l : list (Z * Z)) :
  flat_map (fun e => if bool_decide (mask e = Some (-1)) then [] else quad_list (qdiffs e))
           (map (final_entry pixels et ct) l)
  = flat_map (fun cr => quad_list (quadrant_scores pixels cr))
             (List.filter (fun cr => negb (transparent (get_cell pixels cr.1 cr.2))) l).
Proof.
  induction l as [|cr l IH]; [reflexivity|].
  cbn [map flat_map List.filter]. rewrite IH.
  pose proof (final_mask_unused pixels et ct cr) as Hu.
  rewrite mask_final_entry. unfold final_entry.
  destruct (transparent (get_cell pixels cr.1 cr.2)) eqn:Et; cbn [negb qdiffs].
  - rewrite bool_decide_eq_true_2; [reflexivity|]. f_equal. now apply Hu.
  - rewrite bool_decide_eq_false_2; [reflexivity|].
    intros [= E]. apply Hu in E. discriminate E.
Qed.

End Stored.

(** X22. The report can be recomputed from the returned entries.  The
    edge threshold is the gap threshold of the edge scores stored in the
    entries, taken in order, and likewise the corner threshold; the
    quadrant threshold is that of the quadrant differences of the entries
    in use; the mask of every entry in use is the classification of its
    own stored scores under these two thresholds; the grid and the
    validation are those of the returned entries. *)
Theorem X22_report_follows_from_entries :
  forall (pixels : image) (results : list entry) (rep : report),
    analyze_sheet pixels = Ok (results, rep) ->
    find_threshold
      (flat_map (fun e => match edges e with Some q => quad_list q | None => [] end) results)
    = Ok (edge_thresh rep) /\
    find_threshold
      (flat_map (fun e => match corners e with Some q => quad_list q | None => [] end) results)
    = Ok (corner_thresh rep) /\
    auto_threshold
      (flat_map (fun e => if bool_decide (mask e = Some (-1)) then []
                          else quad_list (qdiffs e)) results)
    = Ok (threshold rep) /\
    (forall e, e ∈ results -> mask e <> Some (-1) ->
       exists es cs,
         edges e = Some es /\ corners e = Some cs /\
         mask e = Some (classify_mask es cs (edge_thresh rep) (corner_thresh rep))) /\
    print_grid results = Ok (grid rep) /\
    validate results = Ok (validated rep).
Proof.
  intros pixels results rep Hrun.
  apply analyze_sheet_inv in Hrun as (Hres & _ & Hq & He & Hc & Hg & Hv).
  rewrite Hres at 1 2 3. rewrite stored_edges, stored_corners, stored_qdiffs.
  split; [exact He|]. split; [exact Hc|]. split; [exact Hq|].
  split; [|split; [exact Hg | exact Hv]].
  intros e Hin Hused. rewrite Hres in Hin. apply list_elem_of_fmap in Hin as (cr & -> & _).
  pose proof (final_mask_unused pixels (edge_thresh rep) (corner_thresh rep) cr) as Hu.
  rewrite mask_final_entry in Hused. revert Hused. unfold final_entry, final_mask in *.
  destruct (transparent (get_cell pixels cr.1 cr.2)); intros Hused.
  - exfalso. apply Hused. reflexivity.
  - do 2 eexists. split; [reflexivity|]. split; reflexivity.
Qed.

(** X22 on [sheet_A]. *)
Lemma X22_witness :
  exists results rep,
    analyze_sheet sheet_A = Ok (results, rep) /\
    find_threshold
      (flat_map (fun e => match edges e with Some q => quad_list q | None => [] end) results)
    = Ok (edge_thresh rep).
Proof.
  destruct (analyze_sheet sheet_A) as [[results rep]|x] eqn:E;
    [|vm_compute in E; discriminate E].
  exists results, rep. split; [reflexivity|].
  exact (proj1 (X22_report_follows_from_entries sheet_A results rep E)).
Defined.

(** ** The threshold finder in binary64 *)
















(** ** The threshold as midpoint of a largest gap *)







(** ** Pictures and their bounds *)

Lemma pixel_at_inside (img : picture) (x y : Z) :
  0 <= x < width img -> 0 <= y < height img ->
  pixel_at img x y = Ok (access img x y).
Proof.
  intros Hx Hy. unfold pixel_at.
  destruct (Z.ltb_spec x 0); [lia|]. destruct (Z.ltb_spec y 0); [lia|].
  destruct (Z.leb_spec 0 x); [|lia]. destruct (Z.ltb_spec x (width img)); [|lia].
  destruct (Z.leb_spec 0 y); [|lia]. destruct (Z.ltb_spec y (height img)); [|lia].
  reflexivity.
Qed.

Lemma pixel_at_beyond (img : picture) (x y : Z) :
  0 <= x -> 0 <= y -> width img <= x \/ height img <= y ->
  pixel_at img x y = Raise IndexError.
Proof.
  intros Hx Hy Hout. unfold pixel_at.
  destruct (Z.ltb_spec x 0); [lia|]. destruct (Z.ltb_spec y 0); [lia|].
  destruct (Z.leb_spec 0 x); [|lia]. destruct (Z.leb_spec 0 y); [|lia].
  destruct (Z.ltb_spec x (width img)), (Z.ltb_spec y (height img));
    try reflexivity; lia.
Qed.

Lemma pixel_at_only_IndexError (img : picture) (x y : Z) (e : exn) :
  pixel_at img x y = Raise e -> e = IndexError.
Proof. unfold pixel_at. destruct (_ && _); congruence. Qed.

Lemma read_row_only_IndexError (img : picture) (x0 y : Z) (xs : list Z)
    (acc : list rgba) (e : exn) :
  foldM (fun result dx => let! p := pixel_at img (x0 + dx) y in Ok (result ++ [p]))
        xs acc = Raise e ->
  e = IndexError.
Proof.
  apply foldM_only. intros s dx r.
  destruct (pixel_at img (x0 + dx) y) as [p|x] eqn:E; cbn [bind]; [discriminate|].
  intros [= <-]. eapply pixel_at_only_IndexError, E.
Qed.

Lemma get_cell_at_only_IndexError (img : picture) (c r : Z) (e : exn) :
  get_cell_at img c r = Raise e -> e = IndexError.
Proof.
  unfold get_cell_at. apply foldM_only. intros s dy x. apply read_row_only_IndexError.
Qed.

Lemma read_row_inside (img : picture) (x0 y : Z) (xs : list Z) (acc : list rgba) :
  (forall dx, In dx xs -> pixel_at img (x0 + dx) y = Ok (access img (x0 + dx) y)) ->
  foldM (fun result dx => let! p := pixel_at img (x0 + dx) y in Ok (result ++ [p]))
        xs acc
  = Ok (acc ++ map (fun dx => access img (x0 + dx) y) xs).
Proof.
  revert acc. induction xs as [|dx xs IH]; intros acc H; cbn [foldM map].
  - now rewrite app_nil_r.
  - rewrite (H dx) by now left. cbn [bind]. rewrite IH by (intros; apply H; now right).
    now rewrite <- app_assoc.
Qed.

Lemma get_cell_at_inside (img : picture) (c r : Z) :
  0 <= c -> 0 <= r -> (c + 1) * TILE <= width img -> (r + 1) * TILE <= height img ->
  get_cell_at img c r = Ok (get_cell (access img) c r).
Proof.
  intros Hc Hr Hw Hh. unfold get_cell_at, get_cell.
  assert (forall (ys : list Z) (acc : list rgba),
            (forall dy, In dy ys -> 0 <= dy < TILE) ->
            foldM (fun result dy =>
                     foldM (fun result dx =>
                              let! p := pixel_at img (c * TILE + dx) (r * TILE + dy) in
                              Ok (result ++ [p]))
                           (range 0 TILE) result) ys acc
            = Ok (acc ++ flat_map (fun dy => map (fun dx => access img (c * TILE + dx)
                                                                   (r * TILE + dy))
                                                 (range 0 TILE)) ys)) as Hrows.
  { induction ys as [|dy ys IH]; intros acc Hys; cbn [foldM flat_map].
    - now rewrite app_nil_r.
    - rewrite read_row_inside.
      + cbn [bind]. rewrite IH by (intros; apply Hys; now right). now rewrite <- app_assoc.
      + intros dx Hdx. apply list_elem_of_In, elem_of_range in Hdx.
        pose proof (Hys dy ltac:(now left)) as Hdy.
        apply pixel_at_inside; unfold TILE in *; lia. }
  rewrite Hrows; [reflexivity|].
  intros dy Hdy. apply list_elem_of_In, elem_of_range in Hdy. lia.
Qed.

Lemma get_cell_at_grid (img : picture) (c r : Z) :
  covers_grid img = true -> In (c, r) cell_coords ->
  get_cell_at img c r = Ok (get_cell (access img) c r).
Proof.
  intros Hcov Hin. apply elem_of_cell_coords in Hin as (Hc & Hr).
  unfold covers_grid in Hcov. apply andb_true_iff in Hcov as (Hw & Hh).
  apply Z.leb_le in Hw, Hh.
  apply get_cell_at_inside; unfold COLS, ROWS, TILE in *; lia.
Qed.

(** A cell whose last pixel lies outside the picture cannot be read. *)
Lemma get_cell_at_outside (img : picture) (c r : Z) :
  0 <= c -> 0 <= r ->
  width img < (c + 1) * TILE \/ height img < (r + 1) * TILE ->
  get_cell_at img c r = Raise IndexError.
Proof.
  intros Hc Hr Hout. unfold get_cell_at.
  apply foldM_raises.
  - intros s dy x. apply read_row_only_IndexError.
  - exists (TILE - 1). split; [apply list_elem_of_In, elem_of_range; unfold TILE; lia|].
    intros acc. destruct Hout as [Hw | Hh].
    + apply foldM_raises.
      * intros s dx x.
        destruct (pixel_at img (c * TILE + dx) (r * TILE + (TILE - 1))) as [p|x'] eqn:E;
          cbn [bind]; [discriminate|].
        intros [= <-]. eapply pixel_at_only_IndexError, E.
      * exists (TILE - 1).
        split; [apply list_elem_of_In, elem_of_range; unfold TILE; lia|].
        intros s. rewrite pixel_at_beyond; [reflexivity | | |]; unfold TILE in *; lia.
    + apply foldM_raises.
      * intros s dx x.
        destruct (pixel_at img (c * TILE + dx) (r * TILE + (TILE - 1))) as [p|x'] eqn:E;
          cbn [bind]; [discriminate|].
        intros [= <-]. eapply pixel_at_only_IndexError, E.
      * exists 0. split; [apply list_elem_of_In, elem_of_range; unfold TILE; lia|].
        intros s. rewrite pixel_at_beyond; [reflexivity | | |]; unfold TILE in *; lia.
Qed.

Lemma foldM_ext_in {A S} (f g : S -> A -> result S) (l : list A) :
  (forall s a, In a l -> f s a = g s a) -> forall s, foldM f l s = foldM g l s.
Proof.
  induction l as [|a l IH]; intros H s; [reflexivity|]. cbn [foldM].
  rewrite (H s a) by now left. destruct (g s a) as [s'|x]; [|reflexivity]. cbn [bind].
  apply IH. intros s'' b Hb. apply H. now right.
Qed.

Lemma mapM_ext_in {A B} (f g : A -> result B) (l : list A) :
  (forall a, In a l -> f a = g a) -> mapM f l = mapM g l.
Proof.
  induction l as [|a l IH]; intros H; [reflexivity|]. cbn [mapM].
  rewrite (H a) by now left. rewrite IH by (intros b Hb; apply H; now right).
  reflexivity.
Qed.

Section Covered.

Variable img : picture.
Hypothesis Hcov : covers_grid img = true.

Lemma find_unused_at_covered : find_unused_at img = Ok (find_unused (access img)).
Proof.
  unfold find_unused_at, find_unused. apply foldM_pure. intros s [c r] Hin.
  apply list_elem_of_In in Hin.
  rewrite (get_cell_at_grid img c r Hcov Hin). reflexivity.
Qed.

Lemma first_pass_at_covered (ref_rgb : list rgb) :
  first_pass_at img ref_rgb = first_pass (access img) ref_rgb.
Proof.
  unfold first_pass_at, first_pass. apply foldM_ext_in. intros [results q] [c r] Hin.
  rewrite (get_cell_at_grid img c r Hcov Hin). reflexivity.
Qed.

Lemma second_pass_at_covered (ref_rgb : list rgb) (results : list entry) :
  (forall e, In e results -> In (col e, row e) cell_coords) ->
  second_pass_at img ref_rgb results = second_pass (access img) ref_rgb results.
Proof.
  intros Hcoords. unfold second_pass_at, second_pass. apply mapM_ext_in. intros e He.
  rewrite (get_cell_at_grid img (col e) (row e) Hcov (Hcoords e He)). reflexivity.
Qed.

Lemma analyze_picture_covered : analyze_picture img = analyze_sheet (access img).
Proof.
  unfold analyze_picture, analyze_sheet.
  rewrite find_unused_at_covered. cbn [bind].
  rewrite (get_cell_at_grid img 1 0 Hcov)
    by (apply elem_of_cell_coords; unfold COLS, ROWS; lia).
  cbn [bind fst snd]. cbv zeta. rewrite first_pass_at_covered.
  fold (ref_of (access img)). rewrite first_pass_eq. cbn [bind].
  apply bind_ext. intros t. rewrite second_pass_at_covered; [reflexivity|].
  intros e He. apply in_map_iff in He as ([c r] & <- & Hin).
  unfold first_entry. cbn [fst snd]. now destruct (transparent (get_cell (access img) c r)).
Qed.

End Covered.

Lemma covers_grid_false (img : picture) :
  covers_grid img = false <-> width img < COLS * TILE \/ height img < ROWS * TILE.
Proof.
  unfold covers_grid. rewrite andb_false_iff, !Z.leb_gt. reflexivity.
Qed.

(** On a picture that does not hold the whole grid the scan for the unused
    cell, the first thing to read pixels, runs into the missing ones. *)
Lemma analyze_picture_small (img : picture) :
  covers_grid img = false -> analyze_picture img = Raise IndexError.
Proof.
  intros Hsmall. apply covers_grid_false in Hsmall.
  assert (find_unused_at img = Raise IndexError) as Hscan.
  { unfold find_unused_at. apply foldM_raises.
    - intros s [c r] x.
      destruct (get_cell_at img c r) as [cell|x'] eqn:E; cbn [bind]; [discriminate|].
      intros [= <-]. eapply get_cell_at_only_IndexError, E.
    - destruct (Z.lt_ge_cases (width img) (COLS * TILE)) as [Hw | Hw].
      + exists (COLS - 1, 0).
        split; [apply elem_of_cell_coords; unfold COLS, ROWS; lia|].
        intros s. rewrite get_cell_at_outside; [reflexivity | | |];
          unfold COLS, ROWS, TILE in *; lia.
      + exists (0, ROWS - 1).
        split; [apply elem_of_cell_coords; unfold COLS, ROWS; lia|].
        intros s. rewrite get_cell_at_outside; [reflexivity | | |];
          unfold COLS, ROWS, TILE in *; lia. }
  unfold analyze_picture. rewrite Hscan. reflexivity.
Qed.

Lemma positive_quadrant_dec (pixels : image) :
  (exists q, In q (quadrant_pool pixels) /\ (0 < q)%Q)
  \/ ~ (exists q, In q (quadrant_pool pixels) /\ (0 < q)%Q).
Proof.
  rewrite <- filter_positive_nonempty.
  destruct (List.filter (Qltb 0) (quadrant_pool pixels)); [right; tauto | left; discriminate].
Qed.

(** The three ways an analysis can end. *)
Lemma analyze_picture_outcome (img : picture) :
  (covers_grid img = false /\ analyze_picture img = Raise IndexError)
  \/ (covers_grid img = true /\
      ~ (exists q, In q (quadrant_pool (access img)) /\ (0 < q)%Q) /\
      analyze_picture img = Raise ValueError)
  \/ (covers_grid img = true /\
      (exists q, In q (quadrant_pool (access img)) /\ (0 < q)%Q) /\
      exists results rep, analyze_picture img = Ok (results, rep)).
Proof.
  destruct (covers_grid img) eqn:Hcov.
  - right. rewrite (analyze_picture_covered img Hcov).
    destruct (analyze_sheet_total (access img)) as [(Hnil & H) | (Hne & results & rep & H)].
    + left. split; [reflexivity|]. split; [|exact H].
      rewrite <- filter_positive_nonempty. tauto.
    + right. split; [reflexivity|]. split; [now apply filter_positive_nonempty | eauto].
  - left. split; [reflexivity | now apply analyze_picture_small].
Qed.

(** X6. How an analysis can end.  The pixel access of line 46 raises
    [IndexError] exactly when the picture is narrower than 192 or lower
    than 64 pixels, in the scan for the unused cell and before anything
    else is computed.  On a picture that holds the whole grid the analysis
    is that of its pixels, and the only exception left is the [ValueError]
    of the diagnostic line 127, raised exactly when no used cell has a
    positive quadrant difference.  No key or type error occurs on any
    picture.  The analysis completes exactly when the picture holds the
    grid and some used cell has a positive quadrant difference. *)
Theorem X6_analysis_outcome :
  forall img : picture,
    (analyze_picture img = Raise IndexError <->
     width img < COLS * TILE \/ height img < ROWS * TILE) /\
    (COLS * TILE <= width img -> ROWS * TILE <= height img ->
     analyze_picture img = analyze_sheet (access img)) /\
    (analyze_picture img = Raise ValueError <->
     COLS * TILE <= width img /\ ROWS * TILE <= height img /\
     ~ exists q, In q (quadrant_pool (access img)) /\ (0 < q)%Q) /\
    ((exists results rep, analyze_picture img = Ok (results, rep)) <->
     COLS * TILE <= width img /\ ROWS * TILE <= height img /\
     exists q, In q (quadrant_pool (access img)) /\ (0 < q)%Q) /\
    (forall e, analyze_picture img = Raise e -> e = IndexError \/ e = ValueError) /\
    (exists results1,
       first_pass (access img) (ref_of (access img))
       = Ok (results1, quadrant_pool (access img))).
Proof.
  intros img.
  assert (covers_grid img = true <->
          COLS * TILE <= width img /\ ROWS * TILE <= height img) as Hcov.
  { unfold covers_grid. rewrite andb_true_iff, !Z.leb_le. reflexivity. }
  pose proof (covers_grid_false img) as Hsmall.
  split; [|split; [|split; [|split; [|split]]]].
  - destruct (analyze_picture_outcome img)
      as [(Hc & H) | [(Hc & _ & H) | (Hc & _ & results & rep & H)]]; rewrite H.
    + split; [intros _; now apply Hsmall | reflexivity].
    + split; [discriminate|]. intros Hs. apply Hsmall in Hs. congruence.
    + split; [discriminate|]. intros Hs. apply Hsmall in Hs. congruence.
  - intros Hw Hh. apply analyze_picture_covered. apply Hcov. split; assumption.
  - destruct (analyze_picture_outcome img)
      as [(Hc & H) | [(Hc & Hq & H) | (Hc & Hq & results & rep & H)]]; rewrite H.
    + split; [discriminate|]. intros (Hw & Hh & _).
      assert (covers_grid img = true) by (apply Hcov; split; assumption). congruence.
    + split; [|reflexivity]. intros _. apply Hcov in Hc as (Hw & Hh). auto.
    + split; [discriminate|]. intros (_ & _ & Hn). contradiction.
  - destruct (analyze_picture_outcome img)
      as [(Hc & H) | [(Hc & Hq & H) | (Hc & Hq & results & rep & H)]]; rewrite H.
    + split; [intros (results & rep & H'); discriminate H'|]. intros (Hw & Hh & _).
      assert (covers_grid img = true) by (apply Hcov; split; assumption). congruence.
    + split; [intros (results & rep & H'); discriminate H'|].
      intros (_ & _ & Hp). contradiction.
    + split; [|eauto]. intros _. apply Hcov in Hc as (Hw & Hh). auto.
  - intros e He.
    destruct (analyze_picture_outcome img)
      as [(_ & H) | [(_ & _ & H) | (_ & _ & results & rep & H)]];
      rewrite H in He; [left | right | discriminate He]; congruence.
  - eexists. apply first_pass_eq.
Qed.

(** X6 on a picture of [sheet_A] of full size, the same picture cut to 48
    rows, and a full picture of the reference-only sheet. *)
Lemma X6_witness :
  (exists results rep, analyze_picture picture_A = Ok (results, rep)) /\
  analyze_picture picture_low = Raise IndexError /\
  analyze_picture (mk_picture 192 64 sheet_B) = Raise ValueError.
Proof.
  split; [|split].
  - apply (proj1 (proj2 (proj2 (proj2 (X6_analysis_outcome picture_A))))).
    split; [vm_compute; discriminate|]. split; [vm_compute; discriminate|].
    exists (quadrant_score (ref_of sheet_A) (get_cell sheet_A 0 0) 0 0).
    split; [vm_compute; tauto | vm_compute; reflexivity].
  - apply (proj1 (X6_analysis_outcome picture_low)). right. vm_compute. reflexivity.
  - apply (proj1 (proj2 (proj2 (X6_analysis_outcome (mk_picture 192 64 sheet_B))))).
    split; [vm_compute; discriminate|]. split; [vm_compute; discriminate|].
    intros (q & Hq & Hpos). vm_compute in Hq.
    repeat (destruct Hq as [<- | Hq]; [vm_compute in Hpos; discriminate Hpos|]).
    destruct Hq.
Defined.

(** ** Several sheets *)

Lemma run_sheets_app {path : Type} (load : path -> option picture)
    (done rest : list path) (reports : list report) (i : Z) :
  Forall2 (fun s rep => exists img results,
             load s = Some img /\ analyze_picture img = Ok (results, rep))
          done reports ->
  run_sheets load i (done ++ rest)
  = (reports ++ (run_sheets load (i + len done) rest).1,
     (run_sheets load (i + len done) rest).2).
Proof.
  intros H. revert i. induction H as [|s rep done reports (img & results & Hl & Hr) _ IH];
    intros i.
  - cbn [app]. replace (i + len []) with i by (unfold len; simpl; lia).
    now destruct (run_sheets load i rest).
  - cbn [app run_sheets]. rewrite Hl, Hr, IH.
    replace (i + 1 + len done) with (i + len (s :: done))
      by (unfold len; cbn [length]; lia).
    reflexivity.
Qed.

(** X20. A run over several sheets.  Without arguments the default sheet
    is analyzed.  Sheets are handled in the order given; when each of
    them opens and its analysis completes, all reports are printed in that
    order.  The first sheet that cannot be opened, or whose analysis
    raises, ends the whole run: the reports of the sheets before it are
    all there is, and the sheets after it are never looked at.  An
    analysis ends a run with the [IndexError] of a picture smaller than
    the grid or with the [ValueError] of the diagnostic line, and with no
    other exception. *)
Theorem X20_first_failure_ends_the_run :
  forall (path : Type) (default_sheet : path) (load : path -> option picture)
         (done : list path) (reports : list report),
    Forall2 (fun s rep => exists img results,
               load s = Some img /\ analyze_picture img = Ok (results, rep))
            done reports ->
    main default_sheet load [] = main default_sheet load [default_sheet] /\
    (done <> [] -> main default_sheet load done = (reports, Done)) /\
    (forall s rest,
       load s = None ->
       main default_sheet load (done ++ s :: rest) = (reports, OpenFailed (len done))) /\
    (forall s rest img e,
       load s = Some img -> analyze_picture img = Raise e ->
       (e = IndexError /\ (width img < COLS * TILE \/ height img < ROWS * TILE)
        \/ e = ValueError /\ COLS * TILE <= width img /\ ROWS * TILE <= height img) /\
       main default_sheet load (done ++ s :: rest)
       = (reports, AnalysisFailed (len done) e)).
Proof.
  intros path default_sheet load done reports Hdone.
  assert (forall l : list path, l <> [] -> main default_sheet load l = run_sheets load 0 l)
    as Hmain by (intros [|s l] Hl; [congruence | reflexivity]).
  split; [reflexivity|]. split; [|split].
  - intros Hne. rewrite (Hmain _ Hne), <- (app_nil_r done).
    rewrite (run_sheets_app load done [] reports 0 Hdone). cbn [run_sheets fst snd].
    now rewrite app_nil_r.
  - intros s rest Hs. rewrite Hmain by (destruct done; discriminate).
    rewrite (run_sheets_app load done (s :: rest) reports 0 Hdone).
    cbn [run_sheets]. rewrite Hs. cbn [fst snd]. now rewrite app_nil_r.
  - intros s rest img e Hs He. split.
    + destruct (analyze_picture_outcome img)
        as [(Hc & H) | [(Hc & _ & H) | (_ & _ & results & rep & H)]];
        rewrite H in He; [left | right | discriminate He]; injection He as <-.
      * split; [reflexivity | now apply covers_grid_false].
      * split; [reflexivity|]. unfold covers_grid in Hc.
        apply andb_true_iff in Hc as (Hw & Hh). apply Z.leb_le in Hw, Hh. auto.
    + rewrite Hmain by (destruct done; discriminate).
      rewrite (run_sheets_app load done (s :: rest) reports 0 Hdone).
      cbn [run_sheets]. rewrite Hs, He. cbn [fst snd]. now rewrite app_nil_r.
Qed.

(** X20 on three pictures, the second of which is cut to 48 rows. *)
Lemma X20_witness :
  exists rep,
    main picture_A Some [picture_A; picture_low; picture_A]
    = ([rep], AnalysisFailed 1 IndexError).
Proof.
  assert (covers_grid picture_A = true) as Hcov by reflexivity.
  pose proof (analyze_picture_covered picture_A Hcov) as Heq. cbn [access picture_A] in Heq.
  destruct (analyze_sheet sheet_A) as [[results rep]|x] eqn:E;
    [|vm_compute in E; discriminate E].
  exists rep.
  destruct (X20_first_failure_ends_the_run picture picture_A Some [picture_A] [rep])
    as (_ & _ & _ & H).
  - constructor; [|constructor]. exists picture_A, results. split; [reflexivity | exact Heq].
  - exact (proj2 (H picture_low [picture_A] picture_low IndexError eq_refl
                    (analyze_picture_small picture_low eq_refl))).
Defined.
